(** * WordExamRush: the adaptive word-selection engine of [src/App.vue]

    A shallow embedding of the script part of [App.vue] (the word pool, the
    weighted random choice of the next word, the weight update after each
    self-assessment, the end of a session and its result table) and of the
    interfaces of [types/word.ts].

    Numbers.  A JavaScript [number] is an IEEE 754 binary64 value, and so is
    Rocq's primitive [float]: [weight], [totalWeight], [unfamiliarity] and the
    value of [Math.random()] are [float]s, the literals [2.16], [0.1] and
    [1.0] are the same doubles as in the source, and [*], [/], [+], [-], [<=],
    [>=] are the IEEE operations.  [occurrences] only ever counts assessments
    one by one from zero; it is kept as a natural number [N] (a double holds
    every integer up to 2^53 exactly), counted up as a double counts
    ([countUp]: at 2^53 the count stays) and converted where the source
    divides by it.

    References.  [currentWord] holds a reference to an object of [wordList];
    the pool only grows at its end, so the reference is modelled as the
    position of that object in [wordList], and an update through
    [currentWord.value] is an update of the pool at that position.

    Randomness.  Each handler that reaches [Math.random()] takes the value it
    returns as an argument. *)

From Stdlib Require Import Floats ZArith NArith Uint63 Bool String Sorted Lia.
From stdpp Require Import base list.

Set Warnings "-inexact-float".

(** ** Data model ([types/word.ts]) *)

(** The value of a record's [explanation] field as [addWords] tells it apart:
    [Array.isArray] fails, or it is an array of strings. *)
Inductive Explanation : Type :=
  | NotAnArray
  | ExplanationArray (exps : list string).

(** [interface Word], as a record comes out of [JSON.parse]: a field that is
    absent is [None], and a field that is there holds a string, as the
    interface declares it. *)
Record Word : Type := mkWord {
  word : option string;
  part_of_speech : option string;
  explanation : Explanation
}.

(** [interface WordWithWeight extends Word]; [toWord] is the spread [...word]. *)
Record WordWithWeight : Type := mkWordWithWeight {
  toWord : Word;
  weight : float;
  occurrences : N;
  totalWeight : float
}.

(** [interface LearningResult]. *)
Record LearningResult : Type := mkLearningResult {
  r_word : option string;
  unfamiliarity : float;
  r_occurrences : N;
  r_totalWeight : float
}.

(** [currentView]. *)
Inductive View : Type := home | learning | result.

(** The argument of [updateWordWeight]. *)
Inductive Action : Type := unknown | vague | known.

(** The refs of the component.  [successMessage] is [None] for the empty
    string and [Some n] for the message that [n] words were added. *)
Record AppState : Type := mkAppState {
  currentView : View;
  jsonInput : string;
  wordList : list WordWithWeight;
  errorMessage : string;
  successMessage : option nat;
  currentWord : option nat;
  isCardFlipped : bool;
  learningResults : list LearningResult
}.

Definition initialState : AppState :=
  mkAppState home EmptyString [] EmptyString None None false [].

(** Assignments to the refs. *)
Definition set_currentView (v : View) (s : AppState) : AppState :=
  mkAppState v (jsonInput s) (wordList s) (errorMessage s) (successMessage s)
    (currentWord s) (isCardFlipped s) (learningResults s).

Definition set_jsonInput (j : string) (s : AppState) : AppState :=
  mkAppState (currentView s) j (wordList s) (errorMessage s) (successMessage s)
    (currentWord s) (isCardFlipped s) (learningResults s).

Definition set_wordList (l : list WordWithWeight) (s : AppState) : AppState :=
  mkAppState (currentView s) (jsonInput s) l (errorMessage s) (successMessage s)
    (currentWord s) (isCardFlipped s) (learningResults s).

Definition set_errorMessage (m : string) (s : AppState) : AppState :=
  mkAppState (currentView s) (jsonInput s) (wordList s) m (successMessage s)
    (currentWord s) (isCardFlipped s) (learningResults s).

Definition set_successMessage (m : option nat) (s : AppState) : AppState :=
  mkAppState (currentView s) (jsonInput s) (wordList s) (errorMessage s) m
    (currentWord s) (isCardFlipped s) (learningResults s).

Definition set_currentWord (c : option nat) (s : AppState) : AppState :=
  mkAppState (currentView s) (jsonInput s) (wordList s) (errorMessage s)
    (successMessage s) c (isCardFlipped s) (learningResults s).

Definition set_isCardFlipped (b : bool) (s : AppState) : AppState :=
  mkAppState (currentView s) (jsonInput s) (wordList s) (errorMessage s)
    (successMessage s) (currentWord s) b (learningResults s).

Definition set_learningResults (r : list LearningResult) (s : AppState) : AppState :=
  mkAppState (currentView s) (jsonInput s) (wordList s) (errorMessage s)
    (successMessage s) (currentWord s) (isCardFlipped s) r.

(** ** Numbers *)

(** The double that holds the count [n]: a counter incremented by one from
    zero holds [n] exactly up to 2^53 and stays there ([x + 1] is [x] for the
    double 2^53). *)
Definition N2float (n : N) : float :=
  of_uint63 (Uint63.of_Z (Z.of_N (N.min n 9007199254740992))).

(** [occurrences++] on a count: below 2^53 the double [x + 1] is the next
    integer, and at 2^53 it is [x] again (2^53 + 1 is no double and the sum
    rounds back), so a count goes up by one until it is 2^53 and stays
    there. *)
Definition countUp (n : N) : N :=
  if (n <? 9007199254740992)%N then (n + 1)%N else n.

(** ** Word pool: [addWords] *)

(** What [JSON.parse(jsonInput.value)] does: it throws a [SyntaxError] with a
    message, or returns a value that is not an array, or an array of records. *)
Inductive ParseResult : Type :=
  | SyntaxError (message : string)
  | NotArray
  | WordArray (parsedWords : list Word).

(** The errors [addWords] throws.  Each message of the source names the
    record by [index + 1]; [InvalidExplanation] also names the explanation by
    [expIndex + 1]. *)
Inductive Error : Type :=
  | NotArrayError
  | MissingWordField (n : nat)
  | MissingPartOfSpeechField (n : nat)
  | MissingExplanationArray (n : nat)
  | InvalidExplanation (n k : nat).

(** How a call ends. *)
Inductive Completion : Type :=
  | Normal
  | Throw (e : Error).

(** JavaScript truthiness of a string field: [!x] holds when the field is
    absent or the empty string. *)
Definition truthy (field : option string) : bool :=
  match field with
  | None => false
  | Some str => negb (String.eqb str EmptyString)
  end.

(** [word.explanation.forEach((exp, expIndex) => ...)]: the first explanation
    with [exp.length === 0] throws. *)
Fixpoint checkExplanations (index expIndex : nat) (exps : list string) : option Error :=
  match exps with
  | [] => None
  | exp :: rest =>
      if Nat.eqb (String.length exp) 0
      then Some (InvalidExplanation (index + 1) (expIndex + 1))
      else checkExplanations index (S expIndex) rest
  end.

(** The body of [parsedWords.forEach((word, index) => ...)]. *)
Definition checkWord (index : nat) (w : Word) : option Error :=
  if negb (truthy (word w)) then Some (MissingWordField (index + 1))
  else if negb (truthy (part_of_speech w)) then Some (MissingPartOfSpeechField (index + 1))
  else match explanation w with
       | NotAnArray => Some (MissingExplanationArray (index + 1))
       | ExplanationArray exps =>
           if Nat.eqb (length exps) 0 then Some (MissingExplanationArray (index + 1))
           else checkExplanations index 0 exps
       end.

(** [parsedWords.forEach] from position [index] on: the first throw ends it. *)
Fixpoint checkWords (index : nat) (parsedWords : list Word) : option Error :=
  match parsedWords with
  | [] => None
  | w :: rest =>
      match checkWord index w with
      | Some e => Some e
      | None => checkWords (S index) rest
      end
  end.

(** [{ ...word, weight: 1.0, occurrences: 0, totalWeight: 0 }]. *)
Definition newWordWithWeight (w : Word) : WordWithWeight :=
  mkWordWithWeight w 1.0%float 0%N 0%float.

Section AddWords.
(** The parser is the platform's; [addWords] is stated for any. *)
Variable JSON_parse : string -> ParseResult.

(** The state after the call and how the call ended: a throw leaves the
    assignments made before it. *)
Definition addWords (s : AppState) : AppState * Completion :=
  let s := set_successMessage None (set_errorMessage EmptyString s) in
  match JSON_parse (jsonInput s) with
  | SyntaxError message => (set_errorMessage message s, Normal)
  | NotArray => (s, Throw NotArrayError)
  | WordArray parsedWords =>
      match checkWords 0 parsedWords with
      | Some e => (s, Throw e)
      | None =>
          let newWordsWithWeight := map newWordWithWeight parsedWords in
          let s := set_wordList (wordList s ++ newWordsWithWeight) s in
          let s := set_successMessage (Some (length newWordsWithWeight)) s in
          (set_jsonInput EmptyString s, Normal)
      end
  end.
End AddWords.

(** ** End of a session: [endLearning] *)

(** The callback of [.map] in [endLearning]. *)
Definition toLearningResult (w : WordWithWeight) : LearningResult :=
  mkLearningResult (word (toWord w))
    (totalWeight w / N2float (occurrences w))%float
    (occurrences w) (totalWeight w).

(** The comparator [(a, b) => b.unfamiliarity - a.unfamiliarity]. *)
Definition compareFn (a b : LearningResult) : float :=
  (unfamiliarity b - unfamiliarity a)%float.

(** [Array.prototype.sort] with a comparator: the sort is stable, [b] goes
    before [a] when [comparefn(a, b) > 0], and a comparator value that is
    [NaN] counts as [+0].  Modelled as the stable insertion sort: each
    element, in the array's order, goes before the first element already
    placed that must follow it.  For a comparator that orders the elements
    (here: when no unfamiliarity is [NaN]) every stable sort returns this
    list. *)
Section Sort.
Context {A : Type}.
Variable comparefn : A -> A -> float.

Fixpoint insertSorted (x : A) (sorted : list A) : list A :=
  match sorted with
  | [] => [x]
  | y :: rest =>
      if (0 <? comparefn y x)%float then x :: y :: rest
      else y :: insertSorted x rest
  end.

Definition sort (l : list A) : list A :=
  fold_left (fun sorted x => insertSorted x sorted) l [].
End Sort.

Definition endLearning (s : AppState) : AppState :=
  let results :=
    sort compareFn
      (map toLearningResult
         (List.filter (fun w => (0 <? occurrences w)%N) (wordList s))) in
  set_currentView result (set_learningResults results s).

Definition endLearningEarly (s : AppState) : AppState := endLearning s.

Definition backToHome (s : AppState) : AppState := set_currentView home s.

(** ** Selection: [selectNextWord] *)

(** The pool with the position of each object: what a reference to an entry
    of [eligibleWords] stands for. *)
Definition indexed (l : list WordWithWeight) : list (nat * WordWithWeight) :=
  imap pair l.

(** [wordList.value.filter((word) => word.weight >= 0.1)]. *)
Definition eligibleWords (l : list WordWithWeight) : list (nat * WordWithWeight) :=
  List.filter (fun iw => (0.1 <=? weight (snd iw))%float) (indexed l).

(** [eligibleWords.reduce((sum, word) => sum + word.weight, 0)]. *)
Definition totalWeightOf (ws : list (nat * WordWithWeight)) : float :=
  fold_left (fun sum w => (sum + weight (snd w))%float) ws 0%float.

(** The [for ... of] loop: [cumulativeWeight] is the sum so far. *)
Fixpoint walk (random cumulativeWeight : float) (ws : list (nat * WordWithWeight))
  : option (nat * WordWithWeight) :=
  match ws with
  | [] => None
  | w :: rest =>
      let cumulativeWeight := (cumulativeWeight + weight (snd w))%float in
      if (random <=? cumulativeWeight)%float then Some w
      else walk random cumulativeWeight rest
  end.

(** [u] is the value [Math.random()] returns in this call, a double in
    [0, 1); it is not drawn when no word is eligible. *)
Definition selectNextWord (u : float) (s : AppState) : AppState :=
  let eligible := eligibleWords (wordList s) in
  if Nat.eqb (length eligible) 0 then endLearning s
  else
    let total := totalWeightOf eligible in
    let random := (u * total)%float in
    match walk random 0%float eligible with
    | Some selectedWord =>
        set_isCardFlipped false (set_currentWord (Some (fst selectedWord)) s)
    | None =>
        if Nat.ltb 0 (length eligible)
        then set_isCardFlipped false (set_currentWord (fst <$> head eligible) s)
        else s
    end.

(** ** Session: [startLearning], [flipCard], [updateWordWeight], [restartLearning] *)

Definition startLearning (u : float) (s : AppState) : AppState :=
  if Nat.eqb (length (wordList s)) 0 then s
  else selectNextWord u (set_currentView learning (set_learningResults [] s)).

Definition flipCard (s : AppState) : AppState :=
  match currentWord s with
  | None => s
  | Some _ => set_isCardFlipped (negb (isCardFlipped s)) s
  end.

(** The [switch] of [updateWordWeight]. *)
Definition adjustWeight (action : Action) (w : float) : float :=
  match action with
  | unknown => (w * 2.16)%float
  | vague => w
  | known => (w / 2.16)%float
  end.

(** What [updateWordWeight] does to the object [currentWord.value]: the
    weight first, then the count, then the sum with the new weight. *)
Definition assess (action : Action) (w : WordWithWeight) : WordWithWeight :=
  let weight' := adjustWeight action (weight w) in
  mkWordWithWeight (toWord w) weight' (countUp (occurrences w))
    (totalWeight w + weight')%float.

(** [updateWordWeight] up to its last line: the entry at position [i], the
    one [currentWord] refers to, is assessed and the card is turned down. *)
Definition assessCurrent (action : Action) (i : nat) (s : AppState) : AppState :=
  set_isCardFlipped false (set_wordList (alter (assess action) i (wordList s)) s).

Definition updateWordWeight (action : Action) (u : float) (s : AppState) : AppState :=
  match currentWord s with
  | None => s
  | Some i => selectNextWord u (assessCurrent action i s)
  end.

(** The callback of [wordList.value.forEach] in [restartLearning]. *)
Definition resetWord (w : WordWithWeight) : WordWithWeight :=
  mkWordWithWeight (toWord w) 1.0%float 0%N 0%float.

Definition restartLearning (u : float) (s : AppState) : AppState :=
  let s := set_wordList (map resetWord (wordList s)) s in
  startLearning u (set_learningResults [] s).

(** ** The states of the component *)

(** What the handlers make of the initial state, in any order, whatever the
    user types into the input, whatever the parser returns and whatever
    [Math.random()] returns. *)
Inductive reachable : AppState -> Prop :=
  | reachable_initial : reachable initialState
  | reachable_input (j : string) (s : AppState) :
      reachable s -> reachable (set_jsonInput j s)
  | reachable_addWords (JSON_parse : string -> ParseResult) (s : AppState) :
      reachable s -> reachable (fst (addWords JSON_parse s))
  | reachable_startLearning (u : float) (s : AppState) :
      reachable s -> reachable (startLearning u s)
  | reachable_flipCard (s : AppState) :
      reachable s -> reachable (flipCard s)
  | reachable_updateWordWeight (action : Action) (u : float) (s : AppState) :
      reachable s -> reachable (updateWordWeight action u s)
  | reachable_endLearningEarly (s : AppState) :
      reachable s -> reachable (endLearningEarly s)
  | reachable_backToHome (s : AppState) :
      reachable s -> reachable (backToHome s)
  | reachable_restartLearning (u : float) (s : AppState) :
      reachable s -> reachable (restartLearning u s).

(** ** Sample data and sessions *)

Definition sampleWord (name : string) : Word :=
  mkWord (Some name) (Some "n."%string) (ExplanationArray ["x"%string]).

Definition apple : Word := sampleWord "apple".
Definition pear : Word := sampleWord "pear".
Definition plum : Word := sampleWord "plum".

(** The spec's example of an invalid record: the [word] is empty. *)
Definition emptyWordRecord : Word :=
  mkWord (Some EmptyString) (Some "n."%string) (ExplanationArray ["x"%string]).

(** The state after [apple] and [pear] were added on the home view. *)
Definition twoWords : AppState :=
  fst (addWords (fun _ => WordArray [apple; pear]) initialState).

(** A session on [twoWords] begins; [apple] is shown. *)
Definition firstCard : AppState := startLearning 0.25 twoWords.

(** A session on [twoWords] in which [Math.random()] returns 0 every time and
    the learner answers "unknown" 922 times: the word shown is [apple] each
    time, and its weight ends at [infinity]. *)
Definition drilled : AppState :=
  Nat.iter 922 (updateWordWeight unknown 0) (startLearning 0 twoWords).

(** A session on [twoWords] in which [Math.random()] returns 0 every time and
    the learner answers "vague" [n] times: the word shown is [apple] each
    time, and its count goes up. *)
Definition vagueDrill (n : N) : AppState :=
  N.iter n (updateWordWeight vague 0) (startLearning 0 twoWords).

(** A session in which every answer is "known"; [us] holds what
    [Math.random()] returns at each selection. *)
Definition answerKnown (us : list float) (s : AppState) : AppState :=
  fold_left (fun s u => updateWordWeight known u s) us s.

(** What [Math.random()] returns in a sample session of six answers. *)
Definition sampleDraws : list float :=
  [0.9; 0.1; 0.5; 0.7; 0.3; 0.2]%float.

(** A session on [twoWords] after five "known" answers, and after six. *)
Definition fiveAnswers : AppState :=
  answerKnown (take 5 sampleDraws) (startLearning 0.6 twoWords).

Definition finishedSession : AppState :=
  answerKnown sampleDraws (startLearning 0.6 twoWords).

(** The state in which the sixth answer calls [selectNextWord]. *)
Definition sixthAssessed : AppState :=
  match currentWord fiveAnswers with
  | Some i => assessCurrent known i fiveAnswers
  | None => fiveAnswers
  end.

(** Three assessed words with unfamiliarity 0.5, 2.0 and 1.0, and a word
    that was never shown. *)
Definition assessedPool : AppState :=
  set_wordList
    [mkWordWithWeight apple 0.5 1 0.5; mkWordWithWeight pear 2 1 2;
     mkWordWithWeight plum 1 0 0; mkWordWithWeight plum 1 2 2]%float
    initialState.

(** * IEEE 754 facts

    The kernel's [float] is specified by [SpecFloat] through the axioms of
    [FloatAxioms]; the facts the engine needs are proved here on the
    specification and carried over. *)

Module FloatFacts.
Local Open Scope Z_scope.

(** *** Bits of a mantissa *)

Lemma digits2_pos_bounds (p : positive) :
  2 ^ (Zpos (digits2_pos p) - 1) <= Zpos p < 2 ^ Zpos (digits2_pos p).
Proof.
  induction p as [p IH | p IH |]; cbn [digits2_pos].
  - rewrite Pos2Z.inj_succ.
    replace (Z.succ (Zpos (digits2_pos p)) - 1) with (Z.succ (Zpos (digits2_pos p) - 1)) by lia.
    rewrite !Z.pow_succ_r by lia. lia.
  - rewrite Pos2Z.inj_succ.
    replace (Z.succ (Zpos (digits2_pos p)) - 1) with (Z.succ (Zpos (digits2_pos p) - 1)) by lia.
    rewrite !Z.pow_succ_r by lia. lia.
  - cbn. lia.
Qed.

Lemma Zdigits2_bounds (m : Z) :
  0 < m -> 2 ^ (Zdigits2 m - 1) <= m < 2 ^ Zdigits2 m.
Proof.
  destruct m as [| p | p]; try lia. intros _. apply digits2_pos_bounds.
Qed.

Lemma Zdigits2_nonneg (m : Z) : 0 <= Zdigits2 m.
Proof. destruct m; cbn; lia. Qed.

Lemma Zdigits2_pos (m : Z) : 0 < m -> 0 < Zdigits2 m.
Proof. destruct m; cbn; lia. Qed.

(** The number of bits is determined by the two powers around [m]. *)
Lemma Zdigits2_unique (m d : Z) :
  2 ^ (d - 1) <= m < 2 ^ d -> 0 < m -> Zdigits2 m = d.
Proof.
  intros [Hlo Hhi] Hm.
  destruct (Zdigits2_bounds m Hm) as [Hlo' Hhi'].
  pose proof (Zdigits2_pos m Hm) as Hd.
  assert (Hd0 : 0 < d).
  { destruct (Z_lt_le_dec 0 d) as [|Hn]; [assumption|].
    assert (2 ^ d <= 2 ^ 0) by (apply Z.pow_le_mono_r; lia || (destruct d; cbn; lia)).
    destruct d; cbn in *; lia. }
  destruct (Z.lt_trichotomy (Zdigits2 m) d) as [Hlt | [Heq | Hgt]]; [| assumption |].
  - assert (2 ^ Zdigits2 m <= 2 ^ (d - 1)) by (apply Z.pow_le_mono_r; lia). lia.
  - assert (2 ^ d <= 2 ^ (Zdigits2 m - 1)) by (apply Z.pow_le_mono_r; lia). lia.
Qed.

Lemma Zdigits2_mono (a b : Z) : 0 < a -> a <= b -> Zdigits2 a <= Zdigits2 b.
Proof.
  intros Ha Hab.
  destruct (Zdigits2_bounds a Ha) as [Hlo _].
  destruct (Zdigits2_bounds b ltac:(lia)) as [_ Hhi].
  destruct (Z_le_gt_dec (Zdigits2 a) (Zdigits2 b)) as [|Hgt]; [assumption|].
  assert (2 ^ Zdigits2 b <= 2 ^ (Zdigits2 a - 1)).
  { apply Z.pow_le_mono_r; [lia|]. lia. }
  lia.
Qed.

(** *** Shifting a mantissa to the right *)


Lemma fexp_eq (e : Z) : fexp prec emax e = Z.max (e - 53) (-1074).
Proof. reflexivity. Qed.

Lemma shr_1_m (mrs : shr_record) :
  0 <= shr_m mrs -> shr_m (shr_1 mrs) = shr_m mrs / 2.
Proof.
  destruct mrs as [m r s]; cbn [shr_m shr_1]. intros Hm.
  destruct m as [| [p | p |] | p]; cbn [shr_m]; try lia.
  all: try reflexivity.
  - apply (Z.div_unique _ _ _ 1); lia.
  - apply (Z.div_unique _ _ _ 0); lia.
Qed.

Lemma iter_pos_shr_m (p : positive) : forall mrs : shr_record,
  0 <= shr_m mrs -> shr_m (SpecFloat.iter_pos shr_1 p mrs) = shr_m mrs / 2 ^ Zpos p.
Proof.
  induction p as [p IH | p IH |]; intros mrs Hm; cbn [SpecFloat.iter_pos].
  - assert (H1 : 0 <= shr_m (shr_1 mrs)) by (rewrite shr_1_m by assumption; apply Z.div_pos; lia).
    assert (H2 : 0 <= shr_m (SpecFloat.iter_pos shr_1 p (shr_1 mrs)))
      by (rewrite IH by assumption; apply Z.div_pos; lia).
    rewrite IH, IH, shr_1_m by assumption.
    rewrite !Z.div_div by lia.
    rewrite (Pos2Z.inj_xI p).
    replace (2 * Zpos p + 1) with (1 + Zpos p + Zpos p) by lia.
    rewrite !Z.pow_add_r by lia. rewrite Z.pow_1_r.
    f_equal. lia.
  - assert (H2 : 0 <= shr_m (SpecFloat.iter_pos shr_1 p mrs))
      by (rewrite IH by assumption; apply Z.div_pos; lia).
    rewrite IH, IH by assumption.
    rewrite !Z.div_div by lia.
    rewrite (Pos2Z.inj_xO p).
    replace (2 * Zpos p) with (Zpos p + Zpos p) by lia.
    rewrite !Z.pow_add_r by lia. reflexivity.
  - rewrite shr_1_m by assumption. reflexivity.
Qed.

(** A shift that drops only zero bits leaves the record exact. *)
Definition exact_record (mrs : shr_record) : Prop :=
  shr_r mrs = false /\ shr_s mrs = false.

Lemma shr_1_exact (mrs : shr_record) :
  exact_record mrs -> 0 <= shr_m mrs -> (2 | shr_m mrs) -> exact_record (shr_1 mrs).
Proof.
  destruct mrs as [m r s]. unfold exact_record. cbn [shr_m shr_r shr_s shr_1].
  intros [-> ->] Hm [k Hk].
  destruct m as [| [p | p |] | p]; cbn; try (split; reflexivity); lia.
Qed.

Lemma divide_pow2_split (m a b : Z) :
  0 <= a -> 0 <= b -> (2 ^ (a + b) | m) -> (2 ^ a | m) /\ (2 ^ b | m / 2 ^ a).
Proof.
  intros Ha Hb [k Hk]. rewrite Z.pow_add_r in Hk by assumption.
  assert (Hp : 0 < 2 ^ a) by (apply Z.pow_pos_nonneg; lia).
  split.
  - exists (k * 2 ^ b). lia.
  - exists k. subst m. rewrite (Z.mul_comm (2 ^ a)), Z.mul_assoc.
    rewrite Z.div_mul by lia. reflexivity.
Qed.

Lemma iter_pos_shr_exact (p : positive) : forall mrs : shr_record,
  exact_record mrs -> 0 <= shr_m mrs -> (2 ^ Zpos p | shr_m mrs) ->
  exact_record (SpecFloat.iter_pos shr_1 p mrs).
Proof.
  induction p as [p IH | p IH |]; intros mrs Hc Hm Hd; cbn [SpecFloat.iter_pos].
  - rewrite (Pos2Z.inj_xI p) in Hd.
    replace (2 * Zpos p + 1) with (1 + (Zpos p + Zpos p)) in Hd by lia.
    apply divide_pow2_split in Hd; try lia. destruct Hd as [H1 H2].
    rewrite Z.pow_1_r in H1, H2.
    apply divide_pow2_split in H2; try lia. destruct H2 as [H2 H3].
    assert (E1 : shr_m (shr_1 mrs) = shr_m mrs / 2) by now apply shr_1_m.
    assert (P1 : 0 <= shr_m (shr_1 mrs)) by (rewrite E1; apply Z.div_pos; lia).
    assert (E2 : shr_m (SpecFloat.iter_pos shr_1 p (shr_1 mrs)) = shr_m mrs / 2 / 2 ^ Zpos p)
      by (rewrite iter_pos_shr_m, E1 by assumption; reflexivity).
    apply IH.
    + apply IH; [now apply shr_1_exact | exact P1 | rewrite E1; exact H2].
    + rewrite E2. apply Z.div_pos; [apply Z.div_pos; lia | apply Z.pow_pos_nonneg; lia].
    + rewrite E2. exact H3.
  - rewrite (Pos2Z.inj_xO p) in Hd.
    replace (2 * Zpos p) with (Zpos p + Zpos p) in Hd by lia.
    apply divide_pow2_split in Hd; try lia. destruct Hd as [H1 H2].
    assert (E2 : shr_m (SpecFloat.iter_pos shr_1 p mrs) = shr_m mrs / 2 ^ Zpos p)
      by now apply iter_pos_shr_m.
    apply IH.
    + now apply IH.
    + rewrite E2. apply Z.div_pos; [lia | apply Z.pow_pos_nonneg; lia].
    + rewrite E2. exact H2.
  - rewrite Z.pow_1_r in Hd. now apply shr_1_exact.
Qed.

Lemma shr_fexp_exact (m e : Z) :
  0 <= m ->
  (2 ^ Z.max 0 (fexp prec emax (Zdigits2 m + e) - e) | m) ->
  loc_of_shr_record (fst (shr_fexp prec emax m e loc_Exact)) = loc_Exact.
Proof.
  intros Hm Hd. unfold shr_fexp, shr.
  destruct (fexp prec emax (Zdigits2 m + e) - e) as [| p | p] eqn:E; cbn [fst];
    try reflexivity.
  rewrite Z.max_r in Hd by lia.
  destruct (iter_pos_shr_exact p (shr_record_of_loc m loc_Exact)) as [Hr Hs].
  - split; reflexivity.
  - exact Hm.
  - exact Hd.
  - destruct (SpecFloat.iter_pos shr_1 p _) as [m' r s]. cbn in Hr, Hs. subst. reflexivity.
Qed.

Lemma shr_record_of_loc_m (m : Z) (l : location) : shr_m (shr_record_of_loc m l) = m.
Proof. destruct l as [| []]; reflexivity. Qed.

Lemma shr_fexp_spec (m e : Z) (l : location) :
  0 <= m ->
  shr_m (fst (shr_fexp prec emax m e l))
    = m / 2 ^ Z.max 0 (fexp prec emax (Zdigits2 m + e) - e)
  /\ snd (shr_fexp prec emax m e l) = e + Z.max 0 (fexp prec emax (Zdigits2 m + e) - e).
Proof.
  intros Hm. unfold shr_fexp, shr.
  destruct (fexp prec emax (Zdigits2 m + e) - e) as [| p | p] eqn:E; cbn [fst snd].
  - rewrite shr_record_of_loc_m. cbn. rewrite Z.div_1_r. lia.
  - rewrite iter_pos_shr_m by (rewrite shr_record_of_loc_m; assumption).
    rewrite shr_record_of_loc_m. rewrite Z.max_r by lia. split; reflexivity.
  - rewrite shr_record_of_loc_m. rewrite Z.max_l by lia. cbn. rewrite Z.div_1_r. lia.
Qed.

Lemma shr_fexp_exact_noshift (m e : Z) :
  fexp prec emax (Zdigits2 m + e) - e <= 0 ->
  shr_fexp prec emax m e loc_Exact = (Build_shr_record m false false, e).
Proof.
  intros H. unfold shr_fexp, shr.
  destruct (fexp prec emax (Zdigits2 m + e) - e); try lia; reflexivity.
Qed.

Lemma round_nearest_even_bounds (m : Z) (l : location) :
  m <= round_nearest_even m l <= m + 1.
Proof.
  destruct l as [| []]; cbn [round_nearest_even]; try lia.
  destruct (Z.even m); lia.
Qed.

(** The shape of every result of [binary_round_aux] on a mantissa that is
    not negative: two shifts with one rounding step in between. *)
Lemma binary_round_aux_spec (sx : bool) (mx ex : Z) (lx : location) :
  0 <= mx ->
  let n := Z.max 0 (fexp prec emax (Zdigits2 mx + ex) - ex) in
  let m1 := mx / 2 ^ n in
  let e1 := ex + n in
  exists m2,
    m1 <= m2 <= m1 + 1 /\
    (lx = loc_Exact -> (2 ^ n | mx) -> m2 = m1) /\
    let n2 := Z.max 0 (fexp prec emax (Zdigits2 m2 + e1) - e1) in
    binary_round_aux prec emax sx mx ex lx =
      match m2 / 2 ^ n2 with
      | Z0 => S754_zero sx
      | Zpos m => if e1 + n2 <=? emax - prec then S754_finite sx m (e1 + n2)
                  else S754_infinity sx
      | Zneg _ => S754_nan
      end.
Proof.
  intros Hm n m1 e1.
  destruct (shr_fexp_spec mx ex lx Hm) as [H1 H2].
  unfold binary_round_aux.
  destruct (shr_fexp prec emax mx ex lx) as [mrs' e'] eqn:E1.
  cbn [fst snd] in H1, H2.
  set (m2 := round_nearest_even (shr_m mrs') (loc_of_shr_record mrs')).
  exists m2.
  pose proof (round_nearest_even_bounds (shr_m mrs') (loc_of_shr_record mrs')) as Hb.
  fold m2 in Hb. rewrite H1 in Hb. fold n in Hb. fold m1 in Hb.
  split; [exact Hb|].
  split.
  { intros -> Hd. unfold m2.
    pose proof (shr_fexp_exact mx ex Hm Hd) as Hl. rewrite E1 in Hl. cbn [fst] in Hl.
    rewrite Hl. cbn [round_nearest_even]. exact H1. }
  assert (Hm1 : 0 <= m1) by (apply Z.div_pos; [assumption | apply Z.pow_pos_nonneg; lia]).
  destruct (shr_fexp_spec m2 e' loc_Exact ltac:(lia)) as [H3 H4].
  destruct (shr_fexp prec emax m2 e' loc_Exact) as [mrs'' e''] eqn:E2.
  cbn [fst snd] in H3, H4.
  cbn zeta. rewrite H3, H4, H2. fold n. fold e1. reflexivity.
Qed.

Lemma Zdigits2_le (m k : Z) : 0 <= m -> 0 <= k -> m < 2 ^ k -> Zdigits2 m <= k.
Proof.
  intros Hm0 Hk Hm.
  destruct (Z_lt_le_dec 0 m) as [Hpos | Hneg].
  - destruct (Zdigits2_bounds m Hpos) as [Hlo _].
    destruct (Z_le_gt_dec (Zdigits2 m) k) as [|Hgt]; [assumption|].
    assert (2 ^ k <= 2 ^ (Zdigits2 m - 1)) by (apply Z.pow_le_mono_r; lia). lia.
  - assert (m = 0) by lia. subst m. cbn. assumption.
Qed.

(** How far [shr_fexp] shifts a mantissa below [2 ^ (53 + k)]. *)
Lemma shift_amount_le (x e k : Z) :
  0 <= x -> 0 <= k -> x < 2 ^ (53 + k) -> -1074 <= e + k ->
  Z.max 0 (fexp prec emax (Zdigits2 x + e) - e) <= k.
Proof.
  intros Hx0 Hk Hx He. rewrite fexp_eq.
  pose proof (Zdigits2_le x (53 + k) Hx0 ltac:(lia) Hx). lia.
Qed.

Lemma div_pow2_lt (x n : Z) : 0 <= n -> x < (x / 2 ^ n + 1) * 2 ^ n.
Proof.
  intros Hn. pose proof (Z.pow_pos_nonneg 2 n ltac:(lia) Hn) as Hp.
  pose proof (Z.mul_succ_div_gt x (2 ^ n) Hp). lia.
Qed.

Lemma div_pow2_le (x n : Z) : 0 <= n -> x / 2 ^ n * 2 ^ n <= x.
Proof.
  intros Hn. pose proof (Z.pow_pos_nonneg 2 n ltac:(lia) Hn) as Hp.
  pose proof (Z.mul_div_le x (2 ^ n) Hp). lia.
Qed.

(** The result of [binary_round_aux] by its total shift [N] and its final
    mantissa [m3]: the second shift is of one bit at most, and the mantissa is
    within one unit of [mx / 2 ^ N]. *)
Lemma binary_round_aux_bounds (sx : bool) (mx ex : Z) (lx : location) :
  0 <= mx ->
  let n := Z.max 0 (fexp prec emax (Zdigits2 mx + ex) - ex) in
  exists m3 N,
    0 <= m3 /\ n <= N <= n + 1 /\
    mx < (m3 + 1) * 2 ^ N /\ m3 * 2 ^ N <= mx + 2 ^ N /\
    binary_round_aux prec emax sx mx ex lx =
      match m3 with
      | Z0 => S754_zero sx
      | Zpos m => if ex + N <=? 971 then S754_finite sx m (ex + N)
                  else S754_infinity sx
      | Zneg _ => S754_nan
      end.
Proof.
  intros Hm n.
  destruct (binary_round_aux_spec sx mx ex lx Hm) as (m2 & Hm2 & _ & E).
  fold n in Hm2, E.
  set (m1 := mx / 2 ^ n) in *. set (e1 := ex + n) in *.
  set (n2 := Z.max 0 (fexp prec emax (Zdigits2 m2 + e1) - e1)) in *.
  assert (Hn : 0 <= n) by (unfold n; lia).
  assert (Hn2 : 0 <= n2) by (unfold n2; lia).
  assert (P1 : 0 < 2 ^ n) by (apply Z.pow_pos_nonneg; lia).
  assert (P2 : 0 < 2 ^ n2) by (apply Z.pow_pos_nonneg; lia).
  assert (Hm1 : 0 <= m1) by (apply Z.div_pos; lia).
  (* the second shift is of one bit at most *)
  assert (Hn2' : n2 <= 1).
  { unfold n2. rewrite fexp_eq.
    assert (Hd2 : Zdigits2 m2 <= Z.max (Zdigits2 mx - n) 0 + 1).
    { apply Zdigits2_le; [lia|lia|].
      assert (m1 + 1 <= 2 ^ Z.max (Zdigits2 mx - n) 0).
      { destruct (Z_lt_le_dec 0 m1) as [Hpos | Hz].
        - assert (Hmx : 0 < mx).
          { destruct (Z_lt_le_dec 0 mx); [assumption|].
            assert (mx = 0) by lia. subst mx. unfold m1 in Hpos.
            rewrite Z.div_0_l in Hpos by lia. lia. }
          destruct (Zdigits2_bounds mx Hmx) as [_ Hhi].
          assert (Hle : n <= Zdigits2 mx).
          { destruct (Z_le_gt_dec n (Zdigits2 mx)); [assumption|].
            assert (2 ^ Zdigits2 mx <= 2 ^ n) by (apply Z.pow_le_mono_r; lia).
            unfold m1 in Hpos. rewrite Z.div_small in Hpos by lia. lia. }
          rewrite Z.max_l by lia.
          assert (m1 < 2 ^ (Zdigits2 mx - n)); [|lia].
          unfold m1. apply Z.div_lt_upper_bound; [lia|].
          rewrite <- Z.pow_add_r by lia.
          replace (n + (Zdigits2 mx - n)) with (Zdigits2 mx) by lia. assumption.
        - assert (m1 = 0) by lia.
          assert (0 < 2 ^ Z.max (Zdigits2 mx - n) 0) by (apply Z.pow_pos_nonneg; lia).
          lia. }
      replace (Z.max (Zdigits2 mx - n) 0 + 1) with (Z.succ (Z.max (Zdigits2 mx - n) 0)) by lia.
      rewrite Z.pow_succ_r by lia. lia. }
    unfold e1, n in *. rewrite fexp_eq in *.
    pose proof (Zdigits2_nonneg mx). lia. }
  exists (m2 / 2 ^ n2), (n + n2).
  assert (Hm3 : 0 <= m2 / 2 ^ n2) by (apply Z.div_pos; lia).
  rewrite Z.pow_add_r by lia.
  pose proof (div_pow2_lt mx n Hn) as L1. fold m1 in L1.
  pose proof (div_pow2_le mx n Hn) as U1. fold m1 in U1.
  pose proof (div_pow2_lt m2 n2 Hn2) as L2.
  pose proof (div_pow2_le m2 n2 Hn2) as U2.
  set (m3 := m2 / 2 ^ n2) in *.
  repeat split; try lia.
  - (* mx < (m3 + 1) * 2^N *)
    assert ((m1 + 1) * 2 ^ n <= (m3 + 1) * 2 ^ n2 * 2 ^ n)
      by (apply Z.mul_le_mono_nonneg_r; lia).
    lia.
  - (* m3 * 2^N <= mx + 2^N *)
    assert (m3 * 2 ^ n2 * 2 ^ n <= (m1 + 1) * 2 ^ n)
      by (apply Z.mul_le_mono_nonneg_r; lia).
    assert (2 ^ n * 1 <= 2 ^ n * 2 ^ n2) by (apply Z.mul_le_mono_nonneg_l; lia).
    lia.
  - rewrite E. unfold e1. rewrite Z.add_assoc. reflexivity.
Qed.

(** *** Valid (canonical) finite numbers and their order *)

Lemma bounded_inv (m : positive) (e : Z) :
  bounded prec emax m e = true ->
  -1074 <= e <= 971 /\ Zpos (digits2_pos m) <= 53
  /\ (e = -1074 \/ Zpos (digits2_pos m) = 53).
Proof.
  unfold bounded, canonical_mantissa. rewrite fexp_eq.
  intros H. apply andb_true_iff in H. destruct H as [H1 H2].
  apply Z.eqb_eq in H1. apply Z.leb_le in H2.
  change (emax - prec) with 971 in H2. lia.
Qed.

(** The comparison of two positive finite numbers as [SFcompare] does it. *)
Definition cmp_fin (m1 : positive) (e1 : Z) (m2 : positive) (e2 : Z) : comparison :=
  match e1 ?= e2 with
  | Lt => Lt
  | Gt => Gt
  | Eq => Pos.compare_cont Eq m1 m2
  end.

Lemma pow2_pos (e : Z) : 0 <= e -> 0 < 2 ^ e.
Proof. intros. apply Z.pow_pos_nonneg; lia. Qed.

Lemma valid_lt_exponent (m1 : positive) (e1 : Z) (m2 : positive) (e2 : Z) :
  bounded prec emax m1 e1 = true -> bounded prec emax m2 e2 = true ->
  e1 < e2 -> Zpos m1 * 2 ^ (e1 + 1074) < Zpos m2 * 2 ^ (e2 + 1074).
Proof.
  intros H1 H2 Hlt.
  apply bounded_inv in H1. apply bounded_inv in H2.
  destruct H1 as (He1 & Hd1 & _). destruct H2 as (He2 & _ & [Hd2 | Hd2]); [lia|].
  pose proof (digits2_pos_bounds m1) as [_ Hm1].
  pose proof (digits2_pos_bounds m2) as [Hm2 _].
  rewrite Hd2 in Hm2. change (2 ^ (53 - 1)) with 4503599627370496 in Hm2.
  assert (Hm1' : Zpos m1 < 9007199254740992).
  { eapply Z.lt_le_trans; [exact Hm1|].
    change 9007199254740992 with (2 ^ 53). apply Z.pow_le_mono_r; lia. }
  replace (e2 + 1074) with ((e1 + 1074) + (e2 - e1)) by lia.
  rewrite (Z.pow_add_r 2 (e1 + 1074) (e2 - e1)) by lia.
  assert (HA : 0 < 2 ^ (e1 + 1074)) by (apply pow2_pos; lia).
  assert (HB : 2 <= 2 ^ (e2 - e1)).
  { change 2 with (2 ^ 1) at 1. apply Z.pow_le_mono_r; lia. }
  set (A := 2 ^ (e1 + 1074)) in *. set (B := 2 ^ (e2 - e1)) in *.
  assert (H1 : A * 2 <= A * B) by (apply Z.mul_le_mono_nonneg_l; lia).
  assert (H2 : 4503599627370496 * (A * B) <= Zpos m2 * (A * B))
    by (apply Z.mul_le_mono_nonneg_r; lia).
  assert (H3 : Zpos m1 * A < 9007199254740992 * A)
    by (apply Z.mul_lt_mono_pos_r; lia).
  lia.
Qed.

Lemma cmp_fin_value (m1 : positive) (e1 : Z) (m2 : positive) (e2 : Z) :
  bounded prec emax m1 e1 = true -> bounded prec emax m2 e2 = true ->
  cmp_fin m1 e1 m2 e2 = (Zpos m1 * 2 ^ (e1 + 1074) ?= Zpos m2 * 2 ^ (e2 + 1074)).
Proof.
  intros H1 H2. unfold cmp_fin.
  destruct (Z.compare_spec e1 e2) as [Heq | Hlt | Hgt].
  - subst e2. rewrite Pos.compare_cont_spec. cbn [Pos.switch_Eq].
    rewrite <- Zmult_compare_compat_r.
    + rewrite Pos2Z.inj_compare.
      destruct (Zpos m1 ?= Zpos m2); reflexivity.
    + apply Z.lt_gt, pow2_pos. apply bounded_inv in H1. lia.
  - symmetry. apply Z.compare_lt_iff. now apply valid_lt_exponent.
  - symmetry. apply Z.compare_gt_iff. now apply valid_lt_exponent.
Qed.

Lemma SFcompare_antisym (x y : spec_float) :
  SFcompare y x = option_map CompOpp (SFcompare x y).
Proof.
  destruct x as [sx | sx | | sx mx ex], y as [sy | sy | | sy my ey];
    cbn [SFcompare option_map]; try reflexivity;
    try (destruct sx; reflexivity); try (destruct sy; reflexivity);
    try (destruct sx, sy; reflexivity).
  destruct sx, sy; try reflexivity; f_equal;
    rewrite (Z.compare_antisym ex ey);
    destruct (ex ?= ey); cbn [CompOpp]; try reflexivity.
  - f_equal. exact (ZC4 my mx).
  - exact (ZC4 my mx).
Qed.

Lemma SFcompare_not_nan (x y : spec_float) :
  x <> S754_nan -> y <> S754_nan -> SFcompare x y <> None.
Proof.
  destruct x as [sx | sx | | sx mx ex], y as [sy | sy | | sy my ey];
    cbn [SFcompare]; congruence.
Qed.

(** The order of the numbers, on a scale of integers: a finite number by
    its value in units of [2 ^ -1074], the infinities beyond every finite
    number. *)
Definition SFord (x : spec_float) : Z :=
  match x with
  | S754_zero _ => 0
  | S754_nan => 0
  | S754_infinity s => if s then - 2 ^ 2200 else 2 ^ 2200
  | S754_finite s m e =>
      if s then - (Zpos m * 2 ^ (e + 1074)) else Zpos m * 2 ^ (e + 1074)
  end.

Lemma finite_ord_bounds (m : positive) (e : Z) :
  bounded prec emax m e = true ->
  0 < Zpos m * 2 ^ (e + 1074) < 2 ^ 2200.
Proof.
  intros Hb. apply bounded_inv in Hb. destruct Hb as (He & Hd & _).
  pose proof (digits2_pos_bounds m) as [_ Hhi].
  assert (Hm : Zpos m < 2 ^ 53).
  { eapply Z.lt_le_trans; [exact Hhi|]. apply Z.pow_le_mono_r; lia. }
  assert (HT : 0 < 2 ^ (e + 1074)) by (apply Z.pow_pos_nonneg; lia).
  assert (HT' : 2 ^ (e + 1074) <= 2 ^ 2045) by (apply Z.pow_le_mono_r; lia).
  split; [apply Z.mul_pos_pos; lia|].
  assert (H1 : Zpos m * 2 ^ (e + 1074) < 2 ^ 53 * 2 ^ (e + 1074))
    by (apply Z.mul_lt_mono_pos_r; assumption).
  assert (H2 : 2 ^ 53 * 2 ^ (e + 1074) <= 2 ^ 53 * 2 ^ 2045)
    by (apply Z.mul_le_mono_nonneg_l; [apply Z.pow_nonneg; lia | assumption]).
  assert (H3 : 2 ^ 53 * 2 ^ 2045 < 2 ^ 2200).
  { rewrite <- Z.pow_add_r by lia. apply Z.pow_lt_mono_r; lia. }
  lia.
Qed.

(** [SFcompare] on valid numbers is the comparison on that scale. *)
Lemma SFcompare_ord (x y : spec_float) :
  valid_binary x = true -> valid_binary y = true ->
  x <> S754_nan -> y <> S754_nan ->
  SFcompare x y = Some (SFord x ?= SFord y).
Proof.
  intros Vx Vy Nx Ny.
  assert (Hinf : 0 < 2 ^ 2200) by (apply Z.pow_pos_nonneg; lia).
  destruct x as [sx | sx | | sx mx ex], y as [sy | sy | | sy my ey];
    try congruence; cbn [SFcompare SFord valid_binary] in *; f_equal; symmetry.
  - destruct sy; [apply Z.compare_gt_iff | apply Z.compare_lt_iff]; lia.
  - pose proof (finite_ord_bounds my ey Vy).
    destruct sy; [apply Z.compare_gt_iff | apply Z.compare_lt_iff]; lia.
  - destruct sx; [apply Z.compare_lt_iff | apply Z.compare_gt_iff]; lia.
  - destruct sx, sy;
      first [apply Z.compare_eq_iff | apply Z.compare_lt_iff | apply Z.compare_gt_iff];
      lia.
  - pose proof (finite_ord_bounds my ey Vy).
    destruct sx, sy; [apply Z.compare_lt_iff | apply Z.compare_lt_iff
                      | apply Z.compare_gt_iff | apply Z.compare_gt_iff]; lia.
  - pose proof (finite_ord_bounds mx ex Vx).
    destruct sx; [apply Z.compare_lt_iff | apply Z.compare_gt_iff]; lia.
  - pose proof (finite_ord_bounds mx ex Vx).
    destruct sx, sy; [apply Z.compare_gt_iff | apply Z.compare_lt_iff
                      | apply Z.compare_gt_iff | apply Z.compare_lt_iff]; lia.
  - pose proof (finite_ord_bounds mx ex Vx).
    pose proof (finite_ord_bounds my ey Vy).
    change PosDef.Pos.compare_cont with Pos.compare_cont.
    pose proof (cmp_fin_value mx ex my ey Vx Vy) as Hc. unfold cmp_fin in Hc.
    destruct sx, sy.
    + rewrite Z.compare_opp. rewrite (Z.compare_antisym _ (Zpos my * _)).
      rewrite <- Hc. destruct (ex ?= ey); reflexivity.
    + apply Z.compare_lt_iff. lia.
    + apply Z.compare_gt_iff. lia.
    + rewrite <- Hc. reflexivity.
Qed.

Lemma SFleb_ord (x y : spec_float) :
  valid_binary x = true -> valid_binary y = true ->
  x <> S754_nan -> y <> S754_nan ->
  SFleb x y = (SFord x <=? SFord y).
Proof.
  intros Vx Vy Nx Ny. unfold SFleb. rewrite SFcompare_ord by assumption.
  destruct (Z.compare_spec (SFord x) (SFord y)); destruct (Z.leb_spec (SFord x) (SFord y));
    try reflexivity; lia.
Qed.

(** Rounding does not cross a representable number: a value that is at most
    a valid number [mT * 2 ^ eT] rounds to at most that number. *)
Lemma binary_round_aux_below (mx ex : Z) (mT : positive) (eT : Z) :
  0 < mx -> bounded prec emax mT eT = true ->
  ex <= eT -> mx <= Zpos mT * 2 ^ (eT - ex) ->
  valid_binary (binary_round_aux prec emax false mx ex loc_Exact) = true ->
  SFleb (binary_round_aux prec emax false mx ex loc_Exact) (S754_finite false mT eT) = true.
Proof.
  intros Hmx HT Hex Hle.
  pose proof (bounded_inv mT eT HT) as (HeT & HdT & Hcan).
  pose proof (digits2_pos_bounds mT) as [_ HmT].
  set (dT := Zpos (digits2_pos mT)) in *.
  destruct (Zdigits2_bounds mx Hmx) as [HdP _].
  pose proof (Zdigits2_pos mx Hmx) as HdP0.
  set (dP := Zdigits2 mx) in *.
  (* the top bit of the value is not above the top bit of the bound *)
  assert (Htop : dP + ex <= dT + eT).
  { assert (H1 : Zpos mT * 2 ^ (eT - ex) < 2 ^ dT * 2 ^ (eT - ex))
      by (apply Z.mul_lt_mono_pos_r; [apply Z.pow_pos_nonneg; lia | exact HmT]).
    rewrite <- Z.pow_add_r in H1 by lia.
    assert (H2 : 2 ^ (dP - 1) < 2 ^ (dT + (eT - ex))) by lia.
    apply Z.pow_lt_mono_r_iff in H2; lia. }
  destruct (binary_round_aux_spec false mx ex loc_Exact ltac:(lia)) as (m2 & Hm2 & Hexact & E).
  cbv zeta in E. fold dP in Hm2, Hexact, E.
  set (n := Z.max 0 (fexp prec emax (dP + ex) - ex)) in *.
  assert (Hn_eq : n = Z.max 0 (Z.max (dP + ex - 53) (-1074) - ex))
    by (unfold n; rewrite fexp_eq; reflexivity).
  set (e1 := ex + n) in *.
  assert (Hn : 0 <= n) by lia.
  assert (He1 : -1074 <= e1 <= eT) by (unfold e1; lia).
  set (T1 := Zpos mT * 2 ^ (eT - e1)).
  assert (P2n : 0 < 2 ^ n) by (apply Z.pow_pos_nonneg; lia).
  assert (HT1 : Zpos mT * 2 ^ (eT - ex) = T1 * 2 ^ n).
  { unfold T1. rewrite <- Z.mul_assoc, <- Z.pow_add_r by lia. do 2 f_equal. unfold e1. lia. }
  rewrite HT1 in Hle.
  pose proof (div_pow2_le mx n Hn) as Hfloor.
  set (m1 := mx / 2 ^ n) in *.
  assert (Hm1 : 0 <= m1) by (apply Z.div_pos; lia).
  (* the rounded mantissa stays below the bound *)
  assert (Hm2T : m2 <= T1).
  { destruct (Z.eq_dec mx (m1 * 2 ^ n)) as [Eq | Ne].
    - rewrite (Hexact eq_refl) by (exists m1; exact Eq).
      apply (Z.mul_le_mono_pos_r _ _ (2 ^ n)); lia.
    - assert (m1 * 2 ^ n < T1 * 2 ^ n) by lia.
      assert (m1 < T1) by (apply (Z.mul_lt_mono_pos_r (2 ^ n)); lia).
      lia. }
  set (n2 := Z.max 0 (fexp prec emax (Zdigits2 m2 + e1) - e1)) in *.
  assert (Hn2_eq : n2 = Z.max 0 (Z.max (Zdigits2 m2 + e1 - 53) (-1074) - e1))
    by (unfold n2; rewrite fexp_eq; reflexivity).
  assert (Hn2 : 0 <= n2) by lia.
  assert (Hm2' : 0 <= m2) by lia.
  assert (HT1lt : T1 < 2 ^ (dT + (eT - e1))).
  { unfold T1. rewrite Z.pow_add_r by lia.
    apply Z.mul_lt_mono_pos_r; [apply Z.pow_pos_nonneg; lia | exact HmT]. }
  assert (He2 : e1 + n2 <= eT).
  { pose proof (Zdigits2_le m2 (dT + (eT - e1)) Hm2' ltac:(lia) ltac:(lia)). lia. }
  pose proof (div_pow2_le m2 n2 Hn2) as Hfloor2.
  assert (P2n2 : 0 < 2 ^ n2) by (apply Z.pow_pos_nonneg; lia).
  assert (Hm3 : 0 <= m2 / 2 ^ n2) by (apply Z.div_pos; lia).
  rewrite E. destruct (m2 / 2 ^ n2) as [| p3 | p3] eqn:E3; try lia; [intros _; reflexivity|].
  destruct (Z.leb_spec (e1 + n2) (emax - prec)) as [_ | Hov];
    [|change (emax - prec) with 971 in Hov; lia].
  intros Hv.
  rewrite SFleb_ord by (assumption || discriminate). cbn [SFord].
  apply Z.leb_le.
  replace (eT + 1074) with ((eT - e1) + (e1 + 1074)) by lia.
  replace (e1 + n2 + 1074) with (n2 + (e1 + 1074)) by lia.
  rewrite (Z.pow_add_r 2 (eT - e1) (e1 + 1074)), (Z.pow_add_r 2 n2 (e1 + 1074)) by lia.
  rewrite !Z.mul_assoc.
  apply Z.mul_le_mono_nonneg_r; [apply Z.pow_nonneg; lia|].
  fold T1. lia.
Qed.

(** *** Aligning and rounding *)

Lemma iter_xO_value (m d : positive) : Zpos (Pos.iter xO m d) = Zpos m * 2 ^ Zpos d.
Proof.
  apply (Pos.iter_ind _ xO m (fun d a => Zpos a = Zpos m * 2 ^ Zpos d)).
  - rewrite Pos2Z.inj_xO. rewrite Z.pow_1_r. lia.
  - intros p a IH. rewrite (Pos2Z.inj_xO a), IH, Pos2Z.inj_succ.
    rewrite Z.pow_succ_r by lia. lia.
Qed.

Lemma shl_align_value (mx : positive) (ex ez : Z) :
  ez <= ex ->
  Zpos (fst (shl_align mx ex ez)) = Zpos mx * 2 ^ (ex - ez)
  /\ snd (shl_align mx ex ez) = ez.
Proof.
  intros Hle. unfold shl_align.
  destruct (ez - ex) as [| d | d] eqn:E; cbn [fst snd]; try lia.
  - replace (ex - ez) with 0 by lia. cbn. lia.
  - rewrite iter_xO_value. replace (ex - ez) with (Zpos d) by lia. lia.
Qed.

(** A shift of [shr_fexp] at an exponent in range never empties a mantissa. *)
Lemma shift_keeps_pos (m e : Z) :
  0 < m -> -1074 <= e ->
  0 < m / 2 ^ Z.max 0 (fexp prec emax (Zdigits2 m + e) - e).
Proof.
  intros Hm He. rewrite fexp_eq.
  destruct (Zdigits2_bounds m Hm) as [Hlo _].
  pose proof (Zdigits2_pos m Hm) as Hd.
  set (n := Z.max 0 (Z.max (Zdigits2 m + e - 53) (-1074) - e)).
  assert (Hn : 0 <= n <= Zdigits2 m - 1) by (unfold n; lia).
  apply Z.div_str_pos. split; [apply pow2_pos; lia|].
  eapply Z.le_trans; [|exact Hlo]. apply Z.pow_le_mono_r; lia.
Qed.

Lemma binary_round_aux_pos (sx : bool) (mx ex : Z) (lx : location) :
  0 < mx -> -1074 <= ex ->
  (exists m e, binary_round_aux prec emax sx mx ex lx = S754_finite sx m e)
  \/ binary_round_aux prec emax sx mx ex lx = S754_infinity sx.
Proof.
  intros Hm He.
  destruct (binary_round_aux_spec sx mx ex lx ltac:(lia)) as (m2 & Hm2 & _ & ->).
  pose proof (shift_keeps_pos mx ex Hm He) as H1.
  set (e1 := ex + Z.max 0 (fexp prec emax (Zdigits2 mx + ex) - ex)) in *.
  assert (He1 : -1074 <= e1) by (unfold e1; lia).
  pose proof (shift_keeps_pos m2 e1 ltac:(lia) He1) as H3.
  destruct (m2 / 2 ^ Z.max 0 (fexp prec emax (Zdigits2 m2 + e1) - e1)) as [| m3 | m3];
    try lia.
  destruct (_ <=? _); [left; eauto | right; reflexivity].
Qed.

Lemma binary_round_pos (sx : bool) (mx : positive) (ex : Z) :
  -1074 <= ex ->
  (exists m e, binary_round prec emax sx mx ex = S754_finite sx m e)
  \/ binary_round prec emax sx mx ex = S754_infinity sx.
Proof.
  intros He. unfold binary_round.
  destruct (shl_align mx ex (fexp prec emax (Zpos (digits2_pos mx) + ex))) as [mz ez] eqn:E.
  apply binary_round_aux_pos; [lia|].
  unfold shl_align in E. rewrite fexp_eq in E.
  destruct (Z.max (Zpos (digits2_pos mx) + ex - 53) (-1074) - ex) eqn:E'; inversion E; lia.
Qed.

(** The sign of a float as [0 < x] sees it. *)
Lemma SFltb_zero_finite (s : bool) (m : positive) (e : Z) :
  SFltb (S754_zero false) (S754_finite s m e) = negb s.
Proof. destruct s; reflexivity. Qed.

Lemma SFltb_zero_infinity (s : bool) :
  SFltb (S754_zero false) (S754_infinity s) = negb s.
Proof. destruct s; reflexivity. Qed.

Lemma SFltb_zero_normalize (d ez : Z) :
  -1074 <= ez ->
  SFltb (S754_zero false) (binary_normalize prec emax d ez false) = (0 <? d).
Proof.
  intros He. destruct d as [| p | p]; cbn [binary_normalize].
  - reflexivity.
  - destruct (binary_round_pos false p ez He) as [(m & e & ->) | ->]; reflexivity.
  - destruct (binary_round_pos true p ez He) as [(m & e & ->) | ->]; reflexivity.
Qed.

(** *** The sign of a difference *)

Lemma aligned_compare (mx : positive) (ex : Z) (my : positive) (ey : Z) :
  bounded prec emax mx ex = true -> bounded prec emax my ey = true ->
  cmp_fin my ey mx ex
  = (Zpos (fst (shl_align my ey (Z.min ex ey))) ?= Zpos (fst (shl_align mx ex (Z.min ex ey)))).
Proof.
  intros Hx Hy. rewrite cmp_fin_value by assumption.
  apply bounded_inv in Hx. apply bounded_inv in Hy.
  destruct (shl_align_value mx ex (Z.min ex ey) ltac:(lia)) as [-> _].
  destruct (shl_align_value my ey (Z.min ex ey) ltac:(lia)) as [-> _].
  set (ez := Z.min ex ey).
  replace (ey + 1074) with ((ey - ez) + (ez + 1074)) by lia.
  replace (ex + 1074) with ((ex - ez) + (ez + 1074)) by lia.
  rewrite (Z.pow_add_r 2 (ey - ez)), (Z.pow_add_r 2 (ex - ez)) by lia.
  rewrite !Z.mul_assoc.
  symmetry. apply Zmult_compare_compat_r. apply Z.lt_gt, pow2_pos. lia.
Qed.

Lemma SFsub_sign (x y : spec_float) :
  valid_binary x = true -> valid_binary y = true ->
  x <> S754_nan -> y <> S754_nan ->
  SFltb (S754_zero false) (SFsub prec emax x y) = SFltb y x.
Proof.
  intros Vx Vy Nx Ny.
  destruct x as [sx | sx | | sx mx ex], y as [sy | sy | | sy my ey];
    try congruence;
    try (destruct sx, sy; reflexivity).
  cbn [valid_binary] in Vx, Vy.
  cbn [SFsub].
  rewrite SFltb_zero_normalize
    by (apply bounded_inv in Vx; apply bounded_inv in Vy; lia).
  pose proof (aligned_compare mx ex my ey Vx Vy) as Hc.
  set (X := Zpos (fst (shl_align mx ex (Z.min ex ey)))) in *.
  set (Y := Zpos (fst (shl_align my ey (Z.min ex ey)))) in *.
  assert (HX : 0 < X) by (unfold X; lia).
  assert (HY : 0 < Y) by (unfold Y; lia).
  unfold SFltb. cbn [SFcompare].
  change PosDef.Pos.compare_cont with Pos.compare_cont.
  revert Hc. unfold cmp_fin.
  destruct sx, sy; cbn [cond_Zopp].
  - destruct (ey ?= ex); intros Hc; try rewrite Hc; revert Hc;
      destruct (Z.compare_spec Y X); intros Hc; try discriminate Hc;
      destruct (Z.ltb_spec 0 (- X - - Y));
      cbn [CompOpp]; try reflexivity; lia.
  - intros _. destruct (Z.ltb_spec 0 (- X - Y)); [lia | reflexivity].
  - intros _. destruct (Z.ltb_spec 0 (X - - Y)); [reflexivity | lia].
  - destruct (ey ?= ex); intros Hc; try rewrite Hc; revert Hc;
      destruct (Z.compare_spec Y X); intros Hc; try discriminate Hc;
      destruct (Z.ltb_spec 0 (X - Y));
      try reflexivity; lia.
Qed.

(** *** Multiplying and dividing by 2.16 *)

(** The double of the literal [2.16]. *)
Definition SF216 : spec_float := S754_finite false 4863887597560136 (-51).

Lemma pow2_dm_le (m : positive) : 2 ^ (Zpos (digits2_pos m) - 1) <= Zpos m.
Proof. apply digits2_pos_bounds. Qed.

Lemma SFmul_216_gt (m : positive) (e : Z) :
  bounded prec emax m e = true ->
  valid_binary (SFmul prec emax (S754_finite false m e) SF216) = true ->
  SFltb (S754_finite false m e) (SFmul prec emax (S754_finite false m e) SF216) = true.
Proof.
  intros Hb Hv.
  destruct (Pos.eq_dec m 1%positive) as [-> | Hm1].
  { apply bounded_inv in Hb. cbn in Hb.
    assert (e = -1074) by lia. subst e. vm_compute. reflexivity. }
  revert Hv. unfold SF216. cbn [SFmul xorb].
  set (dm := Zpos (digits2_pos m)).
  assert (Hdm : 2 <= dm).
  { unfold dm. destruct m as [p | p |]; cbn [digits2_pos]; try lia; congruence. }
  pose proof (bounded_inv m e Hb) as (He & Hd53 & _). fold dm in Hd53.
  destruct (digits2_pos_bounds m) as [Hlo Hhi]. fold dm in Hlo, Hhi.
  set (P := Zpos (m * 4863887597560136)).
  assert (HP : P = Zpos m * 4863887597560136) by (unfold P; lia).
  destruct (binary_round_aux_bounds false P (e + -51) loc_Exact ltac:(lia))
    as (m3 & N & Hm3 & HN & L & U & ->).
  set (k := Z.max dm 51).
  assert (Hk : Z.max 0 (fexp prec emax (Zdigits2 P + (e + -51)) - (e + -51)) <= k).
  { apply shift_amount_le; try lia.
    rewrite HP.
    assert (H1 : 2 ^ (53 + dm) <= 2 ^ (53 + k)) by (apply Z.pow_le_mono_r; lia).
    rewrite (Z.pow_add_r 2 53 dm) in H1 by lia.
    change (2 ^ 53) with 9007199254740992 in H1.
    assert (Zpos m * 4863887597560136 < 2 ^ dm * 4863887597560136)
      by (apply Z.mul_lt_mono_pos_r; lia).
    assert (0 < 2 ^ dm) by (apply Z.pow_pos_nonneg; lia).
    lia. }
  assert (HN' : 0 <= N <= dm + 50) by lia.
  assert (H2N : 2 ^ N <= Zpos m * 2251799813685248).
  { assert (H1 : 2 ^ N <= 2 ^ ((dm - 1) + 51)) by (apply Z.pow_le_mono_r; lia).
    rewrite (Z.pow_add_r 2 (dm - 1) 51) in H1 by lia.
    change (2 ^ 51) with 2251799813685248 in H1. lia. }
  assert (Key : Zpos m * 2251799813685248 < m3 * 2 ^ N) by lia.
  assert (P2N : 0 < 2 ^ N) by (apply Z.pow_pos_nonneg; lia).
  destruct m3 as [| p3 | p3]; try lia.
  destruct (e + -51 + N <=? 971); [|reflexivity].
  intros Hv. cbn [valid_binary] in Hv.
  unfold SFltb. cbn [SFcompare].
  change PosDef.Pos.compare_cont with Pos.compare_cont.
  change (match e ?= e + -51 + N with
          | Eq => Pos.compare_cont Eq m p3
          | Lt => Lt
          | Gt => Gt
          end) with (cmp_fin m e p3 (e + -51 + N)).
  rewrite cmp_fin_value by assumption.
  apply bounded_inv in Hv. destruct Hv as (He3 & _).
  assert (Hlt : Zpos m * 2 ^ (e + 1074) < Zpos p3 * 2 ^ (e + -51 + N + 1074)).
  { set (T := 2 ^ (e + 1074)). set (Q := 2 ^ (e + -51 + N + 1074)).
    assert (HT : 0 < T) by (apply Z.pow_pos_nonneg; lia).
    assert (HQ : Q * 2251799813685248 = 2 ^ N * T).
    { unfold Q, T. change 2251799813685248 with (2 ^ 51).
      rewrite <- !Z.pow_add_r by lia. f_equal. lia. }
    assert (Zpos m * 2251799813685248 * T < Zpos p3 * 2 ^ N * T)
      by (apply Z.mul_lt_mono_pos_r; assumption).
    nia. }
  apply Z.compare_lt_iff in Hlt. rewrite Hlt. reflexivity.
Qed.

(** Two valid numbers compared at a common unit: [m1 * 2 ^ k1] against
    [m2 * 2 ^ k2] when [e1 - k1 = e2 - k2]. *)
Lemma cmp_fin_units (m1 : positive) (e1 : Z) (m2 : positive) (e2 k1 k2 : Z) :
  bounded prec emax m1 e1 = true -> bounded prec emax m2 e2 = true ->
  0 <= k1 -> 0 <= k2 -> e1 - k1 = e2 - k2 ->
  Zpos m1 * 2 ^ k1 < Zpos m2 * 2 ^ k2 ->
  cmp_fin m1 e1 m2 e2 = Lt.
Proof.
  intros H1 H2 Hk1 Hk2 He Hlt.
  rewrite cmp_fin_value by assumption.
  apply bounded_inv in H1. apply bounded_inv in H2.
  apply Z.compare_lt_iff.
  set (A := 2 ^ (e1 + 1074)). set (B := 2 ^ (e2 + 1074)).
  assert (HA : 0 < A) by (apply Z.pow_pos_nonneg; lia).
  assert (HB : 0 < B) by (apply Z.pow_pos_nonneg; lia).
  assert (HK1 : 0 < 2 ^ k1) by (apply Z.pow_pos_nonneg; lia).
  assert (HK2 : 0 < 2 ^ k2) by (apply Z.pow_pos_nonneg; lia).
  assert (HT : A * 2 ^ k2 = B * 2 ^ k1).
  { unfold A, B. rewrite <- !Z.pow_add_r by lia. f_equal. lia. }
  set (T := A * 2 ^ k2) in *.
  assert (HT0 : 0 < T) by (unfold T; apply Z.mul_pos_pos; assumption).
  assert (E1 : Zpos m1 * A * (2 ^ k1 * 2 ^ k2) = Zpos m1 * 2 ^ k1 * T) by (unfold T; ring).
  assert (E2 : Zpos m2 * B * (2 ^ k1 * 2 ^ k2) = Zpos m2 * 2 ^ k2 * T) by (rewrite HT; ring).
  assert (Zpos m1 * 2 ^ k1 * T < Zpos m2 * 2 ^ k2 * T)
    by (apply Z.mul_lt_mono_pos_r; assumption).
  apply (Z.mul_lt_mono_pos_r (2 ^ k1 * 2 ^ k2)); [apply Z.mul_pos_pos; assumption|].
  lia.
Qed.

(** The quotient that [SFdiv] rounds when a valid number is divided by 2.16. *)
Lemma SFdiv_core_216 (m : positive) (e : Z) :
  bounded prec emax m e = true ->
  let e' := Z.max (Zpos (digits2_pos m) + e - 55) (-1074) in
  exists q l,
    SFdiv_core_binary prec emax (Zpos m) e 4863887597560136 (-51) = (q, e', l)
    /\ 0 <= q /\ q * 4863887597560136 <= Zpos m * 2 ^ (e + 51 - e').
Proof.
  intros Hb e'. apply bounded_inv in Hb. destruct Hb as (He & Hd & _).
  unfold SFdiv_core_binary.
  change (Zdigits2 4863887597560136) with 53.
  cbn [Zdigits2]. rewrite fexp_eq.
  replace (Z.min (Z.max (Zpos (digits2_pos m) + e - (53 + -51) - 53) (-1074)) (e - -51))
    with e' by (unfold e'; lia).
  assert (Hs : 0 < e - -51 - e') by (unfold e'; lia).
  destruct (e - -51 - e') as [| s | s] eqn:Es; try lia.
  rewrite Z.shiftl_mul_pow2 by lia.
  pose proof (Z.div_eucl_eq (Zpos m * 2 ^ Zpos s) 4863887597560136 ltac:(lia)) as Hdiv.
  pose proof (Z.mod_pos_bound (Zpos m * 2 ^ Zpos s) 4863887597560136 ltac:(lia)) as Hmod.
  unfold Z.modulo in Hmod.
  destruct (Z.div_eucl (Zpos m * 2 ^ Zpos s) 4863887597560136) as [q r].
  exists q, (new_location 4863887597560136 r).
  replace (e + 51 - e') with (Zpos s) by lia.
  assert (0 < Zpos m * 2 ^ Zpos s) by (apply Z.mul_pos_pos; [lia | apply Z.pow_pos_nonneg; lia]).
  repeat split; lia.
Qed.

Lemma SFdiv_216_lt (m : positive) (e : Z) :
  bounded prec emax m e = true ->
  valid_binary (SFdiv prec emax (S754_finite false m e) SF216) = true ->
  SFltb (SFdiv prec emax (S754_finite false m e) SF216) (S754_finite false m e) = true.
Proof.
  intros Hb Hv.
  pose proof (bounded_inv m e Hb) as (He & Hd53 & Hcan).
  destruct (digits2_pos_bounds m) as [Hlo Hhi].
  set (dm := Zpos (digits2_pos m)) in *.
  assert (Hm53 : Zpos m < 9007199254740992).
  { eapply Z.lt_le_trans; [exact Hhi|].
    change 9007199254740992 with (2 ^ 53). apply Z.pow_le_mono_r; lia. }
  (* the smallest numbers, by evaluation *)
  destruct (Z_le_gt_dec (Zpos m) 4) as [Hsmall | Hbig].
  { assert (e = -1074).
    { destruct Hcan as [|Hc]; [assumption|].
      assert (2 ^ (53 - 1) <= Zpos m) by (rewrite <- Hc; exact Hlo).
      change (2 ^ (53 - 1)) with 4503599627370496 in *. lia. }
    subst e.
    assert (Hcases : m = 1%positive \/ m = 2%positive \/ m = 3%positive \/ m = 4%positive) by lia.
    destruct Hcases as [-> | [-> | [-> | ->]]]; vm_compute; reflexivity. }
  revert Hv. unfold SF216. cbn [SFdiv xorb].
  destruct (SFdiv_core_216 m e Hb) as (q & l & -> & Hq0 & Hq). fold dm in Hq |- *.
  set (e' := Z.max (dm + e - 55) (-1074)) in *.
  assert (He' : -1074 <= e' <= e) by (unfold e'; lia).
  set (U := Zpos m * 2 ^ (e - e')).
  assert (HU : Zpos m * 2 ^ (e + 51 - e') = U * 2251799813685248).
  { unfold U. replace (e + 51 - e') with ((e - e') + 51) by lia.
    rewrite Z.pow_add_r by lia. change (2 ^ 51) with 2251799813685248. ring. }
  rewrite HU in Hq.
  assert (P0 : 0 < 2 ^ (e - e')) by (apply Z.pow_pos_nonneg; lia).
  (* the shift: none below the normal range, one bit at most above *)
  set (k := if Z.eq_dec e (-1074) then 0 else 1).
  assert (Hk01 : 0 <= k <= 1) by (unfold k; destruct (Z.eq_dec e (-1074)); lia).
  assert (HqU : 2 * q <= U) by lia.
  assert (HUk : U < 2 ^ (54 + k) /\ 5 * 2 ^ k <= U).
  { unfold U, k. destruct (Z.eq_dec e (-1074)) as [E | E].
    - assert (e' = -1074) by lia.
      replace (e - e') with 0 by lia. change (2 ^ 0) with 1.
      change (2 ^ (54 + 0)) with 18014398509481984. lia.
    - destruct Hcan as [|Hc]; [lia|]. fold dm in Hc.
      assert (4503599627370496 <= Zpos m).
      { change 4503599627370496 with (2 ^ (53 - 1)). rewrite <- Hc. exact Hlo. }
      assert (He2 : 1 <= e - e' <= 2) by (unfold e'; lia).
      assert (2 ^ 1 <= 2 ^ (e - e') <= 2 ^ 2)
        by (split; apply Z.pow_le_mono_r; lia).
      change (2 ^ 1) with 2 in *. change (2 ^ 2) with 4 in *.
      change (2 ^ (54 + 1)) with 36028797018963968. nia. }
  destruct (binary_round_aux_bounds false q e' l Hq0) as (m3 & N & Hm3 & HN & L & Ub & ->).
  assert (Hn : Z.max 0 (fexp prec emax (Zdigits2 q + e') - e') <= k).
  { apply shift_amount_le; try lia.
    replace (53 + k) with ((54 + k) - 1) by lia.
    assert (2 ^ (54 + k) = 2 * 2 ^ (54 + k - 1)).
    { rewrite <- Z.pow_succ_r by lia. f_equal. lia. }
    lia. }
  assert (HN' : 0 <= N <= k + 1) by lia.
  assert (P2N : 0 < 2 ^ N) by (apply Z.pow_pos_nonneg; lia).
  assert (H2N : 2 ^ N <= 2 * 2 ^ k).
  { rewrite <- Z.pow_succ_r by lia. apply Z.pow_le_mono_r; lia. }
  assert (Key : m3 * 2 ^ N < U) by lia.
  destruct m3 as [| p3 | p3]; try lia; [intros _; reflexivity|].
  assert (Hexp : e' + N <= 971) by (unfold e', k in *; destruct (Z.eq_dec e (-1074)); lia).
  apply Z.leb_le in Hexp. rewrite Hexp.
  intros Hv. cbn [valid_binary] in Hv.
  unfold SFltb. cbn [SFcompare].
  change PosDef.Pos.compare_cont with Pos.compare_cont.
  change (match e' + N ?= e with
          | Eq => Pos.compare_cont Eq p3 m
          | Lt => Lt
          | Gt => Gt
          end) with (cmp_fin p3 (e' + N) m e).
  rewrite (cmp_fin_units p3 (e' + N) m e N (e - e')) by first [assumption | lia].
  reflexivity.
Qed.

(** *** Numbers that are not negative *)

(** [0 <= x]: a zero, a positive finite number or [+infinity]. *)
Definition SFnonneg (x : spec_float) : bool := SFleb (S754_zero false) x.

Lemma SFnonneg_inv (x : spec_float) :
  SFnonneg x = true ->
  (exists s, x = S754_zero s) \/ x = S754_infinity false
  \/ (exists m e, x = S754_finite false m e).
Proof.
  destruct x as [s | [|] | | [|] m e]; cbn; intros H; try discriminate H; eauto.
Qed.

Lemma binary_round_aux_nonneg (mx ex : Z) (lx : location) :
  0 <= mx -> SFnonneg (binary_round_aux prec emax false mx ex lx) = true.
Proof.
  intros Hm.
  destruct (binary_round_aux_bounds false mx ex lx Hm) as (m3 & N & Hm3 & _ & _ & _ & ->).
  destruct m3 as [| p | p]; try lia; [reflexivity|].
  destruct (_ <=? _); reflexivity.
Qed.

Lemma binary_round_nonneg (mx : positive) (ex : Z) :
  SFnonneg (binary_round prec emax false mx ex) = true.
Proof.
  unfold binary_round. destruct (shl_align mx ex _) as [mz ez].
  apply binary_round_aux_nonneg. lia.
Qed.

Lemma SFmul_216_nonneg (x : spec_float) :
  SFnonneg x = true -> SFnonneg (SFmul prec emax x SF216) = true.
Proof.
  intros H. destruct (SFnonneg_inv x H) as [[s ->] | [-> | (m & e & ->)]].
  - reflexivity.
  - reflexivity.
  - cbn [SFmul SF216 xorb]. apply binary_round_aux_nonneg. lia.
Qed.

Lemma SFdiv_core_nonneg (m1 : positive) (e1 : Z) (m2 : positive) (e2 : Z) :
  0 <= fst (fst (SFdiv_core_binary prec emax (Zpos m1) e1 (Zpos m2) e2)).
Proof.
  unfold SFdiv_core_binary.
  set (s := e1 - e2 - _).
  set (m' := match s with Z0 => Zpos m1 | Zpos _ => Z.shiftl (Zpos m1) s | Zneg _ => 0 end).
  assert (Hm' : 0 <= m').
  { unfold m'. destruct s; try lia. apply Z.shiftl_nonneg. lia. }
  pose proof (Z.div_pos m' (Zpos m2) Hm' ltac:(lia)) as Hq.
  unfold Z.div in Hq.
  destruct (Z.div_eucl m' (Zpos m2)) as [q r]. exact Hq.
Qed.

Lemma SFdiv_nonneg (x : spec_float) (m2 : positive) (e2 : Z) :
  SFnonneg x = true ->
  SFnonneg (SFdiv prec emax x (S754_finite false m2 e2)) = true.
Proof.
  intros H. destruct (SFnonneg_inv x H) as [[s ->] | [-> | (m & e & ->)]].
  - reflexivity.
  - reflexivity.
  - cbn [SFdiv xorb].
    pose proof (SFdiv_core_nonneg m e m2 e2) as Hq.
    destruct (SFdiv_core_binary prec emax (Zpos m) e (Zpos m2) e2) as [[q e'] l].
    apply binary_round_aux_nonneg. exact Hq.
Qed.

Lemma SFadd_nonneg (x y : spec_float) :
  SFnonneg x = true -> SFnonneg y = true -> SFnonneg (SFadd prec emax x y) = true.
Proof.
  intros Hx Hy.
  destruct (SFnonneg_inv x Hx) as [[sx ->] | [-> | (mx & ex & ->)]];
    destruct (SFnonneg_inv y Hy) as [[sy ->] | [-> | (my & ey & ->)]];
    try reflexivity; try (destruct sx; reflexivity);
    try (destruct sx, sy; reflexivity).
  cbn [SFadd cond_Zopp].
  set (X := fst (shl_align mx ex (Z.min ex ey))).
  set (Y := fst (shl_align my ey (Z.min ex ey))).
  change (Zpos X + Zpos Y) with (Zpos (X + Y)).
  cbn [binary_normalize]. apply binary_round_nonneg.
Qed.

Lemma shl_align_min (mx : positive) (ex ez : Z) :
  Zpos (fst (shl_align mx ex ez)) = Zpos mx * 2 ^ (ex - Z.min ex ez)
  /\ snd (shl_align mx ex ez) = Z.min ex ez.
Proof.
  destruct (Z_le_gt_dec ez ex) as [Hle | Hgt].
  - rewrite Z.min_r by lia. now apply shl_align_value.
  - rewrite Z.min_l by lia. unfold shl_align.
    destruct (ez - ex) as [| d | d] eqn:E; cbn [fst snd]; try lia;
      replace (ex - ex) with 0 by lia; cbn; lia.
Qed.

(** A count between 1 and 2^53 is a positive finite double. *)
Lemma binary_normalize_count (z : Z) :
  0 < z <= 9007199254740992 ->
  exists m e, binary_normalize prec emax z 0 false = S754_finite false m e.
Proof.
  intros Hz. destruct z as [| p | p]; try lia. cbn [binary_normalize].
  destruct (binary_round_pos false p 0 ltac:(lia)) as [Hfin | Hinf]; [exact Hfin|].
  exfalso. revert Hinf. unfold binary_round.
  destruct (shl_align_min p 0 (fexp prec emax (Zpos (digits2_pos p) + 0))) as [Hv He].
  destruct (shl_align p 0 _) as [mz ez]. cbn [fst snd] in Hv, He.
  rewrite fexp_eq in Hv, He.
  pose proof (Pos2Z.is_pos (digits2_pos p)) as Hd.
  assert (Hez : -52 <= ez <= 0) by lia.
  assert (Hmz : Zpos mz < 2 ^ (53 + 60)).
  { rewrite Hv, <- He.
    assert (2 ^ (0 - ez) <= 2 ^ 52) by (apply Z.pow_le_mono_r; lia).
    assert (0 < 2 ^ (0 - ez)) by (apply Z.pow_pos_nonneg; lia).
    assert (Zpos p * 2 ^ (0 - ez) <= 9007199254740992 * 2 ^ (0 - ez))
      by (apply Z.mul_le_mono_nonneg_r; lia).
    change (2 ^ 52) with 4503599627370496 in *.
    change (2 ^ (53 + 60)) with 10384593717069655257060992658440192. lia. }
  destruct (binary_round_aux_bounds false (Zpos mz) ez loc_Exact ltac:(lia))
    as (m3 & N & Hm3 & HN & L & U & ->).
  pose proof (shift_amount_le (Zpos mz) ez 60 ltac:(lia) ltac:(lia) Hmz ltac:(lia)) as Hn.
  destruct m3 as [| p3 | p3]; try discriminate.
  destruct (Z.leb_spec (ez + N) 971); [discriminate | lia].
Qed.


(** *** A factor between 0 and 1 *)

(** The double of the literal [1]. *)
Definition SFone64 : spec_float := S754_finite false 4503599627370496 (-52).

(** Multiplying by a factor between 0 and 1 does not make a number that is
    not negative larger. *)
Lemma SFmul_factor_le (u t : spec_float) :
  valid_binary u = true -> valid_binary t = true ->
  SFnonneg u = true -> SFleb u SFone64 = true -> SFnonneg t = true ->
  SFmul prec emax u t <> S754_nan ->
  valid_binary (SFmul prec emax u t) = true ->
  SFleb (SFmul prec emax u t) t = true.
Proof.
  intros Vu Vt Hu Hu1 Ht.
  destruct (SFnonneg_inv u Hu) as [[su ->] | [-> | (mu & eu & ->)]];
    destruct (SFnonneg_inv t Ht) as [[st ->] | [-> | (mt & et & ->)]];
    cbn [SFmul xorb]; try congruence; try discriminate Hu1;
    try (intros _ _; destruct su; reflexivity);
    try (intros _ _; destruct st; reflexivity);
    try (intros _ _; reflexivity).
  cbn [valid_binary] in Vu, Vt.
  intros _ Hv.
  rewrite SFleb_ord in Hu1 by (assumption || discriminate || reflexivity).
  cbn [SFord SFone64] in Hu1. apply Z.leb_le in Hu1.
  change (4503599627370496 * 2 ^ (-52 + 1074)) with (2 ^ 1074) in Hu1.
  pose proof (bounded_inv mu eu Vu) as (Heu & _).
  assert (Heu0 : eu <= 0).
  { destruct (Z_le_gt_dec eu 0); [assumption|].
    assert (2 ^ 1075 <= 2 ^ (eu + 1074)) by (apply Z.pow_le_mono_r; lia).
    assert (1 * 2 ^ (eu + 1074) <= Zpos mu * 2 ^ (eu + 1074))
      by (apply Z.mul_le_mono_nonneg_r; [apply Z.pow_nonneg|]; lia).
    assert (2 ^ 1074 < 2 ^ 1075) by (apply Z.pow_lt_mono_r; lia).
    lia. }
  assert (Hmu : Zpos mu <= 2 ^ (- eu)).
  { assert (Hsplit : 2 ^ 1074 = 2 ^ (- eu) * 2 ^ (eu + 1074)).
    { rewrite <- Z.pow_add_r by lia. f_equal. lia. }
    rewrite Hsplit in Hu1.
    apply Z.mul_le_mono_pos_r in Hu1; [exact Hu1 | apply Z.pow_pos_nonneg; lia]. }
  apply binary_round_aux_below; try assumption; try lia.
  replace (et - (eu + et)) with (- eu) by lia.
  rewrite Pos2Z.inj_mul, Z.mul_comm.
  apply Z.mul_le_mono_nonneg_l; lia.
Qed.

(** *** Facts on primitive floats *)

Local Open Scope float_scope.

Lemma is_nan_Prim2SF (x : float) : is_nan x = false -> Prim2SF x <> S754_nan.
Proof.
  unfold is_nan. rewrite FloatAxioms.eqb_spec. intros H E. rewrite E in H. discriminate H.
Qed.

(** [x - y] is positive exactly when [y < x], for numbers. *)
Lemma sub_pos_ltb (x y : float) :
  is_nan x = false -> is_nan y = false -> (0 <? x - y) = (y <? x).
Proof.
  intros Hx Hy. rewrite !FloatAxioms.ltb_spec, FloatAxioms.sub_spec.
  change (Prim2SF 0) with (S754_zero false).
  apply SFsub_sign; auto using Prim2SF_valid, is_nan_Prim2SF.
Qed.

Lemma ltb_leb_false (x y : float) : (x <? y) = true -> (y <=? x) = false.
Proof.
  rewrite FloatAxioms.ltb_spec, FloatAxioms.leb_spec. unfold SFltb, SFleb.
  rewrite (SFcompare_antisym (Prim2SF x) (Prim2SF y)).
  destruct (SFcompare (Prim2SF x) (Prim2SF y)) as [[| |]|]; cbn; congruence.
Qed.

Lemma ltb_leb (x y : float) : (x <? y) = true -> (x <=? y) = true.
Proof.
  rewrite FloatAxioms.ltb_spec, FloatAxioms.leb_spec. unfold SFltb, SFleb.
  destruct (SFcompare (Prim2SF x) (Prim2SF y)) as [[| |]|]; congruence.
Qed.

(** Numbers are totally ordered. *)
Lemma leb_false_ltb (x y : float) :
  is_nan x = false -> is_nan y = false -> (x <=? y) = false -> (y <? x) = true.
Proof.
  intros Hx Hy. rewrite FloatAxioms.ltb_spec, FloatAxioms.leb_spec. unfold SFltb, SFleb.
  rewrite (SFcompare_antisym (Prim2SF x) (Prim2SF y)).
  pose proof (SFcompare_not_nan _ _ (is_nan_Prim2SF x Hx) (is_nan_Prim2SF y Hy)) as Hn.
  destruct (SFcompare (Prim2SF x) (Prim2SF y)) as [[| |]|]; cbn; congruence.
Qed.

Lemma Prim2SF_216 : Prim2SF 2.16 = SF216.
Proof. reflexivity. Qed.

(** A number above zero and below [infinity] is a positive finite one. *)
Lemma pos_finite_inv (w : float) :
  (0 <? w) = true -> (w <? infinity) = true ->
  exists m e, Prim2SF w = S754_finite false m e.
Proof.
  rewrite !FloatAxioms.ltb_spec.
  change (Prim2SF 0) with (S754_zero false).
  change (Prim2SF infinity) with (S754_infinity false).
  destruct (Prim2SF w) as [s | [|] | | [|] m e]; cbn; intros H1 H2;
    try discriminate; eauto.
Qed.

(** Multiplying a positive finite weight by 2.16 makes it larger. *)
Lemma mul_216_gt (w : float) :
  (0 <? w) = true -> (w <? infinity) = true -> (w <? w * 2.16) = true.
Proof.
  intros H0 Hinf. destruct (pos_finite_inv w H0 Hinf) as (m & e & E).
  pose proof (Prim2SF_valid w) as Vw. rewrite E in Vw.
  pose proof (Prim2SF_valid (w * 2.16)) as Vp.
  rewrite FloatAxioms.ltb_spec. rewrite FloatAxioms.mul_spec in Vp |- *.
  rewrite Prim2SF_216, E in Vp |- *.
  apply SFmul_216_gt; assumption.
Qed.

(** Dividing a positive finite weight by 2.16 makes it smaller. *)
Lemma div_216_lt (w : float) :
  (0 <? w) = true -> (w <? infinity) = true -> (w / 2.16 <? w) = true.
Proof.
  intros H0 Hinf. destruct (pos_finite_inv w H0 Hinf) as (m & e & E).
  pose proof (Prim2SF_valid w) as Vw. rewrite E in Vw.
  pose proof (Prim2SF_valid (w / 2.16)) as Vp.
  rewrite FloatAxioms.ltb_spec. rewrite FloatAxioms.div_spec in Vp |- *.
  rewrite Prim2SF_216, E in Vp |- *.
  apply SFdiv_216_lt; assumption.
Qed.

Lemma leb_zero_SFnonneg (x : float) : (0 <=? x) = SFnonneg (Prim2SF x).
Proof. rewrite FloatAxioms.leb_spec. reflexivity. Qed.

Lemma nonneg_not_nan (x : float) : (0 <=? x) = true -> is_nan x = false.
Proof.
  rewrite leb_zero_SFnonneg. unfold is_nan. rewrite FloatAxioms.eqb_spec.
  intros H. pose proof (Prim2SF_valid x) as V.
  destruct (SFnonneg_inv _ H) as [[s E] | [E | (m & e & E)]]; rewrite E in *; cbn.
  - reflexivity.
  - reflexivity.
  - unfold SFeqb. cbn [SFcompare]. rewrite Z.compare_refl.
    change PosDef.Pos.compare_cont with Pos.compare_cont.
    rewrite Pos.compare_cont_refl. reflexivity.
Qed.

Lemma mul_216_nonneg (w : float) : (0 <=? w) = true -> (0 <=? w * 2.16) = true.
Proof.
  rewrite !leb_zero_SFnonneg, FloatAxioms.mul_spec, Prim2SF_216. apply SFmul_216_nonneg.
Qed.

Lemma div_216_nonneg (w : float) : (0 <=? w) = true -> (0 <=? w / 2.16) = true.
Proof.
  rewrite !leb_zero_SFnonneg, FloatAxioms.div_spec, Prim2SF_216. apply SFdiv_nonneg.
Qed.

Lemma add_nonneg (x y : float) :
  (0 <=? x) = true -> (0 <=? y) = true -> (0 <=? x + y) = true.
Proof.
  rewrite !leb_zero_SFnonneg, FloatAxioms.add_spec. apply SFadd_nonneg.
Qed.

Lemma leb_ord (x y : float) :
  (x <=? y) = true <->
  is_nan x = false /\ is_nan y = false /\ SFord (Prim2SF x) <= SFord (Prim2SF y).
Proof.
  rewrite FloatAxioms.leb_spec. unfold SFleb. split.
  - intros H.
    assert (Nx : is_nan x = false).
    { unfold is_nan. rewrite FloatAxioms.eqb_spec.
      destruct (Prim2SF x) as [sx | sx | | sx mx ex] eqn:E; cbn in H |- *;
        try discriminate H; try reflexivity.
      - destruct sx; reflexivity.
      - unfold SFeqb. cbn [SFcompare]. rewrite Z.compare_refl.
        change PosDef.Pos.compare_cont with Pos.compare_cont.
        rewrite Pos.compare_cont_refl. destruct sx; reflexivity. }
    assert (Ny : is_nan y = false).
    { unfold is_nan. rewrite FloatAxioms.eqb_spec.
      destruct (Prim2SF y) as [sy | sy | | sy my ey] eqn:E;
        try reflexivity.
      - destruct sy; reflexivity.
      - exfalso. destruct (Prim2SF x) as [| [|] | |]; cbn in H; discriminate H.
      - unfold SFeqb. cbn [SFcompare]. rewrite Z.compare_refl.
        change PosDef.Pos.compare_cont with Pos.compare_cont.
        rewrite Pos.compare_cont_refl. destruct sy; reflexivity. }
    split; [exact Nx|]. split; [exact Ny|].
    rewrite SFcompare_ord in H by auto using Prim2SF_valid, is_nan_Prim2SF.
    destruct (Z.compare_spec (SFord (Prim2SF x)) (SFord (Prim2SF y)));
      try discriminate H; lia.
  - intros (Nx & Ny & Hle).
    rewrite SFcompare_ord by auto using Prim2SF_valid, is_nan_Prim2SF.
    destruct (Z.compare_spec (SFord (Prim2SF x)) (SFord (Prim2SF y)));
      try reflexivity; lia.
Qed.

(** [<=] is transitive. *)
Lemma leb_trans (x y z : float) :
  (x <=? y) = true -> (y <=? z) = true -> (x <=? z) = true.
Proof.
  rewrite !leb_ord. intros (Nx & Ny & H1) (_ & Nz & H2). repeat split; auto. lia.
Qed.

Lemma SFcompare_refl (x : spec_float) : x <> S754_nan -> SFcompare x x = Some Eq.
Proof.
  destruct x as [s | s | | s m e]; try congruence; intros _; cbn [SFcompare].
  - reflexivity.
  - destruct s; reflexivity.
  - rewrite Z.compare_refl.
    change PosDef.Pos.compare_cont with Pos.compare_cont.
    rewrite Pos.compare_cont_refl. destruct s; reflexivity.
Qed.

Lemma is_nan_true_Prim2SF (x : float) : is_nan x = true -> Prim2SF x = S754_nan.
Proof.
  unfold is_nan. rewrite FloatAxioms.eqb_spec. unfold SFeqb. intros H.
  destruct (Prim2SF x) as [s | s | | s m e] eqn:E; try reflexivity;
    rewrite SFcompare_refl in H by discriminate; discriminate H.
Qed.

(** A product with a factor between 0 and 1 that is a number is at most the
    other factor, when that is not negative. *)
Lemma mul_factor_le (u t : float) :
  (0 <=? u) = true -> (u <=? 1) = true -> (0 <=? t) = true ->
  is_nan (u * t) = false -> (u * t <=? t) = true.
Proof.
  intros Hu Hu1 Ht Hn.
  rewrite leb_zero_SFnonneg in Hu, Ht.
  rewrite FloatAxioms.leb_spec in Hu1 |- *.
  pose proof (is_nan_Prim2SF _ Hn) as Hn'.
  pose proof (Prim2SF_valid (u * t)) as Hv.
  rewrite FloatAxioms.mul_spec in Hn', Hv |- *.
  apply SFmul_factor_le; auto using Prim2SF_valid.
Qed.

(** Such a product is [NaN] only as zero times [infinity]. *)
Lemma mul_factor_nan (u t : float) :
  (0 <=? u) = true -> (u <=? 1) = true -> (0 <=? t) = true ->
  is_nan (u * t) = true -> (u =? 0) = true /\ t = infinity.
Proof.
  intros Hu Hu1 Ht Hn.
  rewrite leb_zero_SFnonneg in Hu, Ht.
  rewrite FloatAxioms.leb_spec in Hu1.
  apply is_nan_true_Prim2SF in Hn. rewrite FloatAxioms.mul_spec in Hn.
  rewrite FloatAxioms.eqb_spec.
  change (Prim2SF 1) with SFone64 in Hu1. change (Prim2SF 0) with (S754_zero false).
  destruct (SFnonneg_inv _ Hu) as [[su Eu] | [Eu | (mu & eu & Eu)]];
    destruct (SFnonneg_inv _ Ht) as [[st Et] | [Et | (mt & et & Et)]];
    rewrite Eu, Et in *; cbn [SFmul xorb] in Hn; try discriminate Hn;
    try discriminate Hu1.
  - split; [destruct su; reflexivity|]. apply Prim2SF_inj. rewrite Et. reflexivity.
  - exfalso. pose proof (binary_round_aux_nonneg (Zpos (mu * mt)) (eu + et) loc_Exact
                           ltac:(lia)) as H.
    unfold SF64mul in Hn. cbn [SFmul xorb] in Hn. rewrite Hn in H. discriminate H.
Qed.

End FloatFacts.

(** * The engine *)

Local Open Scope float_scope.

(** ** The pool under selection, start and assessment *)

Lemma selectNextWord_wordList (u : float) (s : AppState) :
  wordList (selectNextWord u s) = wordList s.
Proof.
  unfold selectNextWord.
  destruct (Nat.eqb _ 0); [reflexivity|].
  destruct (walk _ _ _); [reflexivity|].
  destruct (Nat.ltb _ _); reflexivity.
Qed.

Lemma startLearning_wordList (u : float) (s : AppState) :
  wordList (startLearning u s) = wordList s.
Proof.
  unfold startLearning. destruct (Nat.eqb _ 0); [reflexivity|].
  rewrite selectNextWord_wordList. reflexivity.
Qed.

Lemma updateWordWeight_wordList
    (action : Action) (u : float) (s : AppState) (i : nat) :
  currentWord s = Some i ->
  wordList (updateWordWeight action u s) = alter (assess action) i (wordList s).
Proof.
  intros Hc. unfold updateWordWeight. rewrite Hc.
  rewrite selectNextWord_wordList. reflexivity.
Qed.

(** ** Eligible words *)

Lemma elem_of_indexed (l : list WordWithWeight) (i : nat) (w : WordWithWeight) :
  In (i, w) (indexed l) <-> l !! i = Some w.
Proof.
  unfold indexed. rewrite <- list_elem_of_In, elem_of_lookup_imap.
  split.
  - intros (j & x & E & H). inversion E; subst. exact H.
  - intros H. exists i, w. auto.
Qed.

Lemma eligibleWords_In (l : list WordWithWeight) (i : nat) (w : WordWithWeight) :
  In (i, w) (eligibleWords l) <-> l !! i = Some w /\ (0.1 <=? weight w) = true.
Proof.
  unfold eligibleWords. rewrite filter_In, elem_of_indexed. reflexivity.
Qed.

Lemma eligibleWords_lookup (l : list WordWithWeight) (k : nat) (iw : nat * WordWithWeight) :
  eligibleWords l !! k = Some iw ->
  l !! (fst iw) = Some (snd iw) /\ (0.1 <=? weight (snd iw)) = true.
Proof.
  intros H. apply eligibleWords_In. destruct iw as [i w]. cbn [fst snd].
  apply list_elem_of_In. eapply list_elem_of_lookup_2. exact H.
Qed.

(** The total weight of the eligible words is a number that is not negative. *)
Lemma totalWeightOf_nonneg (l : list WordWithWeight) :
  (0 <=? totalWeightOf (eligibleWords l)) = true.
Proof.
  assert (Hall : Forall (fun iw => (0 <=? weight (snd iw)) = true) (eligibleWords l)).
  { apply Forall_forall. intros [i w] Hin.
    apply list_elem_of_In, eligibleWords_In in Hin. destruct Hin as [_ Hw].
    cbn [snd]. apply (FloatFacts.leb_trans 0 0.1 (weight w)); [reflexivity | exact Hw]. }
  unfold totalWeightOf.
  assert (Hfold : forall ws c, (0 <=? c) = true ->
            Forall (fun iw : nat * WordWithWeight => (0 <=? weight (snd iw)) = true) ws ->
            (0 <=? fold_left (fun sum w => sum + weight (snd w)) ws c) = true).
  { induction ws as [| w ws IH]; intros c Hc Hws; [exact Hc|].
    apply Forall_cons in Hws. destruct Hws as [Hw Hws]. cbn [fold_left].
    apply IH; [|exact Hws]. now apply FloatFacts.add_nonneg. }
  apply Hfold; [reflexivity | exact Hall].
Qed.

(** ** The walk *)

(** [cumulativeWeight] after the loop has added the entries at positions
    [0 .. k] of [ws]. *)
Definition cumulativeWeightAt (ws : list (nat * WordWithWeight)) (k : nat) : float :=
  totalWeightOf (take (S k) ws).

(** The loop returns the first entry whose running sum reaches [random], and
    nothing when no running sum does. *)
Lemma walk_from (random : float) (ws : list (nat * WordWithWeight)) : forall c : float,
  match walk random c ws with
  | Some w =>
      exists k, ws !! k = Some w
        /\ (random <=? fold_left (fun sum w => sum + weight (snd w)) (take (S k) ws) c) = true
        /\ forall j, (j < k)%nat ->
             (random <=? fold_left (fun sum w => sum + weight (snd w)) (take (S j) ws) c) = false
  | None =>
      forall j, (j < length ws)%nat ->
        (random <=? fold_left (fun sum w => sum + weight (snd w)) (take (S j) ws) c) = false
  end.
Proof.
  induction ws as [| w rest IH]; intros c; cbn [walk].
  - cbn. intros j Hj. lia.
  - destruct (random <=? c + weight (snd w)) eqn:E.
    + exists 0%nat. cbn. split; [reflexivity|]. split; [exact E|]. intros j Hj. lia.
    + specialize (IH (c + weight (snd w))).
      destruct (walk random (c + weight (snd w)) rest) as [w'|].
      * destruct IH as (k & Hk & Hle & Hlt). exists (S k). cbn.
        split; [exact Hk|]. split; [exact Hle|].
        intros [| j] Hj; [exact E|]. apply Hlt. lia.
      * intros [| j] Hj; [exact E|]. cbn. apply IH. cbn in Hj. lia.
Qed.

Lemma walk_spec (random : float) (ws : list (nat * WordWithWeight)) :
  match walk random 0 ws with
  | Some w =>
      exists k, ws !! k = Some w
        /\ (random <=? cumulativeWeightAt ws k) = true
        /\ forall j, (j < k)%nat -> (random <=? cumulativeWeightAt ws j) = false
  | None =>
      forall j, (j < length ws)%nat -> (random <=? cumulativeWeightAt ws j) = false
  end.
Proof. exact (walk_from random ws 0). Qed.

(** When [random] is at most the total, the loop selects a word. *)
Lemma walk_total (random : float) (ws : list (nat * WordWithWeight)) :
  ws <> [] -> (random <=? totalWeightOf ws) = true -> is_Some (walk random 0 ws).
Proof.
  intros Hne Hle. pose proof (walk_spec random ws) as H.
  destruct (walk random 0 ws) as [w|]; [eauto|].
  exfalso. destruct ws as [| w rest]; [congruence|].
  specialize (H (length rest) ltac:(cbn; lia)).
  unfold cumulativeWeightAt in H.
  rewrite take_ge in H by (cbn; lia). congruence.
Qed.

(** With [Math.random()] between 0 and 1, the loop selects nothing only
    when the product [random] is [NaN]: [Math.random()] returned 0 and the
    total weight is [infinity]. *)
Lemma walk_nothing (u : float) (l : list WordWithWeight) :
  (0 <=? u) = true -> (u <=? 1) = true ->
  eligibleWords l <> [] ->
  walk (u * totalWeightOf (eligibleWords l)) 0 (eligibleWords l) = None ->
  (u =? 0) = true /\ totalWeightOf (eligibleWords l) = infinity.
Proof.
  intros Hu Hu1 Hne Hwalk.
  pose proof (totalWeightOf_nonneg l) as Ht.
  destruct (is_nan (u * totalWeightOf (eligibleWords l))) eqn:Hn.
  - now apply FloatFacts.mul_factor_nan.
  - exfalso.
    pose proof (FloatFacts.mul_factor_le _ _ Hu Hu1 Ht Hn) as Hle.
    destruct (walk_total _ _ Hne Hle) as [w Hw]. congruence.
Qed.

(** ** Selection *)

(** What [selectNextWord] does when some word is eligible. *)
Lemma selectNextWord_eligible (u : float) (s : AppState) :
  eligibleWords (wordList s) <> [] ->
  exists k w,
    eligibleWords (wordList s) !! k = Some w
    /\ selectNextWord u s = set_isCardFlipped false (set_currentWord (Some (fst w)) s)
    /\ (let random := u * totalWeightOf (eligibleWords (wordList s)) in
        (random <=? cumulativeWeightAt (eligibleWords (wordList s)) k) = true
        /\ (forall j, (j < k)%nat ->
              (random <=? cumulativeWeightAt (eligibleWords (wordList s)) j) = false)
        \/ k = 0%nat
           /\ walk random 0 (eligibleWords (wordList s)) = None
           /\ (forall j, (j < length (eligibleWords (wordList s)))%nat ->
                 (random <=? cumulativeWeightAt (eligibleWords (wordList s)) j) = false)).
Proof.
  intros Hne. unfold selectNextWord.
  set (eligible := eligibleWords (wordList s)) in *.
  destruct eligible as [| first rest] eqn:E; [congruence|].
  cbn [length Nat.eqb].
  set (random := u * _).
  pose proof (walk_spec random (first :: rest)) as H.
  destruct (walk random 0 (first :: rest)) as [w|].
  - destruct H as (k & Hk & Hle & Hlt). exists k, w. auto.
  - exists 0%nat, first. cbn [Nat.ltb Nat.leb head fmap option_fmap option_map].
    split; [reflexivity|]. split; [reflexivity|]. right. auto.
Qed.

(** What [selectNextWord] does when no word is eligible. *)
Lemma selectNextWord_finished (u : float) (s : AppState) :
  eligibleWords (wordList s) = [] -> selectNextWord u s = endLearning s.
Proof. intros E. unfold selectNextWord. rewrite E. reflexivity. Qed.

(** C1, as the code has it.  When some word is eligible, [selectNextWord]
    takes [random = Math.random() * total] and walks the eligible words in
    pool order: the current word becomes the first one whose running sum of
    weights is at least [random]; when no running sum is, it becomes the
    first eligible word (with [Math.random()] between 0 and 1 this happens
    only when it returned 0 and the total is [infinity], so that [random] is
    [NaN]).  Either way the current word is set, to an entry of the pool
    whose weight is at least 0.1, and the card is turned face down. *)
Theorem selectNextWord_sets_current (u : float) (s : AppState) :
  eligibleWords (wordList s) <> [] ->
  let eligible := eligibleWords (wordList s) in
  let random := u * totalWeightOf eligible in
  exists k w,
    eligible !! k = Some w
    /\ currentWord (selectNextWord u s) = Some (fst w)
    /\ wordList (selectNextWord u s) !! fst w = Some (snd w)
    /\ (0.1 <=? weight (snd w)) = true
    /\ isCardFlipped (selectNextWord u s) = false
    /\ ((random <=? cumulativeWeightAt eligible k) = true
        /\ (forall j, (j < k)%nat -> (random <=? cumulativeWeightAt eligible j) = false)
        \/ k = 0%nat
           /\ (forall j, (j < length eligible)%nat ->
                 (random <=? cumulativeWeightAt eligible j) = false)
           /\ ((0 <=? u) = true -> (u <=? 1) = true ->
               (u =? 0) = true /\ totalWeightOf eligible = infinity)).
Proof.
  intros Hne eligible random.
  destruct (selectNextWord_eligible u s Hne) as (k & w & Hk & E & Hwalk).
  exists k, w. rewrite E.
  cbn [currentWord wordList isCardFlipped set_isCardFlipped set_currentWord].
  destruct (eligibleWords_lookup _ _ _ Hk) as [Hw Hel].
  split_and!; try assumption; try reflexivity.
  destruct Hwalk as [Hfirst | (Hk0 & Hnone & Hall)]; [left; exact Hfirst|].
  right. split_and!; try assumption.
  intros Hu Hu1. now apply walk_nothing.
Qed.

Lemma selectNextWord_sets_current_witness :
  exists k w,
    eligibleWords (wordList twoWords) !! k = Some w
    /\ currentWord (selectNextWord 0.75 twoWords) = Some (fst w)
    /\ wordList (selectNextWord 0.75 twoWords) !! fst w = Some (snd w)
    /\ (0.1 <=? weight (snd w)) = true
    /\ isCardFlipped (selectNextWord 0.75 twoWords) = false
    /\ ((0.75 * totalWeightOf (eligibleWords (wordList twoWords))
         <=? cumulativeWeightAt (eligibleWords (wordList twoWords)) k) = true
        /\ (forall j, (j < k)%nat ->
              (0.75 * totalWeightOf (eligibleWords (wordList twoWords))
               <=? cumulativeWeightAt (eligibleWords (wordList twoWords)) j) = false)
        \/ k = 0%nat
           /\ (forall j, (j < length (eligibleWords (wordList twoWords)))%nat ->
                 (0.75 * totalWeightOf (eligibleWords (wordList twoWords))
                  <=? cumulativeWeightAt (eligibleWords (wordList twoWords)) j) = false)
           /\ ((0 <=? 0.75) = true -> (0.75 <=? 1) = true ->
               (0.75 =? 0) = true
               /\ totalWeightOf (eligibleWords (wordList twoWords)) = infinity)).
Proof.
  apply (selectNextWord_sets_current 0.75 twoWords).
  vm_compute. discriminate.
Defined.

(** With two words of weight 1, a draw of 0.75 selects the second. *)
Example selectNextWord_second_word :
  currentWord (selectNextWord 0.75 twoWords) = Some 1%nat.
Proof. reflexivity. Qed.

(** C1, against the spec's fallback.  On [drilled] the weights are
    [infinity] and 1, [Math.random()] returning 0 makes [random] a [NaN], the
    loop selects nothing, and the current word becomes the first eligible
    word ([apple], position 0), not the last one ([pear], position 1). *)
Lemma selectNextWord_fallback_is_first :
  map weight (wordList drilled) = [infinity; 1]
  /\ walk (0 * totalWeightOf (eligibleWords (wordList drilled)))
       0 (eligibleWords (wordList drilled)) = None
  /\ fst <$> last (eligibleWords (wordList drilled)) = Some 1%nat
  /\ selectNextWord 0 drilled
     = set_isCardFlipped false (set_currentWord (Some 0%nat) drilled).
Proof. vm_compute. repeat split; reflexivity. Qed.

(** ** Selection does not touch the pool *)

(** C10.  [selectNextWord] leaves the pool as it is (the same entries in the
    same order, each with its weight, count and sum), and the input and
    message refs too.  When some word is eligible it changes the current word
    and turns the card face down, nothing else; when none is, it is
    [endLearning], the move to the result view: the view changes and the
    results derived from the unchanged pool are stored with it, while the
    current word and the card stay. *)
Theorem selectNextWord_frame (u : float) (s : AppState) :
  wordList (selectNextWord u s) = wordList s
  /\ jsonInput (selectNextWord u s) = jsonInput s
  /\ errorMessage (selectNextWord u s) = errorMessage s
  /\ successMessage (selectNextWord u s) = successMessage s
  /\ (eligibleWords (wordList s) <> [] ->
      exists i, selectNextWord u s = set_isCardFlipped false (set_currentWord (Some i) s)
                /\ is_Some (wordList s !! i))
  /\ (eligibleWords (wordList s) = [] ->
      selectNextWord u s = endLearning s
      /\ currentView (selectNextWord u s) = result
      /\ currentWord (selectNextWord u s) = currentWord s
      /\ isCardFlipped (selectNextWord u s) = isCardFlipped s).
Proof.
  destruct (eligibleWords (wordList s)) as [| first rest] eqn:E.
  - rewrite (selectNextWord_finished u s E).
    split_and!; try reflexivity.
    + intros Hne. exfalso. apply Hne. reflexivity.
    + intros _. split_and!; reflexivity.
  - assert (Hne : eligibleWords (wordList s) <> []) by congruence.
    destruct (selectNextWord_eligible u s Hne) as (k & w & Hk & Es & _).
    rewrite Es. split_and!; try reflexivity; [|intros Hnil; discriminate Hnil].
    intros _. exists (fst w). split; [reflexivity|].
    rewrite E in Hk. rewrite <- E in Hk.
    destruct (eligibleWords_lookup _ _ _ Hk) as [Hw _]. eauto.
Qed.

(** The sixth "known" answer of the sample session: once the current word is
    assessed no word is eligible, and the selection ends the session with
    the results of the two words. *)
Example selectNextWord_ends_session :
  updateWordWeight known 0.2 fiveAnswers = selectNextWord 0.2 sixthAssessed
  /\ eligibleWords (wordList sixthAssessed) = []
  /\ currentView sixthAssessed = learning
  /\ currentView (selectNextWord 0.2 sixthAssessed) = result
  /\ map r_word (learningResults (selectNextWord 0.2 sixthAssessed))
     = [Some "apple"%string; Some "pear"%string]
  /\ wordList (selectNextWord 0.2 sixthAssessed) = wordList sixthAssessed.
Proof. vm_compute. repeat split; reflexivity. Qed.

(** ** The eligibility threshold *)

(** C4.  An entry of the pool is among the eligible words exactly when its
    weight is at least 0.1: at weight 0.1 it is, and at any weight below 0.1
    it is not, and then a call of [selectNextWord] that leaves it as the
    current word has found no eligible word at all. *)
Theorem eligible_iff_weight_at_least_threshold
    (u : float) (s : AppState) (i : nat) (w : WordWithWeight) :
  wordList s !! i = Some w ->
  (In (i, w) (eligibleWords (wordList s)) <-> (0.1 <=? weight w) = true)
  /\ (weight w = 0.1 -> In (i, w) (eligibleWords (wordList s)))
  /\ ((weight w <? 0.1) = true ->
      ~ In (i, w) (eligibleWords (wordList s))
      /\ (currentWord (selectNextWord u s) = Some i ->
          eligibleWords (wordList s) = [])).
Proof.
  intros Hw. rewrite eligibleWords_In. split; [tauto|]. split.
  - intros ->. split; [exact Hw | reflexivity].
  - intros Hlt. apply FloatFacts.ltb_leb_false in Hlt. split.
    + intros [_ H]. congruence.
    + intros Hcur.
      destruct (eligibleWords (wordList s)) as [| first rest] eqn:E; [reflexivity|].
      exfalso.
      assert (Hne : eligibleWords (wordList s) <> []) by congruence.
      destruct (selectNextWord_eligible u s Hne) as (k & w' & Hk & Es & _).
      destruct (eligibleWords_lookup _ _ _ Hk) as [Hl Hel].
      rewrite Es in Hcur. cbn in Hcur. inversion Hcur as [Hi].
      rewrite Hi, Hw in Hl.
      inversion Hl as [Hww]. rewrite <- Hww in Hel. congruence.
Qed.

Lemma eligible_iff_weight_at_least_threshold_witness :
  (In (0%nat, newWordWithWeight apple) (eligibleWords (wordList twoWords))
   <-> (0.1 <=? weight (newWordWithWeight apple)) = true)
  /\ (weight (newWordWithWeight apple) = 0.1 ->
      In (0%nat, newWordWithWeight apple) (eligibleWords (wordList twoWords)))
  /\ ((weight (newWordWithWeight apple) <? 0.1) = true ->
      ~ In (0%nat, newWordWithWeight apple) (eligibleWords (wordList twoWords))
      /\ (currentWord (selectNextWord 0.75 twoWords) = Some 0%nat ->
          eligibleWords (wordList twoWords) = [])).
Proof.
  apply (eligible_iff_weight_at_least_threshold 0.75 twoWords 0 (newWordWithWeight apple)).
  reflexivity.
Defined.

(** An entry on the threshold, next to two just below it. *)
Example eligibility_at_threshold :
  map fst (eligibleWords
             [mkWordWithWeight pear 0.0999 0 0; mkWordWithWeight apple 0.1 0 0;
              mkWordWithWeight plum 0.09999999999999999 0 0]) = [1%nat].
Proof. reflexivity. Qed.

(** In the sample session [pear] drops out after its third "known" answer
    and [apple] is the word shown from then on. *)
Example mastered_word_is_excluded :
  map weight (wordList fiveAnswers) = [0.21433470507544577; 0.099229030127521184]
  /\ map fst (eligibleWords (wordList fiveAnswers)) = [0%nat]
  /\ currentWord fiveAnswers = Some 0%nat.
Proof. vm_compute. repeat split; reflexivity. Qed.

(** ** Assessment: [updateWordWeight] *)

(** [countUp] is the double's [x + 1] at both ends of its range. *)
Example countUp_double :
  N2float (countUp 0) = N2float 0 + 1
  /\ N2float (countUp 9007199254740991) = N2float 9007199254740991 + 1
  /\ N2float (countUp 9007199254740992) = N2float 9007199254740992 + 1
  /\ N2float 9007199254740992 + 1 = N2float 9007199254740992.
Proof. vm_compute. repeat split; reflexivity. Qed.

Lemma countUp_below (n : N) :
  (n < 9007199254740992)%N -> countUp n = (n + 1)%N.
Proof. intros H. unfold countUp. apply N.ltb_lt in H. rewrite H. reflexivity. Qed.

Lemma countUp_top (n : N) :
  (9007199254740992 <= n)%N -> countUp n = n.
Proof. intros H. unfold countUp. apply N.ltb_ge in H. rewrite H. reflexivity. Qed.

Lemma countUp_pos (n : N) : (0 < countUp n)%N.
Proof. unfold countUp. destruct (N.ltb_spec n 9007199254740992); lia. Qed.

(** C2, as the code has it.  An assessment of the current word, of weight
    [w], leaves its word data and sets its weight to [w * 2.16] after
    "unknown", to [w / 2.16] after "known" and to [w] after "vague"; for
    a finite [w > 0] the first is a larger weight and the second a smaller
    one.  Whatever the action and the weight, it adds one to the count (a
    count that has reached 2^53 stays there) and adds the new weight to the
    sum of weights; the other entries of the pool stay as they are. *)
Theorem updateWordWeight_assesses_current
    (action : Action) (u : float) (s : AppState) (i : nat) (e : WordWithWeight) :
  currentWord s = Some i ->
  wordList s !! i = Some e ->
  exists e',
    wordList (updateWordWeight action u s) !! i = Some e'
    /\ toWord e' = toWord e
    /\ match action with
       | unknown => weight e' = weight e * 2.16
       | vague => weight e' = weight e
       | known => weight e' = weight e / 2.16
       end
    /\ ((0 <? weight e) = true -> (weight e <? infinity) = true ->
        (action = unknown -> (weight e <? weight e') = true)
        /\ (action = known -> (weight e' <? weight e) = true))
    /\ ((occurrences e < 9007199254740992)%N -> occurrences e' = (occurrences e + 1)%N)
    /\ ((9007199254740992 <= occurrences e)%N -> occurrences e' = occurrences e)
    /\ totalWeight e' = totalWeight e + weight e'
    /\ forall j, j <> i -> wordList (updateWordWeight action u s) !! j = wordList s !! j.
Proof.
  intros Hc He.
  rewrite (updateWordWeight_wordList action u s i Hc).
  exists (assess action e).
  split; [rewrite list_lookup_alter_eq, He; reflexivity|].
  split; [reflexivity|].
  split; [destruct action; reflexivity|].
  split.
  { intros Hpos Hfin. split; intros ->; cbn [assess weight adjustWeight].
    - now apply FloatFacts.mul_216_gt.
    - now apply FloatFacts.div_216_lt. }
  split; [apply countUp_below|]. split; [apply countUp_top|].
  split; [reflexivity|].
  intros j Hj. apply list_lookup_alter_ne. congruence.
Qed.

Lemma updateWordWeight_assesses_current_witness :
  exists e',
    wordList (updateWordWeight known 0.75 firstCard) !! 0%nat = Some e'
    /\ toWord e' = toWord (newWordWithWeight apple)
    /\ weight e' = weight (newWordWithWeight apple) / 2.16
    /\ ((0 <? weight (newWordWithWeight apple)) = true ->
        (weight (newWordWithWeight apple) <? infinity) = true ->
        (known = unknown -> (weight (newWordWithWeight apple) <? weight e') = true)
        /\ (known = known -> (weight e' <? weight (newWordWithWeight apple)) = true))
    /\ ((occurrences (newWordWithWeight apple) < 9007199254740992)%N ->
        occurrences e' = (occurrences (newWordWithWeight apple) + 1)%N)
    /\ ((9007199254740992 <= occurrences (newWordWithWeight apple))%N ->
        occurrences e' = occurrences (newWordWithWeight apple))
    /\ totalWeight e' = totalWeight (newWordWithWeight apple) + weight e'
    /\ forall j, j <> 0%nat ->
         wordList (updateWordWeight known 0.75 firstCard) !! j = wordList firstCard !! j.
Proof.
  apply (updateWordWeight_assesses_current known 0.75 firstCard 0 (newWordWithWeight apple));
    reflexivity.
Defined.

(** The sum takes the weight after the division, not the weight before. *)
Example known_once :
  wordList (updateWordWeight known 0.75 firstCard) !! 0%nat
  = Some (mkWordWithWeight apple 0.46296296296296291 1 0.46296296296296291).
Proof. reflexivity. Qed.

Example unknown_then_vague :
  wordList (updateWordWeight vague 0 (updateWordWeight unknown 0 firstCard)) !! 0%nat
  = Some (mkWordWithWeight apple 2.16 2 4.32).
Proof. reflexivity. Qed.

(** C2, against "for every weight above zero".  On [drilled] the current
    word has weight [infinity]; "unknown" leaves it at [infinity], which is
    not a larger weight, and "known" does too, which is not a smaller one. *)
Lemma updateWordWeight_at_infinity :
  currentWord drilled = Some 0%nat
  /\ weight <$> wordList drilled !! 0%nat = Some infinity
  /\ (0 <? infinity) = true
  /\ weight <$> wordList (updateWordWeight unknown 0 drilled) !! 0%nat = Some infinity
  /\ weight <$> wordList (updateWordWeight known 0 drilled) !! 0%nat = Some infinity
  /\ (infinity <? infinity) = false.
Proof. vm_compute. repeat split; reflexivity. Qed.

Lemma vagueDrill_succ (n : N) :
  vagueDrill (N.succ n) = updateWordWeight vague 0 (vagueDrill n).
Proof. apply N.iter_succ. Qed.

Lemma reachable_vagueDrill (n : N) : reachable (vagueDrill n).
Proof.
  induction n as [| n IH] using N.peano_ind.
  - apply reachable_startLearning, reachable_addWords, reachable_initial.
  - rewrite vagueDrill_succ. now apply reachable_updateWordWeight.
Qed.

(** After [n] "vague" answers the count of [apple] is [n], up to 2^53. *)
Lemma vagueDrill_state (n : N) :
  exists sum : float,
    vagueDrill n
    = mkAppState learning EmptyString
        [mkWordWithWeight apple 1 (N.min n 9007199254740992) sum; newWordWithWeight pear]
        EmptyString (Some 2%nat) (Some 0%nat) false [].
Proof.
  induction n as [| n IH] using N.peano_ind.
  - exists 0. reflexivity.
  - destruct IH as [sum E]. exists (sum + 1). rewrite vagueDrill_succ, E.
    assert (Hc : N.min (N.succ n) 9007199254740992
                 = countUp (N.min n 9007199254740992)).
    { unfold countUp. destruct (N.ltb_spec (N.min n 9007199254740992) 9007199254740992); lia. }
    rewrite Hc. generalize (N.min n 9007199254740992). intros c. reflexivity.
Qed.

(** C2, where the count stops.  After 2^53 "vague" answers to [apple] (a
    state of the component) its count is 2^53, and the next answer leaves
    the count at 2^53: the double 2^53 + 1 is 2^53. *)
Lemma updateWordWeight_count_stops :
  reachable (vagueDrill 9007199254740992)
  /\ currentWord (vagueDrill 9007199254740992) = Some 0%nat
  /\ occurrences <$> wordList (vagueDrill 9007199254740992) !! 0%nat
     = Some 9007199254740992%N
  /\ occurrences
       <$> wordList (updateWordWeight vague 0 (vagueDrill 9007199254740992)) !! 0%nat
     = Some 9007199254740992%N.
Proof.
  split; [apply reachable_vagueDrill|].
  destruct (vagueDrill_state 9007199254740992) as [sum E].
  destruct (vagueDrill_state (N.succ 9007199254740992)) as [sum' E'].
  rewrite vagueDrill_succ in E'. rewrite E', E.
  repeat split; reflexivity.
Qed.

(** ** Starting and restarting a session *)

Lemma startLearning_empty (u : float) (s : AppState) :
  wordList s = [] -> startLearning u s = s.
Proof. unfold startLearning. intros ->. reflexivity. Qed.

Lemma startLearning_nonempty (u : float) (s : AppState) :
  wordList s <> [] ->
  startLearning u s
  = selectNextWord u (set_currentView learning (set_learningResults [] s)).
Proof.
  unfold startLearning. destruct (wordList s) as [| x l]; [congruence|]. reflexivity.
Qed.

Lemma startLearning_selects (u : float) (s : AppState) :
  wordList s <> [] -> eligibleWords (wordList s) <> [] ->
  exists i,
    startLearning u s
    = set_isCardFlipped false
        (set_currentWord (Some i)
           (set_currentView learning (set_learningResults [] s)))
    /\ is_Some (wordList s !! i).
Proof.
  intros Hne Hel. rewrite (startLearning_nonempty u s Hne).
  set (s1 := set_currentView learning (set_learningResults [] s)).
  destruct (selectNextWord_eligible u s1 Hel) as (k & w & Hk & -> & _).
  exists (fst w). split; [reflexivity|].
  destruct (eligibleWords_lookup _ _ _ Hk) as [Hw _].
  change (wordList s1) with (wordList s) in Hw. eauto.
Qed.

(** C6, as the code has it.  On an empty pool [startLearning] returns at
    once and changes nothing.  On a pool that is not empty it clears the
    results and enters the learning view; then, when some word is eligible,
    it makes one of the pool's words current, and when none is, it ends the
    session at once with the results of the pool. *)
Theorem startLearning_cases (u : float) (s : AppState) :
  (wordList s = [] -> startLearning u s = s)
  /\ (wordList s <> [] -> eligibleWords (wordList s) <> [] ->
      exists i,
        startLearning u s
        = set_isCardFlipped false
            (set_currentWord (Some i)
               (set_currentView learning (set_learningResults [] s)))
        /\ is_Some (wordList s !! i))
  /\ (wordList s <> [] -> eligibleWords (wordList s) = [] ->
      startLearning u s
      = endLearning (set_currentView learning (set_learningResults [] s))
      /\ currentView (startLearning u s) = result).
Proof.
  split_and!.
  - apply startLearning_empty.
  - apply startLearning_selects.
  - intros Hne Hel. rewrite (startLearning_nonempty u s Hne).
    rewrite selectNextWord_finished by exact Hel.
    split; reflexivity.
Qed.

(** Back on the home view after the sample session, every word is below the
    threshold: a new start ends at once, with the results of the pool. *)
Example startLearning_mastered :
  currentView (backToHome finishedSession) = home
  /\ currentView (startLearning 0.5 (backToHome finishedSession)) = result
  /\ map r_word (learningResults (startLearning 0.5 (backToHome finishedSession)))
     = [Some "apple"%string; Some "pear"%string].
Proof. vm_compute. repeat split; reflexivity. Qed.

(** C6, against "an empty pool finishes the session".  On the initial state
    [startLearning] changes nothing: the view stays the home view. *)
Lemma startLearning_empty_pool :
  wordList initialState = []
  /\ startLearning 0.5 initialState = initialState
  /\ currentView (startLearning 0.5 initialState) = home.
Proof. repeat split; reflexivity. Qed.

Lemma resetWord_eligible (l : list WordWithWeight) :
  l <> [] -> eligibleWords (map resetWord l) <> [].
Proof.
  destruct l as [| x l]; [congruence|]. intros _ E.
  assert (H : In (0%nat, resetWord x) (eligibleWords (map resetWord (x :: l)))).
  { apply eligibleWords_In. split; reflexivity. }
  rewrite E in H. exact H.
Qed.

Lemma resetWord_not_assessed (l : list WordWithWeight) :
  List.filter (fun w => (0 <? occurrences w)%N) (map resetWord l) = [].
Proof. induction l as [| x l IH]; [reflexivity|]. cbn. exact IH. Qed.

(** C9.  From any state, [restartLearning] keeps the words of the pool and
    sets every weight to 1.0, every count to 0 and every sum to 0; the
    results are then empty, and ending the session at this point, with no
    assessment in between, gives an empty result list. *)
Theorem restartLearning_resets (u : float) (s : AppState) :
  Forall (fun w => weight w = 1 /\ occurrences w = 0%N /\ totalWeight w = 0)
    (wordList (restartLearning u s))
  /\ map toWord (wordList (restartLearning u s)) = map toWord (wordList s)
  /\ learningResults (restartLearning u s) = []
  /\ learningResults (endLearningEarly (restartLearning u s)) = [].
Proof.
  assert (Hl : wordList (restartLearning u s) = map resetWord (wordList s)).
  { unfold restartLearning. rewrite startLearning_wordList. reflexivity. }
  split_and!.
  - rewrite Hl. apply Forall_forall. intros w Hw.
    apply list_elem_of_In, in_map_iff in Hw. destruct Hw as (x & <- & _).
    repeat split.
  - rewrite Hl, map_map. reflexivity.
  - unfold restartLearning.
    set (s1 := set_learningResults [] (set_wordList (map resetWord (wordList s)) s)).
    destruct (wordList s) as [| x l] eqn:E.
    + rewrite startLearning_empty; [reflexivity|]. unfold s1. cbn. try rewrite E. reflexivity.
    + destruct (startLearning_selects u s1) as (i & -> & _); [| |reflexivity].
      * unfold s1. cbn [wordList set_learningResults set_wordList].
        try rewrite E. discriminate.
      * unfold s1. cbn [wordList set_learningResults set_wordList].
        try rewrite E. apply resetWord_eligible. discriminate.
  - unfold endLearningEarly, endLearning.
    cbn [learningResults set_currentView set_learningResults].
    rewrite Hl.
    rewrite resetWord_not_assessed. reflexivity.
Qed.

(** A restart after the sample session. *)
Example restartLearning_finishedSession :
  wordList (restartLearning 0.4 finishedSession) = wordList twoWords
  /\ currentView (restartLearning 0.4 finishedSession) = learning
  /\ learningResults (endLearningEarly (restartLearning 0.4 finishedSession)) = [].
Proof. vm_compute. repeat split; reflexivity. Qed.

(** ** Import: [addWords] *)

(** The fields an error message of [addWords] names. *)
Inductive Field : Type :=
  | FieldWord
  | FieldPartOfSpeech
  | FieldExplanation
  | FieldExplanationItem (k : nat).

(** The record number in the message of an error. *)
Definition errorRecord (e : Error) : option nat :=
  match e with
  | NotArrayError => None
  | MissingWordField n | MissingPartOfSpeechField n
  | MissingExplanationArray n | InvalidExplanation n _ => Some n
  end.

(** The field in the message of an error. *)
Definition errorField (e : Error) : option Field :=
  match e with
  | NotArrayError => None
  | MissingWordField _ => Some FieldWord
  | MissingPartOfSpeechField _ => Some FieldPartOfSpeech
  | MissingExplanationArray _ => Some FieldExplanation
  | InvalidExplanation _ k => Some (FieldExplanationItem k)
  end.

(** The spec's words: a field of a record is invalid when [word] or
    [part_of_speech] is missing or empty, when [explanation] is not an array
    or is an empty one, or when the [k]-th explanation (from 1) is the empty
    string. *)
Definition fieldInvalid (w : Word) (f : Field) : Prop :=
  match f with
  | FieldWord => word w = None \/ word w = Some EmptyString
  | FieldPartOfSpeech => part_of_speech w = None \/ part_of_speech w = Some EmptyString
  | FieldExplanation => explanation w = NotAnArray \/ explanation w = ExplanationArray []
  | FieldExplanationItem k =>
      exists exps j, explanation w = ExplanationArray exps
                     /\ k = S j /\ exps !! j = Some EmptyString
  end.

Definition invalidWord (w : Word) : Prop := exists f, fieldInvalid w f.

Lemma truthy_false (field : option string) :
  truthy field = false <-> field = None \/ field = Some EmptyString.
Proof.
  destruct field as [str|]; cbn.
  - rewrite negb_false_iff, String.eqb_eq. split.
    + intros ->. auto.
    + intros [H | H]; congruence.
  - split; auto.
Qed.

Lemma length_zero_empty (str : string) :
  Nat.eqb (String.length str) 0 = true <-> str = EmptyString.
Proof. destruct str; cbn; split; congruence. Qed.

Lemma checkExplanations_spec (index : nat) (exps : list string) : forall expIndex : nat,
  match checkExplanations index expIndex exps with
  | None => forall j, exps !! j <> Some EmptyString
  | Some e =>
      exists j, exps !! j = Some EmptyString
                /\ e = InvalidExplanation (index + 1) (expIndex + j + 1)
  end.
Proof.
  induction exps as [| exp rest IH]; intros expIndex; cbn [checkExplanations].
  - intros j. rewrite lookup_nil. discriminate.
  - destruct (Nat.eqb (String.length exp) 0) eqn:E.
    + apply length_zero_empty in E. subst exp. exists 0%nat. split; [reflexivity|].
      f_equal. lia.
    + specialize (IH (S expIndex)).
      destruct (checkExplanations index (S expIndex) rest) as [e|].
      * destruct IH as (j & Hj & ->). exists (S j). split; [exact Hj|]. f_equal. lia.
      * intros [| j]; cbn.
        -- intros H. inversion H as [H']. apply length_zero_empty in H'. congruence.
        -- apply IH.
Qed.

(** [checkWord] throws exactly on the records the spec calls invalid, and
    its error names [index + 1] and an invalid field. *)
Lemma checkWord_spec (index : nat) (w : Word) :
  match checkWord index w with
  | None => ~ invalidWord w
  | Some e =>
      exists f, fieldInvalid w f
                /\ errorRecord e = Some (index + 1)%nat /\ errorField e = Some f
  end.
Proof.
  unfold checkWord.
  destruct (truthy (word w)) eqn:Ew; cbn [negb].
  2:{ exists FieldWord. apply truthy_false in Ew. auto. }
  destruct (truthy (part_of_speech w)) eqn:Ep; cbn [negb].
  2:{ exists FieldPartOfSpeech. apply truthy_false in Ep. auto. }
  assert (Hw : ~ fieldInvalid w FieldWord).
  { intros H. apply truthy_false in H. congruence. }
  assert (Hp : ~ fieldInvalid w FieldPartOfSpeech).
  { intros H. apply truthy_false in H. congruence. }
  destruct (explanation w) as [| exps] eqn:Ex.
  { exists FieldExplanation. cbn. rewrite Ex. auto. }
  destruct exps as [| exp rest]; cbn [length Nat.eqb].
  { exists FieldExplanation. cbn. rewrite Ex. auto. }
  pose proof (checkExplanations_spec index (exp :: rest) 0) as H.
  destruct (checkExplanations index 0 (exp :: rest)) as [e|].
  - destruct H as (j & Hj & ->). exists (FieldExplanationItem (S j)).
    cbn. rewrite Ex. split; [eauto|]. split; [reflexivity|]. do 2 f_equal. lia.
  - intros [[| | | k] Hf]; try tauto.
    + cbn in Hf. rewrite Ex in Hf. destruct Hf as [Hf | Hf]; discriminate Hf.
    + cbn in Hf. rewrite Ex in Hf. destruct Hf as (exps & j & E & _ & Hj).
      inversion E; subst exps. exact (H j Hj).
Qed.

Lemma checkWords_spec (parsedWords : list Word) : forall index : nat,
  match checkWords index parsedWords with
  | None => Forall (fun w => ~ invalidWord w) parsedWords
  | Some e =>
      exists i w f,
        parsedWords !! i = Some w
        /\ (forall j w', (j < i)%nat -> parsedWords !! j = Some w' -> ~ invalidWord w')
        /\ fieldInvalid w f
        /\ errorRecord e = Some (index + i + 1)%nat /\ errorField e = Some f
  end.
Proof.
  induction parsedWords as [| w rest IH]; intros index; cbn [checkWords].
  - constructor.
  - pose proof (checkWord_spec index w) as Hw.
    destruct (checkWord index w) as [e|].
    + destruct Hw as (f & Hf & Hr & Hfield).
      exists 0%nat, w, f. split; [reflexivity|]. split; [intros j w' Hj; lia|].
      split; [exact Hf|]. split; [|exact Hfield]. rewrite Hr. f_equal. lia.
    + specialize (IH (S index)).
      destruct (checkWords (S index) rest) as [e|].
      * destruct IH as (i & w' & f & Hi & Hbefore & Hf & Hr & Hfield).
        exists (S i), w', f. split; [exact Hi|]. split.
        { intros [| j] w'' Hj Hl; cbn in Hl.
          - inversion Hl; subst. exact Hw.
          - apply (Hbefore j); [lia | exact Hl]. }
        split; [exact Hf|]. split; [|exact Hfield]. rewrite Hr. f_equal. lia.
      * constructor; assumption.
Qed.

(** C7.  When the input parses to an array of records, [addWords] throws
    exactly when some record is invalid in the spec's sense; the error then
    names the first invalid record, counted from 1, and an invalid field of
    it, and the pool is the one before the call. *)
Theorem addWords_validation
    (JSON_parse : string -> ParseResult) (s : AppState) (parsedWords : list Word) :
  JSON_parse (jsonInput s) = WordArray parsedWords ->
  ((exists e, snd (addWords JSON_parse s) = Throw e) <-> Exists invalidWord parsedWords)
  /\ (forall e, snd (addWords JSON_parse s) = Throw e ->
      wordList (fst (addWords JSON_parse s)) = wordList s
      /\ exists i w f,
           parsedWords !! i = Some w
           /\ (forall j w', (j < i)%nat -> parsedWords !! j = Some w' -> ~ invalidWord w')
           /\ fieldInvalid w f
           /\ errorRecord e = Some (i + 1)%nat /\ errorField e = Some f).
Proof.
  intros Hparse. unfold addWords.
  cbn [jsonInput set_successMessage set_errorMessage]. rewrite Hparse.
  pose proof (checkWords_spec parsedWords 0) as H.
  destruct (checkWords 0 parsedWords) as [e|]; cbn [fst snd].
  - destruct H as (i & w & f & Hi & Hbefore & Hf & Hr & Hfield). split.
    + split; [|eauto]. intros _. apply Exists_exists. exists w. split.
      * eapply list_elem_of_lookup_2. exact Hi.
      * exists f. exact Hf.
    + intros e' He'. inversion He'; subst e'. split; [reflexivity|].
      exists i, w, f. auto.
  - split.
    + split.
      * intros [e He]. discriminate He.
      * intros Hex. exfalso. apply Exists_exists in Hex. destruct Hex as (w & Hin & Hinv).
        rewrite Forall_forall in H. exact (H w Hin Hinv).
    + intros e He. discriminate He.
Qed.

Lemma addWords_validation_witness :
  ((exists e, snd (addWords (fun _ => WordArray [emptyWordRecord]) twoWords) = Throw e)
   <-> Exists invalidWord [emptyWordRecord])
  /\ (forall e, snd (addWords (fun _ => WordArray [emptyWordRecord]) twoWords) = Throw e ->
      wordList (fst (addWords (fun _ => WordArray [emptyWordRecord]) twoWords))
      = wordList twoWords
      /\ exists i w f,
           [emptyWordRecord] !! i = Some w
           /\ (forall j w', (j < i)%nat -> [emptyWordRecord] !! j = Some w' -> ~ invalidWord w')
           /\ fieldInvalid w f
           /\ errorRecord e = Some (i + 1)%nat /\ errorField e = Some f).
Proof.
  apply (addWords_validation (fun _ => WordArray [emptyWordRecord]) twoWords [emptyWordRecord]).
  reflexivity.
Defined.

Example addWords_empty_word :
  addWords (fun _ => WordArray [emptyWordRecord]) twoWords
  = (set_successMessage None (set_errorMessage EmptyString twoWords),
     Throw (MissingWordField 1)).
Proof. reflexivity. Qed.

Example addWords_second_record_third_explanation :
  snd (addWords
         (fun _ => WordArray
            [apple;
             mkWord (Some "fig"%string) (Some "n."%string)
               (ExplanationArray ["a"%string; "b"%string; EmptyString])])
         initialState)
  = Throw (InvalidExplanation 2 3).
Proof. reflexivity. Qed.

(** C8.  When the input parses to an array of records none of which is
    invalid, [addWords] returns normally and the pool is the old pool, entry
    by entry, followed by one new entry per record, in the records' order
    (equal records give several entries), each with the record's data, weight
    1.0, count 0 and sum 0. *)
Theorem addWords_appends
    (JSON_parse : string -> ParseResult) (s : AppState) (parsedWords : list Word) :
  JSON_parse (jsonInput s) = WordArray parsedWords ->
  Forall (fun w => ~ invalidWord w) parsedWords ->
  snd (addWords JSON_parse s) = Normal
  /\ wordList (fst (addWords JSON_parse s))
     = wordList s ++ map (fun w => mkWordWithWeight w 1 0 0) parsedWords
  /\ length (wordList (fst (addWords JSON_parse s)))
     = (length (wordList s) + length parsedWords)%nat
  /\ (forall i, (i < length (wordList s))%nat ->
        wordList (fst (addWords JSON_parse s)) !! i = wordList s !! i)
  /\ (forall i w, parsedWords !! i = Some w ->
        wordList (fst (addWords JSON_parse s)) !! (length (wordList s) + i)%nat
        = Some (mkWordWithWeight w 1 0 0))
  /\ successMessage (fst (addWords JSON_parse s)) = Some (length parsedWords).
Proof.
  intros Hparse Hvalid. unfold addWords.
  cbn [jsonInput set_successMessage set_errorMessage]. rewrite Hparse.
  pose proof (checkWords_spec parsedWords 0) as H.
  destruct (checkWords 0 parsedWords) as [e|].
  { exfalso. destruct H as (i & w & f & Hi & _ & Hf & _).
    rewrite Forall_forall in Hvalid.
    apply (Hvalid w); [eapply list_elem_of_lookup_2; exact Hi | exists f; exact Hf]. }
  cbn [fst snd wordList successMessage set_jsonInput set_successMessage set_wordList
       set_errorMessage].
  change (map newWordWithWeight parsedWords)
    with (map (fun w => mkWordWithWeight w 1 0 0) parsedWords).
  split_and!; try reflexivity.
  - rewrite length_app, length_map. reflexivity.
  - intros i Hi. apply lookup_app_l. exact Hi.
  - intros i w Hi. rewrite lookup_app_r by lia.
    replace (length (wordList s) + i - length (wordList s))%nat with i by lia.
    change (map (fun w => mkWordWithWeight w 1 0 0) parsedWords)
      with ((fun w => mkWordWithWeight w 1 0 0) <$> parsedWords).
    rewrite list_lookup_fmap, Hi. reflexivity.
  - rewrite length_map. reflexivity.
Qed.

Lemma addWords_appends_witness :
  snd (addWords (fun _ => WordArray [apple; apple]) twoWords) = Normal
  /\ wordList (fst (addWords (fun _ => WordArray [apple; apple]) twoWords))
     = wordList twoWords ++ map (fun w => mkWordWithWeight w 1 0 0) [apple; apple]
  /\ length (wordList (fst (addWords (fun _ => WordArray [apple; apple]) twoWords)))
     = (length (wordList twoWords) + length [apple; apple])%nat
  /\ (forall i, (i < length (wordList twoWords))%nat ->
        wordList (fst (addWords (fun _ => WordArray [apple; apple]) twoWords)) !! i
        = wordList twoWords !! i)
  /\ (forall i w, [apple; apple] !! i = Some w ->
        wordList (fst (addWords (fun _ => WordArray [apple; apple]) twoWords))
          !! (length (wordList twoWords) + i)%nat
        = Some (mkWordWithWeight w 1 0 0))
  /\ successMessage (fst (addWords (fun _ => WordArray [apple; apple]) twoWords))
     = Some (length [apple; apple]).
Proof.
  apply (addWords_appends (fun _ => WordArray [apple; apple]) twoWords [apple; apple]).
  - reflexivity.
  - repeat constructor; intros [[| | | k] Hf]; cbn in Hf;
      try (destruct Hf as [Hf | Hf]; discriminate Hf).
    + destruct Hf as (exps & [| j] & E & _ & Hj); inversion E; subst; discriminate Hj.
    + destruct Hf as (exps & [| j] & E & _ & Hj); inversion E; subst; discriminate Hj.
Defined.

Example addWords_duplicates :
  map (fun w => (word (toWord w), weight w, occurrences w, totalWeight w))
    (wordList (fst (addWords (fun _ => WordArray [apple; apple]) twoWords)))
  = [(Some "apple"%string, 1, 0%N, 0); (Some "pear"%string, 1, 0%N, 0);
     (Some "apple"%string, 1, 0%N, 0); (Some "apple"%string, 1, 0%N, 0)].
Proof. reflexivity. Qed.

(** ** Results: [endLearning] *)

(** The count of an assessed word is a positive finite double. *)
Lemma N2float_finite (n : N) :
  (0 < n)%N -> exists m e, Prim2SF (N2float n) = S754_finite false m e.
Proof.
  intros Hn. unfold N2float. rewrite of_uint63_spec.
  apply FloatFacts.binary_normalize_count.
  rewrite Uint63.of_Z_spec.
  change wB with 9223372036854775808%Z.
  rewrite Z.mod_small by lia. lia.
Qed.

(** A sum of weights that is not negative, over a positive count, is a
    number that is not negative. *)
Lemma unfamiliarity_nonneg (t : float) (n : N) :
  (0 <=? t) = true -> (0 < n)%N -> (0 <=? t / N2float n) = true.
Proof.
  intros Ht Hn. rewrite FloatFacts.leb_zero_SFnonneg in *.
  rewrite FloatAxioms.div_spec.
  destruct (N2float_finite n Hn) as (m & e & ->).
  apply FloatFacts.SFdiv_nonneg. exact Ht.
Qed.

(** *** The sort *)

Section SortFacts.
Context {A : Type}.
Variable comparefn : A -> A -> float.

Lemma insertSorted_Permutation (x : A) (sorted : list A) :
  Permutation (insertSorted comparefn x sorted) (x :: sorted).
Proof.
  induction sorted as [| y rest IH]; cbn [insertSorted]; [reflexivity|].
  destruct (0 <? comparefn y x); [reflexivity|].
  rewrite IH. apply perm_swap.
Qed.

Lemma sort_from_Permutation (l : list A) : forall acc : list A,
  Permutation (fold_left (fun sorted x => insertSorted comparefn x sorted) l acc)
    (acc ++ l).
Proof.
  induction l as [| x l IH]; intros acc; cbn [fold_left].
  - rewrite app_nil_r. reflexivity.
  - rewrite IH, insertSorted_Permutation. apply Permutation_middle.
Qed.

(** The sorted array holds the elements of the array, each as often. *)
Lemma sort_Permutation (l : list A) : Permutation (sort comparefn l) l.
Proof. unfold sort. rewrite sort_from_Permutation. reflexivity. Qed.

End SortFacts.

(** A result whose unfamiliarity is a number. *)
Definition numberResult (r : LearningResult) : Prop :=
  is_nan (unfamiliarity r) = false.

(** Highest unfamiliarity first: each result is at least every later one. *)
Definition descending (rs : list LearningResult) : Prop :=
  StronglySorted (fun a b => (unfamiliarity b <=? unfamiliarity a) = true) rs.

(** In a descending list a result is at least every result after it. *)
Lemma descending_lookup (rs : list LearningResult) : forall (i j : nat) (a b : LearningResult),
  descending rs -> (i < j)%nat -> rs !! i = Some a -> rs !! j = Some b ->
  (unfamiliarity b <=? unfamiliarity a) = true.
Proof.
  induction rs as [| r rs IH]; intros i j a b Hs Hij Ha Hb; [discriminate Ha|].
  inversion Hs as [| r' rs' Hs' Hbelow]; subst.
  destruct j as [| j]; [lia|]. cbn in Hb.
  destruct i as [| i]; cbn in Ha.
  - inversion Ha; subst a. rewrite Forall_forall in Hbelow.
    apply Hbelow. eapply list_elem_of_lookup_2. exact Hb.
  - apply (IH i j a b Hs'); [lia | exact Ha | exact Hb].
Qed.

Lemma compareFn_positive (a b : LearningResult) :
  numberResult a -> numberResult b ->
  (0 <? compareFn a b) = (unfamiliarity a <? unfamiliarity b).
Proof. intros Ha Hb. unfold compareFn. now apply FloatFacts.sub_pos_ltb. Qed.

Lemma insertSorted_descending (x : LearningResult) (sorted : list LearningResult) :
  numberResult x -> Forall numberResult sorted -> descending sorted ->
  descending (insertSorted compareFn x sorted).
Proof.
  intros Hx. induction sorted as [| y rest IH]; intros Hn Hs; cbn [insertSorted].
  - repeat constructor.
  - apply Forall_cons in Hn. destruct Hn as [Hy Hrest].
    inversion Hs as [| y' rest' Hs' Hbelow]; subst.
    rewrite (compareFn_positive y x Hy Hx).
    destruct (unfamiliarity y <? unfamiliarity x) eqn:E.
    + apply FloatFacts.ltb_leb in E.
      constructor; [exact Hs|]. constructor; [exact E|].
      eapply Forall_impl; [exact Hbelow|]. intros z Hz.
      exact (FloatFacts.leb_trans _ _ _ Hz E).
    + assert (Hxy : (unfamiliarity x <=? unfamiliarity y) = true).
      { destruct (unfamiliarity x <=? unfamiliarity y) eqn:E'; [reflexivity|].
        apply FloatFacts.leb_false_ltb in E'; [congruence | exact Hx | exact Hy]. }
      constructor; [now apply IH|].
      rewrite (insertSorted_Permutation compareFn x rest).
      constructor; assumption.
Qed.

Lemma insertSorted_numbers (x : LearningResult) (sorted : list LearningResult) :
  numberResult x -> Forall numberResult sorted ->
  Forall numberResult (insertSorted compareFn x sorted).
Proof.
  intros Hx Hn. rewrite (insertSorted_Permutation compareFn x sorted).
  constructor; assumption.
Qed.

Lemma sort_from_descending (l : list LearningResult) : forall acc : list LearningResult,
  Forall numberResult l -> Forall numberResult acc -> descending acc ->
  descending (fold_left (fun sorted x => insertSorted compareFn x sorted) l acc).
Proof.
  induction l as [| x l IH]; intros acc Hl Hacc Hs; cbn [fold_left]; [exact Hs|].
  apply Forall_cons in Hl. destruct Hl as [Hx Hl].
  apply IH; [exact Hl | now apply insertSorted_numbers | now apply insertSorted_descending].
Qed.

(** Results that are numbers come out of the sort highest first. *)
Lemma sort_descending (l : list LearningResult) :
  Forall numberResult l -> descending (sort compareFn l).
Proof.
  intros Hl. apply sort_from_descending; [exact Hl | constructor | constructor].
Qed.

(** *** The pools a session can hold *)

(** The data model's invariant: a weight and a sum of weights are numbers
    that are not negative. *)
Definition wellFormedEntry (w : WordWithWeight) : Prop :=
  (0 <=? weight w) = true /\ (0 <=? totalWeight w) = true.

Definition wellFormedPool (l : list WordWithWeight) : Prop :=
  Forall wellFormedEntry l.

Lemma assess_wellFormed (action : Action) (w : WordWithWeight) :
  wellFormedEntry w -> wellFormedEntry (assess action w).
Proof.
  intros [Hw Ht]. unfold wellFormedEntry, assess. cbn [weight totalWeight].
  assert (Hw' : (0 <=? adjustWeight action (weight w)) = true).
  { destruct action; cbn [adjustWeight].
    - now apply FloatFacts.mul_216_nonneg.
    - exact Hw.
    - now apply FloatFacts.div_216_nonneg. }
  split; [exact Hw'|]. now apply FloatFacts.add_nonneg.
Qed.

Lemma addWords_wellFormed (JSON_parse : string -> ParseResult) (s : AppState) :
  wellFormedPool (wordList s) -> wellFormedPool (wordList (fst (addWords JSON_parse s))).
Proof.
  intros H. unfold addWords.
  destruct (JSON_parse _) as [message | | parsedWords]; try exact H.
  destruct (checkWords 0 parsedWords); [exact H|].
  cbn [fst wordList set_jsonInput set_successMessage set_wordList set_errorMessage].
  apply Forall_app. split; [exact H|].
  apply Forall_forall. intros w Hw.
  apply list_elem_of_In, in_map_iff in Hw. destruct Hw as (x & <- & _).
  split; reflexivity.
Qed.

Lemma updateWordWeight_wellFormed (action : Action) (u : float) (s : AppState) :
  wellFormedPool (wordList s) -> wellFormedPool (wordList (updateWordWeight action u s)).
Proof.
  intros H. destruct (currentWord s) as [i|] eqn:Hc.
  - rewrite (updateWordWeight_wordList action u s i Hc).
    apply Forall_alter; [exact H|]. intros w _. apply assess_wellFormed.
  - unfold updateWordWeight. rewrite Hc. exact H.
Qed.

(** Every state of the component holds a well-formed pool. *)
Lemma reachable_wellFormed (s : AppState) : reachable s -> wellFormedPool (wordList s).
Proof.
  induction 1 as [| j s _ IH | p s _ IH | u s _ IH | s _ IH | a u s _ IH
                  | s _ IH | s _ IH | u s _ IH].
  - constructor.
  - exact IH.
  - now apply addWords_wellFormed.
  - rewrite startLearning_wordList. exact IH.
  - unfold flipCard. destruct (currentWord s); exact IH.
  - now apply updateWordWeight_wellFormed.
  - exact IH.
  - exact IH.
  - unfold restartLearning. rewrite startLearning_wordList.
    cbn [wordList set_learningResults set_wordList].
    apply Forall_forall. intros w Hw.
    apply list_elem_of_In, in_map_iff in Hw. destruct Hw as (x & <- & _).
    split; reflexivity.
Qed.

Lemma toLearningResult_numbers (l : list WordWithWeight) :
  wellFormedPool l ->
  Forall numberResult
    (map toLearningResult (List.filter (fun w => (0 <? occurrences w)%N) l)).
Proof.
  intros H. apply Forall_forall. intros r Hr.
  apply list_elem_of_In, in_map_iff in Hr. destruct Hr as (w & <- & Hw).
  apply filter_In in Hw. destruct Hw as [Hin Hocc].
  apply N.ltb_lt in Hocc.
  unfold wellFormedPool in H. rewrite Forall_forall in H.
  destruct (H w) as [_ Ht]; [now apply list_elem_of_In|].
  unfold numberResult, toLearningResult. cbn [unfamiliarity].
  apply FloatFacts.nonneg_not_nan. now apply unfamiliarity_nonneg.
Qed.

(** C3.  On a well-formed pool (every state of the component holds one),
    [endLearning] stores one result for each entry with a count above zero
    and none for the others; each result has the entry's word, count and sum
    of weights and the quotient of sum and count as its unfamiliarity; the
    results stand highest unfamiliarity first; the view is the result view. *)
Theorem endLearning_results (s : AppState) :
  wellFormedPool (wordList s) ->
  Permutation (learningResults (endLearning s))
    (map toLearningResult (List.filter (fun w => (0 <? occurrences w)%N) (wordList s)))
  /\ (forall r, In r (learningResults (endLearning s)) ->
      exists w, In w (wordList s) /\ (0 < occurrences w)%N
                /\ r_word r = word (toWord w)
                /\ unfamiliarity r = totalWeight w / N2float (occurrences w)
                /\ r_occurrences r = occurrences w
                /\ r_totalWeight r = totalWeight w)
  /\ descending (learningResults (endLearning s))
  /\ currentView (endLearning s) = result.
Proof.
  intros Hwf. unfold endLearning.
  cbn [learningResults currentView set_currentView set_learningResults].
  set (assessed := List.filter (fun w => (0 <? occurrences w)%N) (wordList s)).
  split_and!.
  - apply sort_Permutation.
  - intros r Hr. apply list_elem_of_In in Hr.
    rewrite (sort_Permutation compareFn (map toLearningResult assessed)) in Hr.
    apply list_elem_of_In, in_map_iff in Hr. destruct Hr as (w & <- & Hw).
    apply filter_In in Hw. destruct Hw as [Hin Hocc]. apply N.ltb_lt in Hocc.
    exists w. repeat split; assumption.
  - apply sort_descending. now apply toLearningResult_numbers.
  - reflexivity.
Qed.

Lemma endLearning_results_witness :
  Permutation (learningResults (endLearning assessedPool))
    (map toLearningResult
       (List.filter (fun w => (0 <? occurrences w)%N) (wordList assessedPool)))
  /\ (forall r, In r (learningResults (endLearning assessedPool)) ->
      exists w, In w (wordList assessedPool) /\ (0 < occurrences w)%N
                /\ r_word r = word (toWord w)
                /\ unfamiliarity r = totalWeight w / N2float (occurrences w)
                /\ r_occurrences r = occurrences w
                /\ r_totalWeight r = totalWeight w)
  /\ descending (learningResults (endLearning assessedPool))
  /\ currentView (endLearning assessedPool) = result.
Proof.
  apply (endLearning_results assessedPool).
  repeat constructor.
Defined.

(** The spec's example of the order. *)
Example endLearning_order :
  map (fun r => (r_word r, unfamiliarity r)) (learningResults (endLearning assessedPool))
  = [(Some "pear"%string, 2); (Some "plum"%string, 1); (Some "apple"%string, 0.5)].
Proof. reflexivity. Qed.

(** ** Termination under "known" answers *)

(** The weights a fresh word takes under "known" answers. *)
Definition freshLevel (w : float) : Prop :=
  w = 1 \/ w = 1 / 2.16 \/ w = 1 / 2.16 / 2.16 \/ w = 1 / 2.16 / 2.16 / 2.16.

(** How many "known" answers take a weight below the threshold, counted up
    to three. *)
Definition knownsLeft (w : float) : nat :=
  if 0.1 <=? w then
    if 0.1 <=? w / 2.16 then
      if 0.1 <=? w / 2.16 / 2.16 then 3 else 2
    else 1
  else 0.

Definition roundsLeft (l : list WordWithWeight) : nat :=
  sum_list_with (fun e => knownsLeft (weight e)) l.

Lemma knownsLeft_eligible (w : float) :
  (0 < knownsLeft w)%nat <-> (0.1 <=? w) = true.
Proof.
  unfold knownsLeft. destruct (0.1 <=? w); [|split; [lia | discriminate]].
  split; [reflexivity|]. intros _.
  destruct (0.1 <=? w / 2.16); [|lia]. destruct (0.1 <=? w / 2.16 / 2.16); lia.
Qed.

Lemma freshLevel_known (w : float) :
  freshLevel w -> (0.1 <=? w) = true ->
  freshLevel (w / 2.16) /\ S (knownsLeft (w / 2.16)) = knownsLeft w.
Proof.
  intros [-> | [-> | [-> | ->]]] He.
  - split; [right; left; reflexivity | reflexivity].
  - split; [right; right; left; reflexivity | reflexivity].
  - split; [right; right; right; reflexivity | reflexivity].
  - discriminate He.
Qed.

Lemma freshLevel_mastered (w : float) :
  freshLevel w -> knownsLeft w = 0%nat -> (w <? 0.1) = true.
Proof. intros [-> | [-> | [-> | ->]]] H; try discriminate H. reflexivity. Qed.

Lemma roundsLeft_alter (f : WordWithWeight -> WordWithWeight)
    (l : list WordWithWeight) : forall (i : nat) (e : WordWithWeight),
  l !! i = Some e ->
  (roundsLeft (alter f i l) + knownsLeft (weight e)
   = roundsLeft l + knownsLeft (weight (f e)))%nat.
Proof.
  unfold roundsLeft.
  induction l as [| x l IH]; intros [| i] e H; cbn in H; try discriminate H.
  - inversion H; subst. cbn. lia.
  - cbn. specialize (IH i e H). lia.
Qed.

Lemma roundsLeft_eligible (l : list WordWithWeight) :
  (0 < roundsLeft l)%nat <-> eligibleWords l <> [].
Proof.
  split.
  - intros Hpos E.
    assert (Hall : forall i w, l !! i = Some w -> knownsLeft (weight w) = 0%nat).
    { intros i w Hw. destruct (0.1 <=? weight w) eqn:Hel.
      - assert (Hin : In (i, w) (eligibleWords l)) by (apply eligibleWords_In; auto).
        rewrite E in Hin. destruct Hin.
      - destruct (knownsLeft (weight w)) eqn:K; [reflexivity|].
        assert (H' : (0 < knownsLeft (weight w))%nat) by lia.
        apply knownsLeft_eligible in H'. congruence. }
    clear E. unfold roundsLeft in Hpos.
    induction l as [| x l IH]; cbn in Hpos; [lia|].
    rewrite (Hall 0%nat x eq_refl) in Hpos.
    apply IH; [exact Hpos|]. intros i w Hw. exact (Hall (S i) w Hw).
  - intros Hne. destruct (eligibleWords l) as [| [i w] rest] eqn:E; [congruence|].
    assert (Hin : In (i, w) (eligibleWords l)) by (rewrite E; left; reflexivity).
    apply eligibleWords_In in Hin. destruct Hin as [Hw Hel].
    apply knownsLeft_eligible in Hel.
    pose proof (sum_list_with_in w (fun e => knownsLeft (weight e)) l
                  (list_elem_of_lookup_2 _ _ _ Hw)) as Hle.
    unfold roundsLeft. cbn beta in Hle. lia.
Qed.

(** The state of a session of "known" answers with [n] assessments to go:
    while [n] is positive the learning view shows an eligible word, and at
    zero the result view is up. *)
Definition knownSession (n : nat) (s : AppState) : Prop :=
  Forall (fun e => freshLevel (weight e)) (wordList s)
  /\ roundsLeft (wordList s) = n
  /\ match n with
     | O => currentView s = result
     | S _ =>
         currentView s = learning
         /\ exists i e, currentWord s = Some i /\ wordList s !! i = Some e
                        /\ (0.1 <=? weight e) = true
     end.

Lemma selectNextWord_knownSession (u : float) (s : AppState) :
  Forall (fun e => freshLevel (weight e)) (wordList s) ->
  currentView s = learning ->
  knownSession (roundsLeft (wordList s)) (selectNextWord u s).
Proof.
  intros Hlev Hview. unfold knownSession.
  rewrite selectNextWord_wordList. split; [exact Hlev|]. split; [reflexivity|].
  destruct (roundsLeft (wordList s)) as [| n] eqn:En.
  - rewrite selectNextWord_finished; [reflexivity|].
    destruct (eligibleWords (wordList s)) eqn:E; [reflexivity|].
    assert (H : (0 < roundsLeft (wordList s))%nat)
      by (apply roundsLeft_eligible; congruence).
    lia.
  - assert (Hne : eligibleWords (wordList s) <> [])
      by (apply roundsLeft_eligible; lia).
    destruct (selectNextWord_eligible u s Hne) as (k & w & Hk & -> & _).
    destruct (eligibleWords_lookup _ _ _ Hk) as [Hw Hel].
    split; [exact Hview|]. exists (fst w), (snd w). auto.
Qed.

Lemma fresh_roundsLeft (l : list WordWithWeight) :
  Forall (fun w => weight w = 1) l -> roundsLeft l = (3 * length l)%nat.
Proof.
  unfold roundsLeft. induction 1 as [| x l Hx _ IH]; [reflexivity|].
  cbn [sum_list_with length]. rewrite IH, Hx.
  change (knownsLeft 1) with 3%nat. lia.
Qed.

Lemma startLearning_knownSession (u : float) (s : AppState) :
  wordList s <> [] -> Forall (fun w => weight w = 1) (wordList s) ->
  knownSession (3 * length (wordList s)) (startLearning u s).
Proof.
  intros Hne Hfresh. rewrite (startLearning_nonempty u s Hne).
  rewrite <- (fresh_roundsLeft _ Hfresh).
  apply (selectNextWord_knownSession u (set_currentView learning (set_learningResults [] s))).
  - cbn [wordList set_currentView set_learningResults].
    eapply Forall_impl; [exact Hfresh|]. intros w ->. left. reflexivity.
  - reflexivity.
Qed.

Lemma updateWordWeight_knownSession (u : float) (n : nat) (s : AppState) :
  knownSession (S n) s -> knownSession n (updateWordWeight known u s).
Proof.
  intros (Hlev & Hn & Hview & i & e & Hc & He & Hel).
  unfold updateWordWeight. rewrite Hc.
  set (s1 := assessCurrent known i s).
  rewrite Forall_forall in Hlev.
  destruct (freshLevel_known (weight e) (Hlev e (list_elem_of_lookup_2 _ _ _ He)) Hel)
    as [Hlev' Hleft].
  assert (Hn1 : roundsLeft (wordList s1) = n).
  { pose proof (roundsLeft_alter (assess known) (wordList s) i e He) as H.
    change (weight (assess known e)) with (weight e / 2.16) in H.
    change (wordList s1) with (alter (assess known) i (wordList s)). lia. }
  rewrite <- Hn1. apply selectNextWord_knownSession; [|exact Hview].
  change (wordList s1) with (alter (assess known) i (wordList s)).
  apply Forall_alter.
  - apply Forall_forall. exact Hlev.
  - intros x Hx _. rewrite He in Hx. inversion Hx; subst x. exact Hlev'.
Qed.

Lemma answerKnown_knownSession (us : list float) : forall (n : nat) (s : AppState),
  knownSession (length us + n) s -> knownSession n (answerKnown us s).
Proof.
  induction us as [| u us IH]; intros n s H; [exact H|].
  cbn [answerKnown fold_left]. apply IH.
  apply updateWordWeight_knownSession. exact H.
Qed.

(** C5.  Three "known" answers in a row take a weight from 1.0 below 0.1,
    and two do not.  So a session on a pool of [n > 0] fresh words in which
    every answer is "known" is over after exactly [3 * n] assessments,
    whatever words the random choice presents: until then the learning view
    is up, and then no word is eligible, every weight is below 0.1 and the
    result view is up. *)
Theorem known_answers_finish (u0 : float) (us : list float) (s : AppState) :
  wordList s <> [] ->
  Forall (fun w => weight w = 1) (wordList s) ->
  length us = (3 * length (wordList s))%nat ->
  (0.1 <=? adjustWeight known (adjustWeight known 1)) = true
  /\ (adjustWeight known (adjustWeight known (adjustWeight known 1)) <? 0.1) = true
  /\ currentView (answerKnown us (startLearning u0 s)) = result
  /\ eligibleWords (wordList (answerKnown us (startLearning u0 s))) = []
  /\ Forall (fun w => (weight w <? 0.1) = true)
       (wordList (answerKnown us (startLearning u0 s)))
  /\ forall k, (k < length us)%nat ->
       currentView (answerKnown (take k us) (startLearning u0 s)) = learning.
Proof.
  intros Hne Hfresh Hlen.
  pose proof (startLearning_knownSession u0 s Hne Hfresh) as Hstart.
  split; [reflexivity|]. split; [reflexivity|].
  assert (Hend : knownSession 0 (answerKnown us (startLearning u0 s))).
  { apply answerKnown_knownSession. rewrite Hlen, Nat.add_0_r. exact Hstart. }
  destruct Hend as (Hlev & Hzero & Hview).
  split; [exact Hview|].
  assert (Hnone : eligibleWords (wordList (answerKnown us (startLearning u0 s))) = []).
  { destruct (eligibleWords _) eqn:E; [reflexivity|].
    assert (H : (0 < roundsLeft (wordList (answerKnown us (startLearning u0 s))))%nat)
      by (apply roundsLeft_eligible; congruence).
    lia. }
  split; [exact Hnone|]. split.
  - apply Forall_forall. intros w Hw.
    rewrite Forall_forall in Hlev. apply freshLevel_mastered; [now apply Hlev|].
    pose proof (sum_list_with_in w (fun e => knownsLeft (weight e)) _ Hw) as Hle.
    unfold roundsLeft in Hzero. cbn beta in Hle. lia.
  - intros k Hk.
    assert (Hmid : knownSession (S (length us - k - 1))
                     (answerKnown (take k us) (startLearning u0 s))).
    { apply answerKnown_knownSession. rewrite length_take_le by lia.
      replace (k + S (length us - k - 1))%nat with (3 * length (wordList s))%nat by lia.
      exact Hstart. }
    destruct Hmid as (_ & _ & Hv & _). exact Hv.
Qed.

Lemma known_answers_finish_witness :
  (0.1 <=? adjustWeight known (adjustWeight known 1)) = true
  /\ (adjustWeight known (adjustWeight known (adjustWeight known 1)) <? 0.1) = true
  /\ currentView (answerKnown sampleDraws (startLearning 0.6 twoWords))
     = result
  /\ eligibleWords
       (wordList (answerKnown sampleDraws (startLearning 0.6 twoWords)))
     = []
  /\ Forall (fun w => (weight w <? 0.1) = true)
       (wordList (answerKnown sampleDraws (startLearning 0.6 twoWords)))
  /\ forall k, (k < length sampleDraws)%nat ->
       currentView
         (answerKnown (take k sampleDraws) (startLearning 0.6 twoWords))
       = learning.
Proof.
  apply (known_answers_finish 0.6 sampleDraws twoWords).
  - discriminate.
  - repeat constructor.
  - reflexivity.
Defined.

Example known_session_weights :
  map (fun w => (weight w, occurrences w))
    (wordList (answerKnown sampleDraws (startLearning 0.6 twoWords)))
  = [(0.099229030127521184, 3%N); (0.099229030127521184, 3%N)].
Proof. reflexivity. Qed.

(** ** The sample sessions *)

(** The sample sessions are sessions of the component. *)
Lemma reachable_iter (f : AppState -> AppState) (n : nat) (s : AppState) :
  (forall s', reachable s' -> reachable (f s')) ->
  reachable s -> reachable (Nat.iter n f s).
Proof.
  intros Hf Hs. induction n as [| n IH]; [exact Hs|].
  cbn [Nat.iter nat_rect]. apply Hf. exact IH.
Qed.

Lemma reachable_answerKnown (us : list float) : forall s : AppState,
  reachable s -> reachable (answerKnown us s).
Proof.
  induction us as [| u us IH]; intros s Hs; [exact Hs|].
  cbn [answerKnown fold_left]. apply IH. now apply reachable_updateWordWeight.
Qed.

Lemma reachable_twoWords : reachable twoWords.
Proof. apply reachable_addWords, reachable_initial. Qed.

Lemma reachable_firstCard : reachable firstCard.
Proof. apply reachable_startLearning, reachable_twoWords. Qed.

Lemma reachable_drilled : reachable drilled.
Proof.
  unfold drilled. apply reachable_iter.
  - intros s'. apply reachable_updateWordWeight.
  - apply reachable_startLearning, reachable_twoWords.
Qed.

Lemma reachable_fiveAnswers : reachable fiveAnswers.
Proof.
  apply reachable_answerKnown, reachable_startLearning, reachable_twoWords.
Qed.

Lemma reachable_finishedSession : reachable finishedSession.
Proof.
  apply reachable_answerKnown, reachable_startLearning, reachable_twoWords.
Qed.

(** * More IEEE 754 facts

    The order of the doubles on the integer scale [FloatFacts.SFord], and what
    the engine's constants do at the edges. *)

Module FloatOrder.
Import FloatFacts.

Lemma nan_Prim2SF (x : float) : is_nan x = false <-> Prim2SF x <> S754_nan.
Proof.
  split; [apply is_nan_Prim2SF|]. intros H.
  destruct (is_nan x) eqn:E; [|reflexivity].
  apply is_nan_true_Prim2SF in E. contradiction.
Qed.

(** [<] on the integer scale. *)
Lemma ltb_ord (x y : float) :
  (x <? y) = true <->
  is_nan x = false /\ is_nan y = false /\ (SFord (Prim2SF x) < SFord (Prim2SF y))%Z.
Proof.
  split.
  - intros H. pose proof (ltb_leb _ _ H) as Hle. apply leb_ord in Hle.
    destruct Hle as (Nx & Ny & Hle). split; [exact Nx|]. split; [exact Ny|].
    pose proof (ltb_leb_false _ _ H) as Hf.
    destruct (Z_lt_le_dec (SFord (Prim2SF x)) (SFord (Prim2SF y))) as [Hlt | Hge];
      [exact Hlt|].
    assert (Hyx : (y <=? x) = true) by (apply leb_ord; auto).
    congruence.
  - intros (Nx & Ny & Hlt). apply leb_false_ltb; [exact Ny | exact Nx|].
    destruct (y <=? x) eqn:E; [|reflexivity].
    apply leb_ord in E. destruct E as (_ & _ & E). lia.
Qed.

(** [==] on the integer scale. *)
Lemma eqb_ord (x y : float) :
  (x =? y) = true <->
  is_nan x = false /\ is_nan y = false /\ SFord (Prim2SF x) = SFord (Prim2SF y).
Proof.
  rewrite FloatAxioms.eqb_spec. unfold SFeqb. split.
  - intros H.
    assert (Nx : Prim2SF x <> S754_nan).
    { intros E. rewrite E in H. discriminate H. }
    assert (Ny : Prim2SF y <> S754_nan).
    { intros E. rewrite E in H. destruct (Prim2SF x); discriminate H. }
    rewrite SFcompare_ord in H by auto using Prim2SF_valid.
    split; [now apply nan_Prim2SF|]. split; [now apply nan_Prim2SF|].
    destruct (Z.compare_spec (SFord (Prim2SF x)) (SFord (Prim2SF y)));
      [assumption | discriminate H | discriminate H].
  - intros (Nx & Ny & E). apply nan_Prim2SF in Nx, Ny.
    rewrite SFcompare_ord by auto using Prim2SF_valid.
    rewrite E, Z.compare_refl. reflexivity.
Qed.

(** [NaN] compares false with everything. *)
Lemma nan_leb (x y : float) : is_nan x = true -> (x <=? y) = false.
Proof.
  intros H. destruct (x <=? y) eqn:E; [|reflexivity].
  apply leb_ord in E. destruct E as (Nx & _). congruence.
Qed.

(** The only number that is not below [infinity] is [infinity]. *)
Lemma not_below_infinity (w : float) :
  is_nan w = false -> (0 <=? w) = true -> (w <? infinity) = false -> w = infinity.
Proof.
  intros Hn H0 Hinf. apply Prim2SF_inj.
  change (Prim2SF infinity) with (S754_infinity false).
  rewrite leb_zero_SFnonneg in H0.
  rewrite FloatAxioms.ltb_spec in Hinf.
  change (Prim2SF infinity) with (S754_infinity false) in Hinf.
  destruct (SFnonneg_inv _ H0) as [[s E] | [E | (m & e & E)]]; rewrite E in *;
    [| reflexivity |]; discriminate Hinf.
Qed.

Lemma threshold_ord : (0 < SFord (Prim2SF 0.1))%Z.
Proof. vm_compute. reflexivity. Qed.

(** A weight at or above the threshold is above zero. *)
Lemma eligible_pos (w : float) : (0.1 <=? w) = true -> (0 <? w) = true.
Proof.
  intros H. apply leb_ord in H. destruct H as (_ & Nw & H).
  apply ltb_ord. split; [reflexivity|]. split; [exact Nw|].
  pose proof threshold_ord. change (SFord (Prim2SF 0)) with 0%Z. lia.
Qed.

(** "unknown" keeps a weight at or above the threshold. *)
Lemma mul_216_eligible (w : float) :
  (0.1 <=? w) = true -> (0.1 <=? w * 2.16) = true.
Proof.
  intros H. pose proof (eligible_pos w H) as Hpos.
  destruct (w <? infinity) eqn:Hinf.
  - apply (leb_trans 0.1 w (w * 2.16)); [exact H|].
    apply ltb_leb. now apply mul_216_gt.
  - assert (Hn : is_nan w = false) by (apply leb_ord in H; tauto).
    rewrite (not_below_infinity w Hn (ltb_leb _ _ Hpos) Hinf). reflexivity.
Qed.

(** Zero times a number that is not negative is zero, or [NaN]. *)
Lemma mul_zero_leb (t x : float) :
  (0 <=? t) = true -> is_nan (0 * t) = false -> (0 * t <=? x) = (0 <=? x).
Proof.
  intros Ht Hn. apply is_nan_Prim2SF in Hn.
  rewrite leb_zero_SFnonneg in Ht.
  rewrite !FloatAxioms.leb_spec. rewrite FloatAxioms.mul_spec in Hn |- *.
  change (Prim2SF 0) with (S754_zero false) in *.
  destruct (SFnonneg_inv _ Ht) as [[s E] | [E | (m & e & E)]]; rewrite E in *;
    cbn [SFmul xorb] in Hn |- *.
  - destruct s, (Prim2SF x) as [sx | sx | | sx mx ex]; reflexivity.
  - exfalso. apply Hn. reflexivity.
  - reflexivity.
Qed.

(** The quotient that [SFdiv] rounds is positive in the normal range. *)
Lemma SFdiv_core_216_pos (m : positive) (e : Z) :
  bounded prec emax m e = true ->
  (-1019 <= Zpos (digits2_pos m) + e)%Z ->
  exists q e' l,
    SFdiv_core_binary prec emax (Zpos m) e 4863887597560136 (-51) = (q, e', l)
    /\ (0 < q)%Z /\ (-1074 <= e')%Z.
Proof.
  intros Hb Hnorm. apply bounded_inv in Hb. destruct Hb as (He & Hd & _).
  destruct (digits2_pos_bounds m) as [Hlo _].
  set (dm := Zpos (digits2_pos m)) in *.
  unfold SFdiv_core_binary.
  change (Zdigits2 4863887597560136) with 53%Z.
  cbn [Zdigits2]. rewrite fexp_eq. fold dm.
  set (e' := (dm + e - 55)%Z).
  replace (Z.min (Z.max (dm + e - (53 + -51) - 53) (-1074)) (e - -51))%Z
    with e' by (unfold e'; lia).
  assert (Es : (e - -51 - e' = 106 - dm)%Z) by (unfold e'; lia).
  rewrite Es.
  assert (Hs : (0 < 106 - dm)%Z) by lia.
  destruct (106 - dm)%Z as [| s | s] eqn:Es'; try lia.
  rewrite Z.shiftl_mul_pow2 by lia.
  assert (Hbig : (2 ^ 105 <= Zpos m * 2 ^ Zpos s)%Z).
  { replace 105%Z with ((dm - 1) + Zpos s)%Z by lia.
    rewrite (Z.pow_add_r 2 (dm - 1) (Zpos s)) by lia.
    apply Z.mul_le_mono_nonneg_r; [apply Z.pow_nonneg; lia | exact Hlo]. }
  pose proof (Z.div_eucl_eq (Zpos m * 2 ^ Zpos s) 4863887597560136 ltac:(lia)) as Hdiv.
  pose proof (Z.mod_pos_bound (Zpos m * 2 ^ Zpos s) 4863887597560136 ltac:(lia)) as Hmod.
  unfold Z.modulo in Hmod.
  destruct (Z.div_eucl (Zpos m * 2 ^ Zpos s) 4863887597560136) as [q r].
  exists q, e', (new_location 4863887597560136 r).
  split; [reflexivity|]. split; [|unfold e'; lia].
  change (2 ^ 105)%Z with 40564819207303340847894502572032%Z in Hbig. lia.
Qed.

(** "known" leaves a weight at or above the threshold above zero. *)
Lemma div_216_pos (w : float) : (0.1 <=? w) = true -> (0 <? w / 2.16) = true.
Proof.
  intros H. pose proof (eligible_pos w H) as Hpos.
  destruct (w <? infinity) eqn:Hinf.
  2:{ assert (Hn : is_nan w = false) by (apply leb_ord in H; tauto).
      rewrite (not_below_infinity w Hn (ltb_leb _ _ Hpos) Hinf). reflexivity. }
  destruct (pos_finite_inv w Hpos Hinf) as (m & e & E).
  pose proof (Prim2SF_valid w) as Vw. rewrite E in Vw. cbn [valid_binary] in Vw.
  apply leb_ord in H. destruct H as (_ & _ & Hord). rewrite E in Hord.
  cbn [SFord] in Hord.
  pose proof (bounded_inv m e Vw) as (He & Hd & _).
  destruct (digits2_pos_bounds m) as [_ Hhi].
  set (dm := Zpos (digits2_pos m)) in *.
  assert (Hnorm : (-1019 <= dm + e)%Z).
  { assert (H1 : (2 ^ 1070 <= SFord (Prim2SF 0.1))%Z) by (vm_compute; discriminate).
    assert (H2 : (Zpos m * 2 ^ (e + 1074) < 2 ^ dm * 2 ^ (e + 1074))%Z)
      by (apply Z.mul_lt_mono_pos_r; [apply Z.pow_pos_nonneg; lia | exact Hhi]).
    rewrite <- (Z.pow_add_r 2 dm (e + 1074)) in H2 by lia.
    assert (H3 : (2 ^ 1070 < 2 ^ (dm + (e + 1074)))%Z) by lia.
    apply Z.pow_lt_mono_r_iff in H3; lia. }
  rewrite FloatAxioms.ltb_spec, FloatAxioms.div_spec, Prim2SF_216, E.
  change (Prim2SF 0) with (S754_zero false).
  unfold SF216, SF64div. cbn [SFdiv xorb].
  destruct (SFdiv_core_216_pos m e Vw Hnorm) as (q & e' & l & -> & Hq & He').
  destruct (binary_round_aux_pos false q e' l Hq He') as [(m3 & e3 & ->) | ->];
    reflexivity.
Qed.

End FloatOrder.

(** * The component as a whole *)

(** ** Handlers in any order *)

(** One call of a handler of the component. *)
Inductive handlerStep : AppState -> AppState -> Prop :=
  | step_input (j : string) (s : AppState) :
      handlerStep s (set_jsonInput j s)
  | step_addWords (JSON_parse : string -> ParseResult) (s : AppState) :
      handlerStep s (fst (addWords JSON_parse s))
  | step_startLearning (u : float) (s : AppState) :
      handlerStep s (startLearning u s)
  | step_flipCard (s : AppState) :
      handlerStep s (flipCard s)
  | step_updateWordWeight (action : Action) (u : float) (s : AppState) :
      handlerStep s (updateWordWeight action u s)
  | step_endLearningEarly (s : AppState) :
      handlerStep s (endLearningEarly s)
  | step_backToHome (s : AppState) :
      handlerStep s (backToHome s)
  | step_restartLearning (u : float) (s : AppState) :
      handlerStep s (restartLearning u s).

(** ** Handlers through the template *)

(** [const canStartLearning = computed(() => wordList.value.length > 0)]. *)
Definition canStartLearning (s : AppState) : bool :=
  Nat.ltb 0 (length (wordList s)).

(** One event of the page.  The template renders one of three blocks by
    [currentView]: on the home view the textarea bound to [jsonInput], the
    add button and the start button, which is disabled unless
    [canStartLearning]; on the learning view the button to end early and,
    under [v-if="currentWord"], the card, whose click flips it and whose back
    side ([v-else] of [!isCardFlipped]) holds the three answer buttons; on
    the result view the buttons to go home and to restart. *)
Inductive uiStep : AppState -> AppState -> Prop :=
  | ui_input (j : string) (s : AppState) :
      currentView s = home -> uiStep s (set_jsonInput j s)
  | ui_addWords (JSON_parse : string -> ParseResult) (s : AppState) :
      currentView s = home -> uiStep s (fst (addWords JSON_parse s))
  | ui_startLearning (u : float) (s : AppState) :
      currentView s = home -> canStartLearning s = true ->
      uiStep s (startLearning u s)
  | ui_endLearningEarly (s : AppState) :
      currentView s = learning -> uiStep s (endLearningEarly s)
  | ui_flipCard (s : AppState) :
      currentView s = learning -> currentWord s <> None -> uiStep s (flipCard s)
  | ui_updateWordWeight (action : Action) (u : float) (s : AppState) :
      currentView s = learning -> currentWord s <> None -> isCardFlipped s = true ->
      uiStep s (updateWordWeight action u s)
  | ui_backToHome (s : AppState) :
      currentView s = result -> uiStep s (backToHome s)
  | ui_restartLearning (u : float) (s : AppState) :
      currentView s = result -> uiStep s (restartLearning u s).

(** What a user can make of the page. *)
Inductive uiReachable : AppState -> Prop :=
  | ui_initial : uiReachable initialState
  | ui_next (s s' : AppState) : uiReachable s -> uiStep s s' -> uiReachable s'.

(** A session in which the answers are given one after the other; with each
    answer comes what [Math.random()] returns in the selection after it. *)
Definition answerAll (answers : list (Action * float)) (s : AppState) : AppState :=
  fold_left (fun s au => updateWordWeight (fst au) (snd au) s) answers s.

Lemma uiStep_handlerStep (s s' : AppState) : uiStep s s' -> handlerStep s s'.
Proof. destruct 1; constructor. Qed.

Lemma reachable_handlerStep (s s' : AppState) :
  reachable s -> handlerStep s s' -> reachable s'.
Proof. intros Hs Hstep. destruct Hstep; constructor; exact Hs. Qed.

Lemma uiReachable_reachable (s : AppState) : uiReachable s -> reachable s.
Proof.
  induction 1 as [| s s' _ IH Hstep]; [constructor|].
  eapply reachable_handlerStep; [exact IH|]. now apply uiStep_handlerStep.
Qed.

(** Induction on the states of the component, one handler call at a time. *)
Lemma reachable_step_ind (P : AppState -> Prop) :
  P initialState ->
  (forall s s', reachable s -> P s -> handlerStep s s' -> P s') ->
  forall s, reachable s -> P s.
Proof.
  intros H0 Hstep s Hs.
  induction Hs; [exact H0 | ..]; (eapply Hstep; [eassumption | eassumption |]);
    constructor.
Qed.

(** *** What a handler call does to the refs *)

Lemma checkExplanations_None (index expIndex : nat) (exps : list string) :
  checkExplanations index expIndex exps = None <->
  Forall (fun exp => exp <> EmptyString) exps.
Proof.
  revert expIndex. induction exps as [| exp rest IH]; intros expIndex;
    cbn [checkExplanations].
  - split; [constructor | reflexivity].
  - destruct exp as [| c str]; cbn [String.length Nat.eqb].
    + split; [discriminate|]. intros H. apply Forall_cons in H. tauto.
    + rewrite IH. split.
      * intros H. constructor; [discriminate | exact H].
      * intros H. apply Forall_cons in H. tauto.
Qed.

(** A record that passes the checks of [addWords]. *)
Definition validRecord (w : Word) : Prop :=
  truthy (word w) = true
  /\ truthy (part_of_speech w) = true
  /\ exists exps, explanation w = ExplanationArray exps
                  /\ exps <> [] /\ Forall (fun exp => exp <> EmptyString) exps.

Lemma checkWord_None (index : nat) (w : Word) :
  checkWord index w = None <-> validRecord w.
Proof.
  unfold checkWord, validRecord.
  destruct (truthy (word w)); cbn [negb]; [|split; [discriminate | intros [H _]; discriminate H]].
  destruct (truthy (part_of_speech w)); cbn [negb];
    [|split; [discriminate | intros (_ & H & _); discriminate H]].
  destruct (explanation w) as [| exps].
  { split; [discriminate | intros (_ & _ & exps & H & _); discriminate H]. }
  destruct exps as [| exp rest]; cbn [length Nat.eqb].
  { split; [discriminate|]. intros (_ & _ & exps & H & Hne & _).
    inversion H; subst. congruence. }
  rewrite checkExplanations_None. split.
  - intros H. split; [reflexivity|]. split; [reflexivity|].
    exists (exp :: rest). split; [reflexivity|]. split; [discriminate | exact H].
  - intros (_ & _ & exps & H & _ & Hall). inversion H; subst. exact Hall.
Qed.

Lemma checkWords_None (parsedWords : list Word) : forall index : nat,
  checkWords index parsedWords = None <-> Forall validRecord parsedWords.
Proof.
  induction parsedWords as [| w rest IH]; intros index; cbn [checkWords].
  - split; [constructor | reflexivity].
  - destruct (checkWord index w) as [e|] eqn:E.
    + split; [discriminate|]. intros H. apply Forall_cons in H. destruct H as [H _].
      apply (checkWord_None index) in H. congruence.
    + rewrite IH. apply checkWord_None in E. split.
      * intros H. constructor; assumption.
      * intros H. apply Forall_cons in H. tauto.
Qed.

(** [addWords] appends records that passed the checks (none when the call
    fails) and leaves the refs of the session alone. *)
Lemma addWords_effect (JSON_parse : string -> ParseResult) (s : AppState) :
  exists parsedWords,
    Forall validRecord parsedWords
    /\ wordList (fst (addWords JSON_parse s))
       = wordList s ++ map newWordWithWeight parsedWords
    /\ currentView (fst (addWords JSON_parse s)) = currentView s
    /\ currentWord (fst (addWords JSON_parse s)) = currentWord s
    /\ isCardFlipped (fst (addWords JSON_parse s)) = isCardFlipped s
    /\ learningResults (fst (addWords JSON_parse s)) = learningResults s.
Proof.
  unfold addWords.
  cbn [jsonInput set_successMessage set_errorMessage].
  destruct (JSON_parse (jsonInput s)) as [message | | parsedWords].
  - exists []. cbn. rewrite app_nil_r. repeat split. constructor.
  - exists []. cbn. rewrite app_nil_r. repeat split. constructor.
  - destruct (checkWords 0 parsedWords) as [e|] eqn:E.
    + exists []. cbn. rewrite app_nil_r. repeat split. constructor.
    + exists parsedWords. cbn. repeat split. now apply (checkWords_None parsedWords 0%nat).
Qed.

(** The two ways [selectNextWord] goes. *)
Lemma selectNextWord_cases (u : float) (s : AppState) :
  (exists i e, wordList s !! i = Some e /\ (0.1 <=? weight e) = true
               /\ selectNextWord u s = set_isCardFlipped false (set_currentWord (Some i) s))
  \/ (eligibleWords (wordList s) = [] /\ selectNextWord u s = endLearning s).
Proof.
  destruct (eligibleWords (wordList s)) as [| first rest] eqn:E.
  - right. split; [reflexivity|]. now apply selectNextWord_finished.
  - left. assert (Hne : eligibleWords (wordList s) <> []) by congruence.
    destruct (selectNextWord_eligible u s Hne) as (k & w & Hk & Es & _).
    destruct (eligibleWords_lookup _ _ _ Hk) as [Hw Hel].
    exists (fst w), (snd w). auto.
Qed.

(** What a handler call does to the pool: it appends checked records with
    their initial numbers, or assesses the entry of the current word, or
    resets every entry. *)
Lemma handlerStep_pool (s s' : AppState) :
  handlerStep s s' ->
  (exists parsedWords,
     Forall validRecord parsedWords
     /\ wordList s' = wordList s ++ map newWordWithWeight parsedWords)
  \/ (exists action i, currentWord s = Some i
                       /\ wordList s' = alter (assess action) i (wordList s))
  \/ wordList s' = map resetWord (wordList s).
Proof.
  assert (Hsame : forall l : list WordWithWeight,
            exists parsedWords, Forall validRecord parsedWords
                                /\ l = l ++ map newWordWithWeight parsedWords).
  { intros l. exists []. cbn. rewrite app_nil_r. split; [constructor | reflexivity]. }
  destruct 1 as [j s | p s | u s | s | action u s | s | s | u s].
  - left. apply Hsame.
  - left. destruct (addWords_effect p s) as (l & Hl & E & _). eauto.
  - left. rewrite startLearning_wordList. apply Hsame.
  - left. unfold flipCard. destruct (currentWord s); apply Hsame.
  - destruct (currentWord s) as [i|] eqn:Hc.
    + right. left. exists action, i. split; [reflexivity|].
      now apply updateWordWeight_wordList.
    + left. unfold updateWordWeight. rewrite Hc. apply Hsame.
  - left. apply Hsame.
  - left. apply Hsame.
  - right. right. unfold restartLearning. rewrite startLearning_wordList. reflexivity.
Qed.

(** ** What every state of the component satisfies *)

(** The current word is an entry of the pool. *)
Definition currentWordInPool (s : AppState) : Prop :=
  forall i, currentWord s = Some i -> is_Some (wordList s !! i).

(** The current word is an entry of the pool that is eligible. *)
Definition currentWordEligible (s : AppState) : Prop :=
  exists i e, currentWord s = Some i /\ wordList s !! i = Some e
              /\ (0.1 <=? weight e) = true.

Lemma selectNextWord_current (u : float) (s : AppState) :
  currentWordInPool s ->
  currentWordInPool (selectNextWord u s)
  /\ (currentView (selectNextWord u s) = learning ->
      currentWordEligible (selectNextWord u s)).
Proof.
  intros Hin.
  destruct (selectNextWord_cases u s) as [(i & e & He & Hel & ->) | [_ ->]].
  - split.
    + intros i' Hi'. cbn in Hi'. inversion Hi'; subst i'. cbn. eauto.
    + intros _. exists i, e. cbn. auto.
  - split; [exact Hin|]. cbn. discriminate.
Qed.

Lemma currentWordInPool_pool (s s' : AppState) :
  currentWord s' = currentWord s -> length (wordList s) <= length (wordList s') ->
  currentWordInPool s -> currentWordInPool s'.
Proof.
  intros Hc Hlen Hin i Hi. rewrite Hc in Hi.
  apply lookup_lt_is_Some. apply Hin, lookup_lt_is_Some in Hi. lia.
Qed.

(** A handler call keeps the current word in the pool, and an eligible one
    on the learning view. *)
Lemma handlerStep_current (s s' : AppState) :
  handlerStep s s' ->
  currentWordInPool s /\ (currentView s = learning -> currentWordEligible s) ->
  currentWordInPool s' /\ (currentView s' = learning -> currentWordEligible s').
Proof.
  intros Hstep [Hin Hshown].
  destruct Hstep as [j s | p s | u s | s | action u s | s | s | u s].
  - split; [exact Hin | exact Hshown].
  - destruct (addWords_effect p s) as (l & _ & El & Ev & Ec & _).
    split.
    + apply (currentWordInPool_pool s); [exact Ec | | exact Hin].
      rewrite El, length_app. lia.
    + rewrite Ev. intros Hv. destruct (Hshown Hv) as (i & e & Hc & He & Hel).
      exists i, e. rewrite Ec, El. split; [exact Hc|].
      split; [now apply lookup_app_l_Some | exact Hel].
  - destruct (wordList s) as [| x l] eqn:El.
    + rewrite startLearning_empty by exact El. split; [exact Hin | exact Hshown].
    + rewrite startLearning_nonempty by (rewrite El; discriminate).
      apply selectNextWord_current. exact Hin.
  - unfold flipCard. destruct (currentWord s) eqn:Hc; [|split; assumption].
    split.
    + intros i Hi. cbn in Hi |- *. apply Hin. congruence.
    + intros Hv. destruct (Hshown Hv) as (i & e & Hc' & He & Hel).
      exists i, e. auto.
  - unfold updateWordWeight. destruct (currentWord s) as [i|] eqn:Hc;
      [|split; assumption].
    apply selectNextWord_current.
    apply (currentWordInPool_pool s); [reflexivity | | exact Hin].
    cbn. rewrite length_alter. lia.
  - split; [exact Hin | discriminate].
  - split; [exact Hin | discriminate].
  - unfold restartLearning.
    set (s2 := set_learningResults [] (set_wordList (map resetWord (wordList s)) s)).
    assert (Hin2 : currentWordInPool s2).
    { apply (currentWordInPool_pool s); [reflexivity | | exact Hin].
      cbn. rewrite length_map. lia. }
    destruct (wordList s2) as [| x l] eqn:El.
    + rewrite startLearning_empty by exact El. split; [exact Hin2|].
      intros Hv. destruct (Hshown Hv) as (i & e & Hc & He & _).
      exfalso. assert (Hs : is_Some (wordList s2 !! i)) by (apply Hin2; exact Hc).
      rewrite El in Hs. destruct Hs as [y Hy]. discriminate Hy.
    + rewrite startLearning_nonempty by (rewrite El; discriminate).
      apply selectNextWord_current. exact Hin2.
Qed.

(** X1.  In every state of the component the current word, when there is
    one, is an entry of the pool; and while the learning view is up there is
    a current word and the weight of its entry is at least 0.1: the learning
    view never stands without a card and never shows a mastered word. *)
Theorem reachable_current_word (s : AppState) :
  reachable s ->
  currentWordInPool s /\ (currentView s = learning -> currentWordEligible s).
Proof.
  revert s. apply reachable_step_ind.
  - split; [intros i Hi; discriminate Hi | discriminate].
  - intros s s' _ IH Hstep. exact (handlerStep_current s s' Hstep IH).
Qed.

Lemma reachable_current_word_witness :
  currentWordInPool fiveAnswers
  /\ (currentView fiveAnswers = learning -> currentWordEligible fiveAnswers).
Proof.
  apply (reachable_current_word fiveAnswers).
  unfold fiveAnswers, answerKnown, sampleDraws, twoWords. cbn [firstn fold_left].
  do 5 apply reachable_updateWordWeight.
  apply reachable_startLearning, reachable_addWords, reachable_initial.
Defined.

(** X2.  Every entry of the pool of a state of the component holds a record
    that passed the checks of [addWords]: its word and its part of speech are
    non-empty strings and its explanations are a non-empty array of non-empty
    strings.  No handler writes these fields afterwards. *)
Theorem reachable_pool_checked (s : AppState) :
  reachable s -> Forall (fun w => validRecord (toWord w)) (wordList s).
Proof.
  revert s. apply reachable_step_ind; [constructor|].
  intros s s' _ IH Hstep.
  destruct (handlerStep_pool s s' Hstep)
    as [(l & Hl & ->) | [(action & i & _ & ->) | ->]].
  - apply Forall_app. split; [exact IH|].
    apply Forall_forall. intros w Hw.
    apply list_elem_of_In, in_map_iff in Hw. destruct Hw as (x & <- & Hx).
    rewrite Forall_forall in Hl. apply Hl. now apply list_elem_of_In.
  - apply Forall_alter; [exact IH|]. intros w _ Hw. exact Hw.
  - apply Forall_forall. intros w Hw.
    apply list_elem_of_In, in_map_iff in Hw. destruct Hw as (x & <- & Hx).
    rewrite Forall_forall in IH. apply (IH x). now apply list_elem_of_In.
Qed.

Lemma reachable_pool_checked_witness :
  Forall (fun w => validRecord (toWord w)) (wordList finishedSession).
Proof.
  apply (reachable_pool_checked finishedSession).
  unfold finishedSession, answerKnown, sampleDraws, twoWords. cbn [fold_left].
  do 6 apply reachable_updateWordWeight.
  apply reachable_startLearning, reachable_addWords, reachable_initial.
Defined.

(** X3.  In every state of the component an entry with count 0 has weight
    1.0 and sum 0: a word that has not been assessed since it was added or
    reset has its initial numbers. *)
Theorem reachable_fresh_entries (s : AppState) :
  reachable s ->
  Forall (fun w => occurrences w = 0%N -> weight w = 1 /\ totalWeight w = 0)
    (wordList s).
Proof.
  revert s. apply reachable_step_ind; [constructor|].
  intros s s' _ IH Hstep.
  destruct (handlerStep_pool s s' Hstep)
    as [(l & Hl & ->) | [(action & i & _ & ->) | ->]].
  - apply Forall_app. split; [exact IH|].
    apply Forall_forall. intros w Hw.
    apply list_elem_of_In, in_map_iff in Hw. destruct Hw as (x & <- & Hx).
    intros _. split; reflexivity.
  - apply Forall_alter; [exact IH|]. intros w _ _ H0.
    cbn [assess occurrences] in H0.
    pose proof (countUp_pos (occurrences w)). lia.
  - apply Forall_forall. intros w Hw.
    apply list_elem_of_In, in_map_iff in Hw. destruct Hw as (x & <- & Hx).
    intros _. split; reflexivity.
Qed.

Lemma reachable_fresh_entries_witness :
  Forall (fun w => occurrences w = 0%N -> weight w = 1 /\ totalWeight w = 0)
    (wordList firstCard).
Proof.
  apply (reachable_fresh_entries firstCard).
  unfold firstCard, twoWords.
  apply reachable_startLearning, reachable_addWords, reachable_initial.
Defined.

(** The counts of a state of the component are in the range in which
    [N2float] is the count's own double. *)
Lemma reachable_count_range (s : AppState) :
  reachable s ->
  Forall (fun w => (occurrences w <= 9007199254740992)%N) (wordList s).
Proof.
  revert s. apply reachable_step_ind; [constructor|].
  intros s s' _ IH Hstep.
  destruct (handlerStep_pool s s' Hstep)
    as [(l & Hl & ->) | [(action & i & _ & ->) | ->]].
  - apply Forall_app. split; [exact IH|].
    apply Forall_forall. intros w Hw.
    apply list_elem_of_In, in_map_iff in Hw. destruct Hw as (x & <- & Hx).
    cbn. lia.
  - apply Forall_alter; [exact IH|]. intros w _ Hw.
    cbn [assess occurrences]. unfold countUp.
    destruct (N.ltb_spec (occurrences w) 9007199254740992); lia.
  - apply Forall_forall. intros w Hw.
    apply list_elem_of_In, in_map_iff in Hw. destruct Hw as (x & <- & Hx).
    cbn. lia.
Qed.

(** X4.  No handler deletes, reorders or edits the words of the pool: after
    a call the words of the pool are the words before it, in the same order,
    with the added ones behind them. *)
Theorem handlerStep_keeps_words (s s' : AppState) :
  handlerStep s s' ->
  exists added, map toWord (wordList s') = map toWord (wordList s) ++ added.
Proof.
  intros Hstep.
  destruct (handlerStep_pool s s' Hstep)
    as [(l & Hl & ->) | [(action & i & _ & ->) | ->]].
  - exists l. rewrite map_app, map_map. cbn. rewrite map_id. reflexivity.
  - exists []. rewrite app_nil_r.
    generalize (wordList s). clear. intros l. revert i.
    induction l as [| x l IH]; intros [| i]; cbn; try reflexivity.
    f_equal. apply IH.
  - exists []. rewrite app_nil_r, map_map. reflexivity.
Qed.

Lemma handlerStep_keeps_words_witness :
  exists added,
    map toWord (wordList (updateWordWeight known 0.75 firstCard))
    = map toWord (wordList firstCard) ++ added.
Proof.
  apply (handlerStep_keeps_words firstCard (updateWordWeight known 0.75 firstCard)).
  constructor.
Defined.

(** *** The stored results *)

(** A row of the result table: a word that was assessed, with the quotient
    of its sum and its count, a number that is not negative. *)
Definition resultRow (r : LearningResult) : Prop :=
  (0 < r_occurrences r)%N
  /\ unfamiliarity r = r_totalWeight r / N2float (r_occurrences r)
  /\ (0 <=? unfamiliarity r) = true.

Lemma endLearning_rows (s : AppState) :
  wellFormedPool (wordList s) ->
  descending (learningResults (endLearning s))
  /\ Forall resultRow (learningResults (endLearning s)).
Proof.
  intros Hwf. unfold endLearning.
  cbn [learningResults set_currentView set_learningResults].
  split.
  - apply sort_descending. now apply toLearningResult_numbers.
  - apply Forall_forall. intros r Hr.
    rewrite (sort_Permutation compareFn) in Hr.
    apply list_elem_of_In, in_map_iff in Hr. destruct Hr as (w & <- & Hw).
    apply filter_In in Hw. destruct Hw as [Hin Hocc]. apply N.ltb_lt in Hocc.
    unfold wellFormedPool in Hwf. rewrite Forall_forall in Hwf.
    destruct (Hwf w) as [_ Ht]; [now apply list_elem_of_In|].
    unfold resultRow, toLearningResult.
    cbn [r_occurrences unfamiliarity r_totalWeight].
    split; [exact Hocc|]. split; [reflexivity|]. now apply unfamiliarity_nonneg.
Qed.

(** What a handler call does to the results: nothing, or it clears them, or
    it ends the session and stores the results of the pool as it is then. *)
Lemma handlerStep_results (s s' : AppState) :
  handlerStep s s' ->
  learningResults s' = learningResults s
  \/ learningResults s' = []
  \/ (currentView s' = result
      /\ learningResults s' = learningResults (endLearning s')).
Proof.
  assert (Hstart : forall u s0,
            learningResults (startLearning u s0) = learningResults s0
            \/ learningResults (startLearning u s0) = []
            \/ (currentView (startLearning u s0) = result
                /\ learningResults (startLearning u s0)
                   = learningResults (endLearning (startLearning u s0)))).
  { intros u s0. destruct (wordList s0) as [| x l] eqn:El.
    - left. rewrite startLearning_empty by exact El. reflexivity.
    - rewrite startLearning_nonempty by (rewrite El; discriminate).
      destruct (selectNextWord_cases u (set_currentView learning (set_learningResults [] s0)))
        as [(i & e & _ & _ & ->) | [_ ->]].
      + right. left. reflexivity.
      + right. right. split; reflexivity. }
  destruct 1 as [j s | p s | u s | s | action u s | s | s | u s].
  - left. reflexivity.
  - left. destruct (addWords_effect p s) as (l & _ & _ & _ & _ & _ & E). exact E.
  - apply Hstart.
  - left. unfold flipCard. destruct (currentWord s); reflexivity.
  - unfold updateWordWeight. destruct (currentWord s) as [i|]; [|left; reflexivity].
    destruct (selectNextWord_cases u (assessCurrent action i s))
      as [(k & e & _ & _ & ->) | [_ ->]].
    + left. reflexivity.
    + right. right. split; reflexivity.
  - right. right. split; reflexivity.
  - left. reflexivity.
  - unfold restartLearning.
    destruct (Hstart u (set_learningResults []
                          (set_wordList (map resetWord (wordList s)) s)))
      as [H | [H | H]]; [right; left; exact H | right; left; exact H | right; right; exact H].
Qed.

(** X5.  In every state of the component the stored results stand highest
    unfamiliarity first, and each row has a count above zero and, as its
    unfamiliarity, the quotient of its sum and its count, which is a number
    that is not negative: the result table never shows [NaN]. *)
Theorem reachable_results (s : AppState) :
  reachable s ->
  descending (learningResults s) /\ Forall resultRow (learningResults s).
Proof.
  revert s. apply reachable_step_ind.
  - split; constructor.
  - intros s s' Hs IH Hstep.
    destruct (handlerStep_results s s' Hstep) as [-> | [-> | [_ ->]]].
    + exact IH.
    + split; constructor.
    + apply endLearning_rows. apply reachable_wellFormed.
      now apply (reachable_handlerStep s).
Qed.

Lemma reachable_results_witness :
  descending (learningResults finishedSession)
  /\ Forall resultRow (learningResults finishedSession).
Proof.
  apply (reachable_results finishedSession).
  unfold finishedSession, answerKnown, sampleDraws, twoWords. cbn [fold_left].
  do 6 apply reachable_updateWordWeight.
  apply reachable_startLearning, reachable_addWords, reachable_initial.
Defined.

(** ** Restart *)

Lemma restartLearning_nonempty (u : float) (s : AppState) :
  wordList s <> [] ->
  currentView (restartLearning u s) = learning
  /\ learningResults (restartLearning u s) = []
  /\ isCardFlipped (restartLearning u s) = false
  /\ exists i e, currentWord (restartLearning u s) = Some i
                 /\ wordList (restartLearning u s) !! i = Some e
                 /\ weight e = 1.
Proof.
  intros Hne. unfold restartLearning.
  set (s2 := set_learningResults [] (set_wordList (map resetWord (wordList s)) s)).
  destruct (startLearning_selects u s2) as (i & E & [e He]).
  - unfold s2. cbn. destruct (wordList s); [congruence | discriminate].
  - apply resetWord_eligible. exact Hne.
  - rewrite E. cbn [currentView set_isCardFlipped set_currentWord set_currentView
                     set_learningResults learningResults isCardFlipped currentWord
                     wordList].
    split; [reflexivity|]. split; [reflexivity|]. split; [reflexivity|].
    exists i, e. split; [reflexivity|]. split; [exact He|].
    unfold s2 in He. cbn [wordList set_learningResults set_wordList] in He.
    apply list_elem_of_lookup_2, list_elem_of_In, in_map_iff in He.
    destruct He as (x & <- & _). reflexivity.
Qed.

(** X6.  On a pool that is not empty [restartLearning] always shows a card:
    the learning view is up, the results are empty, the card is face down and
    the current word is an entry of weight 1.0.  (A start, by contrast, can
    end at once.)  On an empty pool it clears the results and nothing else. *)
Theorem restartLearning_shows_card (u : float) (s : AppState) :
  (wordList s <> [] ->
   currentView (restartLearning u s) = learning
   /\ learningResults (restartLearning u s) = []
   /\ isCardFlipped (restartLearning u s) = false
   /\ exists i e, currentWord (restartLearning u s) = Some i
                  /\ wordList (restartLearning u s) !! i = Some e
                  /\ weight e = 1)
  /\ (wordList s = [] -> restartLearning u s = set_learningResults [] s).
Proof.
  split; [apply restartLearning_nonempty|].
  intros E. unfold restartLearning. rewrite startLearning_empty.
  - rewrite E. cbn [map]. destruct s. cbn in E. subst. reflexivity.
  - cbn. rewrite E. reflexivity.
Qed.

(** After the sample session, a restart shows a card again. *)
Example restartLearning_after_session :
  currentView finishedSession = result
  /\ currentView (restartLearning 0.4 finishedSession) = learning
  /\ currentWord (restartLearning 0.4 finishedSession) = Some 0%nat.
Proof. vm_compute. repeat split; reflexivity. Qed.

(** ** Assessment *)

(** X7.  An answer "unknown" or "vague" to an eligible current word never
    ends the session: the word stays eligible, so the selection that follows
    shows a card, and the view and the results stay as they are.  Only
    "known" answers, or the button to end early, end a session. *)
Theorem updateWordWeight_keeps_session
    (action : Action) (u : float) (s : AppState) (i : nat) (e : WordWithWeight) :
  currentWord s = Some i ->
  wordList s !! i = Some e ->
  (0.1 <=? weight e) = true ->
  action <> known ->
  In (i, assess action e) (eligibleWords (wordList (updateWordWeight action u s)))
  /\ currentView (updateWordWeight action u s) = currentView s
  /\ learningResults (updateWordWeight action u s) = learningResults s
  /\ currentWordEligible (updateWordWeight action u s).
Proof.
  intros Hc He Hel Hact.
  assert (Hin : In (i, assess action e)
                  (eligibleWords (wordList (assessCurrent action i s)))).
  { apply eligibleWords_In. split.
    - cbn. rewrite list_lookup_alter_eq, He. reflexivity.
    - destruct action; cbn [assess weight adjustWeight]; [|exact Hel | congruence].
      now apply FloatOrder.mul_216_eligible. }
  unfold updateWordWeight. rewrite Hc.
  destruct (selectNextWord_cases u (assessCurrent action i s))
    as [(k & e' & Hk & Hel' & ->) | [Hnone _]].
  - split; [exact Hin|]. split; [reflexivity|]. split; [reflexivity|].
    exists k, e'. auto.
  - rewrite Hnone in Hin. destruct Hin.
Qed.

Lemma updateWordWeight_keeps_session_witness :
  In (0%nat, assess unknown (newWordWithWeight apple))
    (eligibleWords (wordList (updateWordWeight unknown 0.75 firstCard)))
  /\ currentView (updateWordWeight unknown 0.75 firstCard) = currentView firstCard
  /\ learningResults (updateWordWeight unknown 0.75 firstCard)
     = learningResults firstCard
  /\ currentWordEligible (updateWordWeight unknown 0.75 firstCard).
Proof.
  apply (updateWordWeight_keeps_session unknown 0.75 firstCard 0
           (newWordWithWeight apple)).
  - reflexivity.
  - reflexivity.
  - reflexivity.
  - discriminate.
Defined.

(** ** Selection at the edges *)

(** A [random] that is [NaN] passes no test of the loop. *)
Lemma walk_nan (random : float) (ws : list (nat * WordWithWeight)) :
  forall c : float, is_nan random = true -> walk random c ws = None.
Proof.
  induction ws as [| w rest IH]; intros c Hn; cbn [walk]; [reflexivity|].
  rewrite (FloatOrder.nan_leb random _ Hn). now apply IH.
Qed.

(** X8.  When [Math.random()] returns 0, the lower end of its range, the
    word selected is the first eligible word of the pool, whatever the
    weights are: by the loop when the total is finite, by the fallback
    when it is [infinity]. *)
Theorem selectNextWord_zero_draw
    (s : AppState) (first : nat * WordWithWeight) (rest : list (nat * WordWithWeight)) :
  eligibleWords (wordList s) = first :: rest ->
  selectNextWord 0 s = set_isCardFlipped false (set_currentWord (Some (fst first)) s).
Proof.
  intros E. unfold selectNextWord.
  pose proof (totalWeightOf_nonneg (wordList s)) as Ht.
  rewrite E in Ht |- *. cbn [length Nat.eqb Nat.ltb Nat.leb].
  set (t := totalWeightOf (first :: rest)) in *.
  destruct (is_nan (0 * t)) eqn:Hn.
  - rewrite walk_nan by exact Hn. reflexivity.
  - cbn [walk]. rewrite (FloatOrder.mul_zero_leb t _ Ht Hn).
    assert (Hw : (0 <=? weight (snd first)) = true).
    { assert (Hin : In first (eligibleWords (wordList s))) by (rewrite E; left; reflexivity).
      destruct first as [i w]. apply eligibleWords_In in Hin. destruct Hin as [_ Hel].
      apply (FloatFacts.leb_trans 0 0.1 _); [reflexivity | exact Hel]. }
    rewrite (FloatFacts.add_nonneg 0 _ eq_refl Hw). reflexivity.
Qed.

Lemma selectNextWord_zero_draw_witness :
  selectNextWord 0 drilled
  = set_isCardFlipped false
      (set_currentWord (Some (fst (0%nat, mkWordWithWeight apple infinity 922 infinity)))
         drilled).
Proof.
  apply (selectNextWord_zero_draw drilled
           (0%nat, mkWordWithWeight apple infinity 922 infinity)
           [(1%nat, newWordWithWeight pear)]).
  vm_compute. reflexivity.
Defined.

(** X9.  When one word is left eligible it is the word selected, whatever
    [Math.random()] returns. *)
Theorem selectNextWord_last_word (u : float) (s : AppState) (only : nat * WordWithWeight) :
  eligibleWords (wordList s) = [only] ->
  selectNextWord u s = set_isCardFlipped false (set_currentWord (Some (fst only)) s).
Proof.
  intros E.
  destruct (selectNextWord_eligible u s) as (k & w & Hk & -> & _);
    [rewrite E; discriminate|].
  rewrite E in Hk. destruct k as [| k]; cbn in Hk; [|discriminate Hk].
  inversion Hk; subst. reflexivity.
Qed.

Lemma selectNextWord_last_word_witness :
  selectNextWord 0.99 fiveAnswers
  = set_isCardFlipped false
      (set_currentWord
         (Some (fst (0%nat, mkWordWithWeight apple 0.21433470507544577 2
                              0.67729766803840863)))
         fiveAnswers).
Proof.
  apply (selectNextWord_last_word 0.99 fiveAnswers
           (0%nat, mkWordWithWeight apple 0.21433470507544577 2 0.67729766803840863)).
  vm_compute. reflexivity.
Defined.

(** ** What the page adds *)

(** The sample session through the page: the words are added, the session
    starts, the card is turned and answered "known"; then the session is
    ended early. *)
Definition uiFirstAnswer : AppState :=
  updateWordWeight known 0.9 (flipCard (startLearning 0.6 twoWords)).

Definition uiEnded : AppState := endLearningEarly uiFirstAnswer.

Lemma uiReachable_uiFirstAnswer : uiReachable uiFirstAnswer.
Proof.
  apply (ui_next (flipCard (startLearning 0.6 twoWords))).
  - apply (ui_next (startLearning 0.6 twoWords)).
    + apply (ui_next twoWords).
      * apply (ui_next initialState); [apply ui_initial|].
        unfold twoWords. apply ui_addWords. reflexivity.
      * apply ui_startLearning; reflexivity.
    + apply ui_flipCard; [reflexivity | discriminate].
  - apply ui_updateWordWeight; [reflexivity | discriminate | reflexivity].
Defined.

Lemma uiReachable_uiEnded : uiReachable uiEnded.
Proof.
  apply (ui_next uiFirstAnswer); [exact uiReachable_uiFirstAnswer|].
  apply ui_endLearningEarly. reflexivity.
Defined.

Lemma flipCard_wordList (s : AppState) : wordList (flipCard s) = wordList s.
Proof. unfold flipCard. destruct (currentWord s); reflexivity. Qed.

(** X10.  On the page, whenever the result view is up the table shows the
    results of the pool as it is: every way into the result view computes
    them, and nothing that can be clicked there changes the pool without
    leaving the view. *)
Theorem uiReachable_results_current (s : AppState) :
  uiReachable s ->
  currentView s = result ->
  learningResults s = learningResults (endLearning s).
Proof.
  assert (Hstart : forall u s0,
            wordList s0 <> [] ->
            currentView (startLearning u s0) = result ->
            learningResults (startLearning u s0)
            = learningResults (endLearning (startLearning u s0))).
  { intros u s0 Hne. rewrite startLearning_nonempty by exact Hne.
    destruct (selectNextWord_cases u (set_currentView learning (set_learningResults [] s0)))
      as [(i & e & _ & _ & ->) | [_ ->]]; [discriminate | reflexivity]. }
  destruct 1 as [| s s' _ Hstep]; [discriminate|].
  destruct Hstep as [j s Hv | p s Hv | u s Hv Hcan | s Hv | s Hv Hc
                     | action u s Hv Hc Hf | s Hv | u s Hv].
  - cbn. rewrite Hv. discriminate.
  - destruct (addWords_effect p s) as (l & _ & _ & Ev & _). rewrite Ev, Hv. discriminate.
  - apply Hstart. unfold canStartLearning in Hcan.
    destruct (wordList s); [discriminate Hcan | discriminate].
  - reflexivity.
  - unfold flipCard. destruct (currentWord s); cbn; rewrite Hv; discriminate.
  - unfold updateWordWeight. destruct (currentWord s) as [i|]; [|congruence].
    destruct (selectNextWord_cases u (assessCurrent action i s))
      as [(k & e & _ & _ & ->) | [_ ->]]; [|reflexivity].
    cbn. rewrite Hv. discriminate.
  - discriminate.
  - unfold restartLearning.
    set (s2 := set_learningResults [] (set_wordList (map resetWord (wordList s)) s)).
    destruct (wordList s2) as [| x l] eqn:El.
    + rewrite startLearning_empty by exact El. intros _.
      unfold endLearning. cbn [learningResults set_currentView set_learningResults].
      rewrite El. reflexivity.
    + apply Hstart. rewrite El. discriminate.
Qed.

Lemma uiReachable_results_current_witness :
  learningResults uiEnded = learningResults (endLearning uiEnded).
Proof.
  apply (uiReachable_results_current uiEnded).
  - exact uiReachable_uiEnded.
  - reflexivity.
Defined.

(** Without the page's guards the table can be stale: an answer given on
    the result view changes the pool and leaves the stored results. *)
Example results_stale_off_page :
  currentView (updateWordWeight unknown 0.5 uiEnded) = result
  /\ map unfamiliarity (learningResults (updateWordWeight unknown 0.5 uiEnded))
     = [0.46296296296296291]
  /\ map unfamiliarity
       (learningResults (endLearning (updateWordWeight unknown 0.5 uiEnded)))
     = [0.73148148148148140].
Proof. vm_compute. repeat split; reflexivity. Qed.

Lemma uiStep_length (s s' : AppState) :
  uiStep s s' -> length (wordList s) <= length (wordList s').
Proof.
  intros Hstep. apply uiStep_handlerStep in Hstep.
  destruct (handlerStep_pool s s' Hstep)
    as [(l & Hl & ->) | [(action & i & _ & ->) | ->]].
  - rewrite length_app. lia.
  - rewrite length_alter. lia.
  - rewrite length_map. lia.
Qed.

Lemma uiReachable_session_nonempty (s : AppState) :
  uiReachable s -> currentView s <> home -> wordList s <> [].
Proof.
  induction 1 as [| s s' Hs IH Hstep]; [intros H; exfalso; apply H; reflexivity|].
  intros Hv.
  assert (Hkeep : wordList s <> [] -> wordList s' <> []).
  { intros Hne E. pose proof (uiStep_length s s' Hstep) as Hlen.
    rewrite E in Hlen. destruct (wordList s); [congruence | cbn in Hlen; lia]. }
  destruct Hstep as [j s Hv0 | p s Hv0 | u s Hv0 Hcan | s Hv0 | s Hv0 Hc
                     | action u s Hv0 Hc Hf | s Hv0 | u s Hv0].
  - exfalso. apply Hv. exact Hv0.
  - exfalso. apply Hv. destruct (addWords_effect p s) as (l & _ & _ & Ev & _).
    rewrite Ev. exact Hv0.
  - apply Hkeep. unfold canStartLearning in Hcan.
    destruct (wordList s); [discriminate Hcan | discriminate].
  - apply Hkeep, IH. rewrite Hv0. discriminate.
  - apply Hkeep, IH. rewrite Hv0. discriminate.
  - apply Hkeep, IH. rewrite Hv0. discriminate.
  - exfalso. apply Hv. reflexivity.
  - apply Hkeep, IH. rewrite Hv0. discriminate.
Qed.

(** X11.  On the page a session always has words: off the home view the
    pool is not empty.  So the guard of [startLearning] never turns a click on
    "restart" into a call that does nothing: from the result view
    [restartLearning] always leads to the learning view with a card. *)
Theorem uiReachable_restart_starts (u : float) (s : AppState) :
  uiReachable s ->
  currentView s = result ->
  wordList s <> []
  /\ currentView (restartLearning u s) = learning
  /\ is_Some (currentWord (restartLearning u s)).
Proof.
  intros Hs Hv.
  assert (Hne : wordList s <> []).
  { apply uiReachable_session_nonempty; [exact Hs|]. rewrite Hv. discriminate. }
  split; [exact Hne|].
  destruct (restartLearning_nonempty u s Hne) as (Hview & _ & _ & i & e & Hc & _).
  split; [exact Hview|]. rewrite Hc. eauto.
Qed.

Lemma uiReachable_restart_starts_witness :
  wordList uiEnded <> []
  /\ currentView (restartLearning 0.3 uiEnded) = learning
  /\ is_Some (currentWord (restartLearning 0.3 uiEnded)).
Proof.
  apply (uiReachable_restart_starts 0.3 uiEnded).
  - exact uiReachable_uiEnded.
  - reflexivity.
Defined.

(** X12.  On the page every weight of the pool stays above zero: an answer
    can only be given to the word on the card, whose weight is at least 0.1,
    and neither the product nor the quotient by 2.16 of such a weight is
    zero. *)
Theorem uiReachable_weights_positive (s : AppState) :
  uiReachable s -> Forall (fun w => (0 <? weight w) = true) (wordList s).
Proof.
  induction 1 as [| s s' Hs IH Hstep]; [constructor|].
  assert (Hreset : forall l : list WordWithWeight,
            Forall (fun w => (0 <? weight w) = true) (map resetWord l)).
  { intros l. apply Forall_forall. intros w Hw.
    apply list_elem_of_In, in_map_iff in Hw. destruct Hw as (x & <- & _). reflexivity. }
  destruct Hstep as [j s Hv | p s Hv | u s Hv Hcan | s Hv | s Hv Hc
                     | action u s Hv Hc Hf | s Hv | u s Hv].
  - exact IH.
  - destruct (addWords_effect p s) as (l & _ & -> & _).
    apply Forall_app. split; [exact IH|].
    apply Forall_forall. intros w Hw.
    apply list_elem_of_In, in_map_iff in Hw. destruct Hw as (x & <- & _). reflexivity.
  - rewrite startLearning_wordList. exact IH.
  - exact IH.
  - rewrite flipCard_wordList. exact IH.
  - assert (Hel : currentWordInPool s
                  /\ (currentView s = learning -> currentWordEligible s)).
    { clear -Hs. induction Hs as [| s s' _ IH Hstep].
      - split; [intros i Hi; discriminate Hi | discriminate].
      - exact (handlerStep_current s s' (uiStep_handlerStep s s' Hstep) IH). }
    destruct Hel as [_ Hel].
    destruct (Hel Hv) as (i & e & Hi & He & Hw).
    rewrite (updateWordWeight_wordList action u s i Hi).
    apply Forall_alter; [exact IH|]. intros x Hx _.
    rewrite He in Hx. inversion Hx; subst x.
    destruct action; cbn [assess weight adjustWeight].
    + apply FloatOrder.eligible_pos. now apply FloatOrder.mul_216_eligible.
    + now apply FloatOrder.eligible_pos.
    + now apply FloatOrder.div_216_pos.
  - exact IH.
  - unfold restartLearning. rewrite startLearning_wordList. apply Hreset.
Qed.

Lemma uiReachable_weights_positive_witness :
  Forall (fun w => (0 <? weight w) = true) (wordList uiFirstAnswer).
Proof.
  apply (uiReachable_weights_positive uiFirstAnswer).
  exact uiReachable_uiFirstAnswer.
Defined.

(** ** Ties in the result table *)

(** The results whose unfamiliarity equals [v], in the order of the list. *)
Definition tiedAt (v : float) (rs : list LearningResult) : list LearningResult :=
  List.filter (fun r => unfamiliarity r =? v) rs.

Lemma tiedAt_below (v : float) (x : LearningResult) (rs : list LearningResult) :
  (unfamiliarity x =? v) = true ->
  Forall (fun r => (unfamiliarity r <? unfamiliarity x) = true) rs ->
  tiedAt v rs = [].
Proof.
  intros Hx. induction 1 as [| r rs Hr _ IH]; [reflexivity|].
  unfold tiedAt. cbn [List.filter]. fold (tiedAt v rs). rewrite IH.
  destruct (unfamiliarity r =? v) eqn:E; [|reflexivity].
  exfalso. apply FloatOrder.eqb_ord in Hx, E. apply FloatOrder.ltb_ord in Hr.
  destruct Hx as (_ & _ & Hx), E as (_ & _ & E), Hr as (_ & _ & Hr). lia.
Qed.

Lemma tiedAt_app (v : float) (rs rs' : list LearningResult) :
  tiedAt v (rs ++ rs') = tiedAt v rs ++ tiedAt v rs'.
Proof. apply List.filter_app. Qed.

Lemma tiedAt_cons (v : float) (r : LearningResult) (rs : list LearningResult) :
  tiedAt v (r :: rs) = tiedAt v [r] ++ tiedAt v rs.
Proof. apply (tiedAt_app v [r] rs). Qed.

(** A new result goes behind the results of the same unfamiliarity. *)
Lemma insertSorted_tiedAt (v : float) (x : LearningResult) (sorted : list LearningResult) :
  numberResult x -> Forall numberResult sorted -> descending sorted ->
  tiedAt v (insertSorted compareFn x sorted) = tiedAt v (sorted ++ [x]).
Proof.
  intros Hx. induction sorted as [| y rest IH]; intros Hn Hs; cbn [insertSorted];
    [reflexivity|].
  apply Forall_cons in Hn. destruct Hn as [Hy Hrest].
  inversion Hs as [| y' rest' Hs' Hbelow]; subst.
  rewrite (compareFn_positive y x Hy Hx).
  destruct (unfamiliarity y <? unfamiliarity x) eqn:E.
  - rewrite tiedAt_app, (tiedAt_cons v x (y :: rest)).
    destruct (unfamiliarity x =? v) eqn:Ex.
    + assert (Hnone : tiedAt v (y :: rest) = []).
      { apply (tiedAt_below v x); [exact Ex|].
        constructor; [exact E|].
        eapply Forall_impl; [exact Hbelow|]. intros z Hz. cbn beta in Hz.
        apply FloatOrder.ltb_ord. apply FloatOrder.ltb_ord in E.
        apply FloatFacts.leb_ord in Hz.
        destruct E as (_ & Nx & E), Hz as (Nz & _ & Hz).
        split; [exact Nz|]. split; [exact Nx|]. lia. }
      rewrite Hnone, app_nil_r. reflexivity.
    + assert (Hx0 : tiedAt v [x] = []) by (unfold tiedAt; cbn; rewrite Ex; reflexivity).
      rewrite Hx0, app_nil_r. reflexivity.
  - change ((y :: rest) ++ [x]) with (y :: (rest ++ [x])).
    rewrite (tiedAt_cons v y (insertSorted compareFn x rest)),
      (tiedAt_cons v y (rest ++ [x])).
    rewrite (IH Hrest Hs'). reflexivity.
Qed.

Lemma sort_from_tiedAt (v : float) (l : list LearningResult) :
  forall acc : list LearningResult,
  Forall numberResult l -> Forall numberResult acc -> descending acc ->
  tiedAt v (fold_left (fun sorted x => insertSorted compareFn x sorted) l acc)
  = tiedAt v (acc ++ l).
Proof.
  induction l as [| x l IH]; intros acc Hl Hacc Hs; cbn [fold_left].
  - rewrite app_nil_r. reflexivity.
  - apply Forall_cons in Hl. destruct Hl as [Hx Hl].
    rewrite IH by (auto using insertSorted_numbers, insertSorted_descending).
    rewrite tiedAt_app, (insertSorted_tiedAt v x acc Hx Hacc Hs).
    rewrite <- tiedAt_app, <- app_assoc. reflexivity.
Qed.

(** X13.  Ties keep the order of the pool: on a well-formed pool, the
    results of [endLearning] that share an unfamiliarity stand in the order
    in which their words stand in the pool. *)
Theorem endLearning_ties_in_pool_order (v : float) (s : AppState) :
  wellFormedPool (wordList s) ->
  tiedAt v (learningResults (endLearning s))
  = tiedAt v (map toLearningResult
                (List.filter (fun w => (0 <? occurrences w)%N) (wordList s))).
Proof.
  intros Hwf. unfold endLearning, sort.
  cbn [learningResults set_currentView set_learningResults].
  rewrite sort_from_tiedAt; [reflexivity | | constructor | constructor].
  now apply toLearningResult_numbers.
Qed.

Lemma endLearning_ties_in_pool_order_witness :
  tiedAt 0.2588422327219766 (learningResults (endLearning finishedSession))
  = tiedAt 0.2588422327219766
      (map toLearningResult
         (List.filter (fun w => (0 <? occurrences w)%N) (wordList finishedSession))).
Proof.
  apply (endLearning_ties_in_pool_order 0.2588422327219766 finishedSession).
  repeat constructor.
Defined.

(** In the sample session both words end with the same unfamiliarity, and
    the table lists them as the pool does. *)
Example endLearning_tie :
  map (fun r => (r_word r, unfamiliarity r)) (learningResults finishedSession)
  = [(Some "apple"%string, 0.2588422327219766);
     (Some "pear"%string, 0.2588422327219766)].
Proof. vm_compute. reflexivity. Qed.

(** ** Counting the answers *)

(** The sum of the counts of a pool, and of a result table. *)
Definition poolCount (l : list WordWithWeight) : N :=
  fold_right N.add 0%N (map occurrences l).

Definition tableCount (rs : list LearningResult) : N :=
  fold_right N.add 0%N (map r_occurrences rs).

(** While the counts of a pool sum to less than 2^53, no count has stopped,
    and an assessment adds one to the sum. *)
Lemma poolCount_alter (action : Action) (l : list WordWithWeight) : forall i : nat,
  i < length l -> (poolCount l < 9007199254740992)%N ->
  poolCount (alter (assess action) i l) = (poolCount l + 1)%N.
Proof.
  unfold poolCount.
  induction l as [| x l IH]; intros [| i] Hi Hsum; cbn in Hi; try lia.
  - cbn [alter list_alter map fold_right assess occurrences] in Hsum |- *.
    rewrite countUp_below by lia. lia.
  - cbn [alter list_alter map fold_right] in Hsum |- *.
    change (list_alter (assess action) i l) with (alter (assess action) i l).
    rewrite IH by lia. lia.
Qed.

Lemma tableCount_Permutation (rs rs' : list LearningResult) :
  Permutation rs rs' -> tableCount rs = tableCount rs'.
Proof.
  unfold tableCount. induction 1; cbn; lia.
Qed.

Lemma tableCount_pool (l : list WordWithWeight) :
  tableCount (map toLearningResult (List.filter (fun w => (0 <? occurrences w)%N) l))
  = poolCount l.
Proof.
  unfold tableCount, poolCount.
  induction l as [| x l IH]; [reflexivity|]. cbn [List.filter map fold_right].
  destruct (0 <? occurrences x)%N eqn:E; cbn [map fold_right toLearningResult r_occurrences].
  - rewrite IH. reflexivity.
  - apply N.ltb_ge in E. rewrite IH. lia.
Qed.

(** The table of [endLearning] counts what the pool counts. *)
Lemma endLearning_tableCount (s : AppState) :
  tableCount (learningResults (endLearning s)) = poolCount (wordList s).
Proof.
  unfold endLearning. cbn [learningResults set_currentView set_learningResults].
  rewrite (tableCount_Permutation _ _ (sort_Permutation compareFn _)).
  apply tableCount_pool.
Qed.

Lemma answerAll_count (answers : list (Action * float)) : forall s : AppState,
  (exists i, currentWord s = Some i /\ i < length (wordList s)) ->
  (poolCount (wordList s) + N.of_nat (length answers) <= 9007199254740992)%N ->
  poolCount (wordList (answerAll answers s))
  = (poolCount (wordList s) + N.of_nat (length answers))%N.
Proof.
  induction answers as [| [action u] answers IH]; intros s (i & Hc & Hi) Hsum.
  - cbn. lia.
  - cbn [answerAll fold_left fst snd length] in Hsum |- *.
    change (fold_left _ answers ?s0) with (answerAll answers s0).
    assert (Hpool : poolCount (wordList (updateWordWeight action u s))
                    = (poolCount (wordList s) + 1)%N).
    { rewrite (updateWordWeight_wordList action u s i Hc).
      apply poolCount_alter; [exact Hi | lia]. }
    rewrite IH.
    + rewrite Hpool. lia.
    + unfold updateWordWeight in *. rewrite Hc in *.
      destruct (selectNextWord_cases u (assessCurrent action i s))
        as [(k & e & Hk & _ & E) | [_ E]]; rewrite E in *.
      * exists k. split; [reflexivity|]. cbn.
        apply lookup_lt_is_Some. cbn in Hk. eauto.
      * exists i. split; [exact Hc|]. cbn. rewrite length_alter. exact Hi.
    + rewrite Hpool. lia.
Qed.

(** X14.  Every answer is counted once: after a restart on a pool that is
    not empty and any answers, at most 2^53 of them (beyond that a double no
    longer counts up), the counts of the result table sum to the number of
    answers given, whatever the answers are and whatever words the random
    choice presents. *)
Theorem answers_are_counted
    (u : float) (answers : list (Action * float)) (s : AppState) :
  wordList s <> [] ->
  (N.of_nat (length answers) <= 9007199254740992)%N ->
  tableCount (learningResults
                (endLearningEarly (answerAll answers (restartLearning u s))))
  = N.of_nat (length answers).
Proof.
  intros Hne Hlen. unfold endLearningEarly. rewrite endLearning_tableCount.
  destruct (restartLearning_nonempty u s Hne) as (_ & _ & _ & i & e & Hc & He & _).
  assert (H0 : poolCount (wordList (restartLearning u s)) = 0%N).
  { unfold restartLearning. rewrite startLearning_wordList.
    cbn [wordList set_learningResults set_wordList].
    unfold poolCount. clear. induction (wordList s) as [| x l IH]; [reflexivity|].
    cbn [map fold_right resetWord occurrences]. rewrite IH. reflexivity. }
  rewrite answerAll_count.
  - rewrite H0. lia.
  - exists i. split; [exact Hc|]. apply lookup_lt_is_Some. eauto.
  - rewrite H0. lia.
Qed.

Lemma answers_are_counted_witness :
  tableCount (learningResults
                (endLearningEarly
                   (answerAll [(unknown, 0.3); (vague, 0.8); (known, 0.1)]
                      (restartLearning 0.4 finishedSession))))
  = N.of_nat (length [(unknown, 0.3); (vague, 0.8); (known, 0.1)]).
Proof.
  apply (answers_are_counted 0.4 [(unknown, 0.3); (vague, 0.8); (known, 0.1)]
           finishedSession).
  - vm_compute. discriminate.
  - vm_compute. discriminate.
Defined.

(** Past 2^53 answers the count of the table falls behind: on
    [vagueDrill] one more answer leaves the table's count at 2^53. *)
Example count_falls_behind :
  poolCount (wordList (vagueDrill 9007199254740992)) = 9007199254740992%N
  /\ poolCount (wordList (updateWordWeight vague 0 (vagueDrill 9007199254740992)))
     = 9007199254740992%N.
Proof.
  destruct (vagueDrill_state 9007199254740992) as [sum E].
  destruct (vagueDrill_state (N.succ 9007199254740992)) as [sum' E'].
  rewrite vagueDrill_succ in E'. rewrite E', E. split; reflexivity.
Qed.

(** ** Mastering takes three answers *)

(** The weights an entry can have after no, one and two answers. *)
Definition earlyWeight (n : N) (w : float) : Prop :=
  (n = 0%N -> w = 1)
  /\ (n = 1%N -> exists a, w = adjustWeight a 1)
  /\ (n = 2%N -> exists a b, w = adjustWeight b (adjustWeight a 1)).

Lemma earlyWeight_assess (action : Action) (e : WordWithWeight) :
  earlyWeight (occurrences e) (weight e) ->
  earlyWeight (occurrences (assess action e)) (weight (assess action e)).
Proof.
  intros (H0 & H1 & H2). cbn [assess occurrences weight].
  assert (Hup : countUp (occurrences e) = (occurrences e + 1)%N
                \/ (9007199254740992 <= countUp (occurrences e))%N).
  { unfold countUp. destruct (N.ltb_spec (occurrences e) 9007199254740992); lia. }
  split; [lia|]. split.
  - intros Hn. exists action. rewrite H0 by lia. reflexivity.
  - intros Hn. destruct H1 as [a Ha]; [lia|]. exists a, action. rewrite Ha. reflexivity.
Qed.

Lemma reachable_earlyWeight (s : AppState) :
  reachable s ->
  Forall (fun e => earlyWeight (occurrences e) (weight e)) (wordList s).
Proof.
  assert (Hnew : forall x : Word, earlyWeight 0 1)
    by (intros _; split; [reflexivity | split; lia]).
  revert s. apply reachable_step_ind; [constructor|].
  intros s s' _ IH Hstep.
  destruct (handlerStep_pool s s' Hstep)
    as [(l & Hl & ->) | [(action & i & _ & ->) | ->]].
  - apply Forall_app. split; [exact IH|].
    apply Forall_forall. intros w Hw.
    apply list_elem_of_In, in_map_iff in Hw. destruct Hw as (x & <- & Hx).
    exact (Hnew x).
  - apply Forall_alter; [exact IH|]. intros w _. apply earlyWeight_assess.
  - apply Forall_forall. intros w Hw.
    apply list_elem_of_In, in_map_iff in Hw. destruct Hw as (x & <- & Hx).
    exact (Hnew (toWord x)).
Qed.

Lemma earlyWeight_eligible (n : N) (w : float) :
  earlyWeight n w -> (n < 3)%N -> (0.1 <=? w) = true.
Proof.
  intros (H0 & H1 & H2) Hn.
  assert (Hcases : n = 0%N \/ n = 1%N \/ n = 2%N) by lia.
  destruct Hcases as [E | [E | E]].
  - rewrite (H0 E). reflexivity.
  - destruct (H1 E) as [a ->]. destruct a; reflexivity.
  - destruct (H2 E) as (a & b & ->). destruct a, b; reflexivity.
Qed.

(** X15.  No word is mastered in fewer than three answers: in every state
    of the component an entry with a count below 3 has a weight of at least
    0.1, so it is still eligible, whatever the answers were. *)
Theorem reachable_early_eligible (s : AppState) :
  reachable s ->
  Forall (fun e => (occurrences e < 3)%N -> (0.1 <=? weight e) = true) (wordList s).
Proof.
  intros Hs. eapply Forall_impl; [exact (reachable_earlyWeight s Hs)|].
  intros e He. now apply earlyWeight_eligible.
Qed.

Lemma reachable_early_eligible_witness :
  Forall (fun e => (occurrences e < 3)%N -> (0.1 <=? weight e) = true)
    (wordList fiveAnswers).
Proof.
  apply (reachable_early_eligible fiveAnswers).
  unfold fiveAnswers, answerKnown, sampleDraws, twoWords. cbn [firstn fold_left].
  do 5 apply reachable_updateWordWeight.
  apply reachable_startLearning, reachable_addWords, reachable_initial.
Defined.

(** X16.  When a session ends because no word is eligible, the result
    table has a row for every word of the pool, and every row has a count of
    at least 3. *)
Theorem reachable_mastered_table (u : float) (s : AppState) :
  reachable s ->
  eligibleWords (wordList s) = [] ->
  selectNextWord u s = endLearning s
  /\ Permutation (learningResults (endLearning s)) (map toLearningResult (wordList s))
  /\ Forall (fun r => (3 <= r_occurrences r)%N) (learningResults (endLearning s)).
Proof.
  intros Hs Hnone.
  assert (Hall : Forall (fun e => (3 <= occurrences e)%N) (wordList s)).
  { pose proof (reachable_earlyWeight s Hs) as Hearly.
    rewrite Forall_lookup in Hearly |- *. intros i e He.
    destruct (N.lt_ge_cases (occurrences e) 3) as [Hlt | Hge]; [|exact Hge].
    exfalso.
    assert (Hin : In (i, e) (eligibleWords (wordList s))).
    { apply eligibleWords_In. split; [exact He|].
      apply (earlyWeight_eligible (occurrences e)); [exact (Hearly i e He) | exact Hlt]. }
    rewrite Hnone in Hin. destruct Hin. }
  assert (Hfilter : List.filter (fun w => (0 <? occurrences w)%N) (wordList s) = wordList s).
  { clear -Hall. induction Hall as [| e l He _ IH]; [reflexivity|].
    cbn [List.filter]. rewrite IH.
    assert (E : (0 <? occurrences e)%N = true) by (apply N.ltb_lt; lia).
    rewrite E. reflexivity. }
  split; [now apply selectNextWord_finished|].
  unfold endLearning. cbn [learningResults set_currentView set_learningResults].
  rewrite Hfilter.
  pose proof (sort_Permutation compareFn (map toLearningResult (wordList s))) as Hperm.
  split; [exact Hperm|].
  rewrite Hperm. apply Forall_forall. intros r Hr.
  apply list_elem_of_In, in_map_iff in Hr. destruct Hr as (e & <- & He).
  rewrite Forall_forall in Hall. apply (Hall e). now apply list_elem_of_In.
Qed.

Lemma reachable_mastered_table_witness :
  selectNextWord 0.5 finishedSession = endLearning finishedSession
  /\ Permutation (learningResults (endLearning finishedSession))
       (map toLearningResult (wordList finishedSession))
  /\ Forall (fun r => (3 <= r_occurrences r)%N)
       (learningResults (endLearning finishedSession)).
Proof.
  apply (reachable_mastered_table 0.5 finishedSession).
  - unfold finishedSession, answerKnown, sampleDraws, twoWords. cbn [fold_left].
    do 6 apply reachable_updateWordWeight.
    apply reachable_startLearning, reachable_addWords, reachable_initial.
  - vm_compute. reflexivity.
Defined.

(** ** The card *)

(** X17.  Turning the card twice brings back the state: [flipCard] is its
    own inverse, with or without a current word. *)
Theorem flipCard_twice (s : AppState) : flipCard (flipCard s) = s.
Proof.
  unfold flipCard. destruct s as [v j l em sm [i|] b rs]; cbn; [|reflexivity].
  rewrite negb_involutive. reflexivity.
Qed.

(** ** Import: failures and repeated imports *)

(** A call of [addWords] fails: the parser throws, or the value parsed is
    not an array, or a record does not pass the checks. *)
Definition addWordsFails (JSON_parse : string -> ParseResult) (s : AppState) : Prop :=
  match JSON_parse (jsonInput s) with
  | SyntaxError _ => True
  | NotArray => True
  | WordArray parsedWords => checkWords 0 parsedWords <> None
  end.

(** X18.  [addWords] sets no success message exactly when the call fails,
    and it leaves the pool as it is exactly when the call fails or the array
    is empty.  On a failure only the two messages can differ from the state
    before: a syntax error of the parser ends the call normally with the
    parser's message as [errorMessage]; a value that is not an array, or an
    invalid record, is thrown with [errorMessage] empty, so the failed check
    is never put on the page.  An empty array is a success: it adds no word,
    sets the success message for 0 words and clears the input. *)
Theorem addWords_failure (JSON_parse : string -> ParseResult) (s : AppState) :
  (successMessage (fst (addWords JSON_parse s)) = None <-> addWordsFails JSON_parse s)
  /\ (wordList (fst (addWords JSON_parse s)) = wordList s
      <-> addWordsFails JSON_parse s \/ JSON_parse (jsonInput s) = WordArray [])
  /\ (addWordsFails JSON_parse s ->
      fst (addWords JSON_parse s)
      = set_successMessage None
          (set_errorMessage (errorMessage (fst (addWords JSON_parse s))) s)
      /\ (forall e, snd (addWords JSON_parse s) = Throw e ->
            errorMessage (fst (addWords JSON_parse s)) = EmptyString
            /\ forall message, JSON_parse (jsonInput s) <> SyntaxError message)
      /\ (snd (addWords JSON_parse s) = Normal ->
            JSON_parse (jsonInput s)
            = SyntaxError (errorMessage (fst (addWords JSON_parse s)))))
  /\ (JSON_parse (jsonInput s) = WordArray [] ->
      snd (addWords JSON_parse s) = Normal
      /\ successMessage (fst (addWords JSON_parse s)) = Some 0%nat
      /\ jsonInput (fst (addWords JSON_parse s)) = EmptyString
      /\ errorMessage (fst (addWords JSON_parse s)) = EmptyString).
Proof.
  unfold addWordsFails, addWords.
  cbn [jsonInput set_successMessage set_errorMessage].
  destruct (JSON_parse (jsonInput s)) as [message | | parsedWords].
  - split_and!.
    + split; [intros _; exact I | intros _; reflexivity].
    + split; [intros _; left; exact I | intros _; reflexivity].
    + intros _. split; [reflexivity|]. split; [intros e He; discriminate He|].
      intros _. reflexivity.
    + intros H. discriminate H.
  - split_and!.
    + split; [intros _; exact I | intros _; reflexivity].
    + split; [intros _; left; exact I | intros _; reflexivity].
    + intros _. split; [reflexivity|]. split; [|intros He; discriminate He].
      intros e _. split; [reflexivity | discriminate].
    + intros H. discriminate H.
  - destruct (checkWords 0 parsedWords) as [e|] eqn:E.
    + split_and!.
      * split; [intros _; discriminate | intros _; reflexivity].
      * split; [intros _; left; discriminate | intros _; reflexivity].
      * intros _. split; [reflexivity|]. split; [|intros He; discriminate He].
        intros e' _. split; [reflexivity | discriminate].
      * intros H. inversion H; subst. discriminate E.
    + cbn [fst snd wordList successMessage jsonInput errorMessage set_jsonInput
             set_successMessage set_wordList set_errorMessage].
      split_and!.
      * split; [intros H; discriminate H | intros H; exfalso; apply H; reflexivity].
      * split.
        -- intros H. right.
           rewrite <- (app_nil_r (wordList s)) in H at 2.
           apply app_inv_head in H. destruct parsedWords; [reflexivity | discriminate H].
        -- intros [H | H]; [exfalso; apply H; reflexivity|].
           inversion H; subst. apply app_nil_r.
      * intros H. exfalso. apply H. reflexivity.
      * intros H. inversion H; subst. repeat split.
Qed.

(** An array with an invalid record, and an empty array. *)
Example addWords_adds_nothing :
  addWords (fun _ => WordArray [emptyWordRecord]) twoWords
  = (set_successMessage None twoWords, Throw (MissingWordField 1))
  /\ wordList (fst (addWords (fun _ => WordArray []) (set_jsonInput "[]" twoWords)))
     = wordList twoWords
  /\ successMessage (fst (addWords (fun _ => WordArray []) (set_jsonInput "[]" twoWords)))
     = Some 0%nat
  /\ jsonInput (fst (addWords (fun _ => WordArray []) (set_jsonInput "[]" twoWords)))
     = EmptyString.
Proof. repeat split; reflexivity. Qed.

(** The parser's message is shown; the message of a failed check is not. *)
Example addWords_messages :
  errorMessage (fst (addWords (fun _ => SyntaxError "Unexpected end of JSON input")
                       twoWords))
  = "Unexpected end of JSON input"%string
  /\ addWords (fun _ => WordArray [emptyWordRecord]) twoWords
     = (set_successMessage None twoWords, Throw (MissingWordField 1)).
Proof. split; reflexivity. Qed.

Lemma checkWords_app (l1 l2 : list Word) :
  checkWords 0 (l1 ++ l2) = None <-> checkWords 0 l1 = None /\ checkWords 0 l2 = None.
Proof. rewrite !checkWords_None. apply Forall_app. Qed.

(** X19.  Imports add up, and each call is all or nothing.  When two arrays
    of valid records are imported one after the other, the pool is the same
    as after one import of the two arrays joined.  When the second array holds
    an invalid record, the import in two calls keeps the words of the first
    array, while the import of the joined array adds none. *)
Theorem addWords_in_two_calls
    (JSON_parse : string -> ParseResult) (s : AppState)
    (j1 j2 j12 : string) (l1 l2 : list Word) :
  JSON_parse j1 = WordArray l1 ->
  JSON_parse j2 = WordArray l2 ->
  JSON_parse j12 = WordArray (l1 ++ l2) ->
  checkWords 0 l1 = None ->
  let s1 := fst (addWords JSON_parse (set_jsonInput j1 s)) in
  let s2 := fst (addWords JSON_parse (set_jsonInput j2 s1)) in
  let s12 := fst (addWords JSON_parse (set_jsonInput j12 s)) in
  (checkWords 0 l2 = None -> wordList s2 = wordList s12)
  /\ (checkWords 0 l2 <> None ->
      wordList s2 = wordList s ++ map newWordWithWeight l1 /\ wordList s12 = wordList s).
Proof.
  intros E1 E2 E12 H1 s1 s2 s12.
  assert (Hs1 : wordList s1 = wordList s ++ map newWordWithWeight l1).
  { unfold s1, addWords. cbn [jsonInput set_jsonInput set_successMessage set_errorMessage].
    rewrite E1, H1. reflexivity. }
  pose proof (checkWords_app l1 l2) as Happ.
  destruct (checkWords 0 l2) as [e2|] eqn:H2.
  - split; [discriminate|]. intros _. split.
    + unfold s2, addWords.
      cbn [jsonInput set_jsonInput set_successMessage set_errorMessage].
      rewrite E2, H2. exact Hs1.
    + unfold s12, addWords.
      cbn [jsonInput set_jsonInput set_successMessage set_errorMessage]. rewrite E12.
      destruct (checkWords 0 (l1 ++ l2)) as [e|]; [reflexivity|].
      destruct Happ as [Happ _]. destruct (Happ eq_refl) as [_ Hf]. discriminate Hf.
  - split; [|congruence]. intros _.
    unfold s2, s12, addWords.
    cbn [jsonInput set_jsonInput set_successMessage set_errorMessage].
    rewrite E2, H2, E12.
    destruct Happ as [_ Happ]. rewrite (Happ (conj H1 eq_refl)).
    cbn [fst wordList set_jsonInput set_successMessage set_wordList set_errorMessage].
    fold s1. rewrite Hs1, map_app, app_assoc. reflexivity.
Qed.

(** A parser for three sample inputs. *)
Definition sampleParser (j : string) : ParseResult :=
  if String.eqb j "1" then WordArray [apple]
  else if String.eqb j "2" then WordArray [pear]
  else WordArray [apple; pear].

Lemma addWords_in_two_calls_witness :
  (checkWords 0 [pear] = None ->
   wordList (fst (addWords sampleParser
                    (set_jsonInput "2"
                       (fst (addWords sampleParser (set_jsonInput "1" initialState))))))
   = wordList (fst (addWords sampleParser (set_jsonInput "12" initialState))))
  /\ (checkWords 0 [pear] <> None ->
      wordList (fst (addWords sampleParser
                       (set_jsonInput "2"
                          (fst (addWords sampleParser (set_jsonInput "1" initialState))))))
      = wordList initialState ++ map newWordWithWeight [apple]
      /\ wordList (fst (addWords sampleParser (set_jsonInput "12" initialState)))
         = wordList initialState).
Proof.
  apply (addWords_in_two_calls sampleParser initialState "1" "2" "12" [apple] [pear]);
    reflexivity.
Defined.

(** The two ways to the pool of [twoWords]. *)
Example addWords_one_by_one :
  wordList (fst (addWords sampleParser
                   (set_jsonInput "2"
                      (fst (addWords sampleParser (set_jsonInput "1" initialState))))))
  = wordList twoWords.
Proof. reflexivity. Qed.

(** ** Start after a finished session *)

(** X20.  A start does not reset the weights.  When a session has ended
    because no word is eligible, going back to the home view and starting
    again ends at once, with the same table and the same state as before;
    only a restart brings the words back. *)
Theorem start_after_mastery (u : float) (s : AppState) :
  wordList s <> [] ->
  eligibleWords (wordList s) = [] ->
  startLearning u (backToHome (endLearning s)) = endLearning s
  /\ currentView (restartLearning u (endLearning s)) = learning.
Proof.
  intros Hne Hnone. split.
  - rewrite startLearning_nonempty by exact Hne.
    rewrite selectNextWord_finished by exact Hnone.
    reflexivity.
  - apply restartLearning_nonempty. exact Hne.
Qed.

Lemma start_after_mastery_witness :
  startLearning 0.7 (backToHome (endLearning sixthAssessed)) = endLearning sixthAssessed
  /\ currentView (restartLearning 0.7 (endLearning sixthAssessed)) = learning.
Proof.
  apply (start_after_mastery 0.7 sixthAssessed).
  - vm_compute. discriminate.
  - vm_compute. reflexivity.
Defined.
